(** * Example selection for the OpenImages boots-and-cats notebook

    A shallow embedding of the data wrangling cells of
    [gt_object_det/2b. SageMaker Built-In Algo.ipynb]:

    - the case-insensitive lookup of class names in the class description
      table ([class_root_ids], [classes_lower_notfound]);
    - the expansion of a root class id to its subclasses
      ([get_all_subclasses]);
    - the quota-bounded streaming collection of bounding boxes
      ([class_bbs], [unfilled_class_names]) and its post-processing
      ([class_bbs_batch], [bbs], [n_images]).

    Python values are modelled as follows.  A [str] is a [string] holding
    its UTF-8 bytes; slicing counts characters, and [str.lower] folds ASCII
    letters and follows a case mapping left as a parameter on other text.
    A CSV row is a record of the columns the cell reads; the annotation
    rows are also modelled as the lists of fields [csv.reader] yields,
    whose unpacking fails on fewer than eight fields.  A [dict] (and a
    [defaultdict]) is an association list with pairwise distinct keys kept
    in insertion order, because the cells depend on that order
    ([items()[-N:]], the order of the merged boxes).  A [set] of strings is
    a [gset string]; a loop over a set runs over [elements], and the result
    is shown not to depend on that order ([step_order_irrelevant],
    [collect_order_irrelevant]). *)

From Stdlib Require Import Ascii String.
From stdpp Require Import base decidable option list sets gmap strings.

#[local] Set Warnings "-clear-no-such-hyp".

Local Open Scope string_scope.
Local Open Scope list_scope.
Local Open Scope nat_scope.

(** ** Insertion-ordered dictionaries *)

Module PyDict.
Section ops.
Context {K V : Type} `{EqDecision K}.

(** [d.get(k)] *)
Fixpoint dget (k : K) (d : list (K * V)) : option V :=
  match d with
  | [] => None
  | (k', v) :: d' => if decide (k = k') then Some v else dget k d'
  end.

(** [d[k] = v]: an existing key keeps its position, a new key goes last. *)
Fixpoint dset (k : K) (v : V) (d : list (K * V)) : list (K * V) :=
  match d with
  | [] => [(k, v)]
  | (k', v') :: d' =>
      if decide (k = k') then (k', v) :: d' else (k', v') :: dset k v d'
  end.

(** [del d[k]] *)
Fixpoint ddel (k : K) (d : list (K * V)) : list (K * V) :=
  match d with
  | [] => []
  | (k', v') :: d' =>
      if decide (k = k') then d' else (k', v') :: ddel k d'
  end.

(** [d[k] = f(d[k])] on a [defaultdict] whose factory returns [dflt]:
    reading a missing key first inserts it, at the end. *)
Fixpoint dd_update (f : V → V) (dflt : V) (k : K) (d : list (K * V))
  : list (K * V) :=
  match d with
  | [] => [(k, f dflt)]
  | (k', v') :: d' =>
      if decide (k = k') then (k', f v') :: d'
      else (k', v') :: dd_update f dflt k d'
  end.

(** [d[k]] where the key is known to be present (or [d] is a
    [defaultdict] with factory value [dflt] and is only read). *)
Definition dict_at (dflt : V) (k : K) (d : list (K * V)) : V :=
  default dflt (dget k d).

(** [list(d.keys())] *)
Definition keys (d : list (K * V)) : list K := d.*1.

(** The keys a sequence of insertions creates: each new key, in the order
    of its first occurrence. *)
Definition add_new (acc : list K) (k : K) : list K :=
  if decide (k ∈ acc) then acc else acc ++ [k].

Definition first_seen_from (acc : list K) (l : list K) : list K :=
  foldl add_new acc l.

Definition first_seen (l : list K) : list K := first_seen_from [] l.
End ops.
End PyDict.
Import PyDict.

(** [l[-n:]]: the last [n] elements, all of [l] when it is shorter, and,
    as [-0] is [0], all of [l] when [n = 0]. *)
Definition py_last_n {A : Type} (n : nat) (l : list A) : list A :=
  if decide (n = 0) then l else drop (length l - n) l.

(** ** Strings *)

(** A [str] is held as its UTF-8 bytes.  [str.lower()] follows the case
    mapping of the Unicode database.  On text that is all ASCII that is the
    folding of [A-Z] to [a-z], which is written out; on any other text the
    mapping is not modelled: it is a parameter, and every property below
    holds whatever it is. *)
Class UnicodeLower := unicode_lower : string → string.

Definition lower_ascii (c : ascii) : ascii :=
  let n := nat_of_ascii c in
  if (65 <=? n)%nat && (n <=? 90)%nat then ascii_of_nat (n + 32) else c.

Fixpoint lower_ascii_text (s : string) : string :=
  match s with
  | EmptyString => EmptyString
  | String c s' => String (lower_ascii c) (lower_ascii_text s')
  end.

Fixpoint is_ascii (s : string) : bool :=
  match s with
  | EmptyString => true
  | String c s' => (nat_of_ascii c <? 128)%nat && is_ascii s'
  end.

Definition lower `{UnicodeLower} (s : string) : string :=
  if is_ascii s then lower_ascii_text s else unicode_lower s.

(** ** Step 2a: class names to root ids *)

Module Resolver.

(** A row of [class-descriptions.csv]: [row[0]] and [row[1]]. *)
Record DescriptionRow := {
  label_id : string;
  display_name : string;
}.

(** The exception the cell raises, with the list it prints. *)
Inductive error := ValueError (notfound : list string).

Section resolver.
Context `{UnicodeLower}.

(** [{ s: None for s in CLASS_NAMES }] *)
Definition init_class_root_ids (CLASS_NAMES : list string)
  : list (string * option string) :=
  foldl (λ d s, dset s None d) [] CLASS_NAMES.

(** [{ s.lower(): s for s in CLASS_NAMES }] *)
Definition init_classes_lower_notfound (CLASS_NAMES : list string)
  : list (string * string) :=
  foldl (λ d s, dset (lower s) s d) [] CLASS_NAMES.

(** The [for row in csv.reader(f)] loop, with its [break]. *)
Fixpoint scan (rows : list DescriptionRow)
    (class_root_ids : list (string * option string))
    (classes_lower_notfound : list (string * string))
  : list (string * option string) * list (string * string) :=
  match rows with
  | [] => (class_root_ids, classes_lower_notfound)
  | row :: rest =>
      let row_class_lower := lower (display_name row) in
      match dget row_class_lower classes_lower_notfound with
      | Some match_ =>
          let class_root_ids' :=
            dset match_ (Some (label_id row)) class_root_ids in
          let classes_lower_notfound' :=
            ddel row_class_lower classes_lower_notfound in
          if decide (length classes_lower_notfound' = 0)
          then (class_root_ids', classes_lower_notfound')
          else scan rest class_root_ids' classes_lower_notfound'
      | None => scan rest class_root_ids classes_lower_notfound
      end
  end.

(** The whole cell: the mapping, or the [ValueError] listing the values
    left in [classes_lower_notfound]. *)
Definition resolve (CLASS_NAMES : list string) (table : list DescriptionRow)
  : error + list (string * option string) :=
  let '(class_root_ids, classes_lower_notfound) :=
    scan table (init_class_root_ids CLASS_NAMES)
               (init_classes_lower_notfound CLASS_NAMES) in
  if decide (length classes_lower_notfound = 0)
  then inr class_root_ids
  else inl (ValueError classes_lower_notfound.*2).

(** Specification vocabulary: a row matches a name when their lower-cased
    forms agree; [first_match] is the id of the first such row. *)
Definition matches (name : string) (row : DescriptionRow) : Prop :=
  lower (display_name row) = lower name.

#[global] Instance matches_dec name row : Decision (matches name row).
Proof. unfold matches. apply _. Defined.

Definition first_match (name : string) (table : list DescriptionRow)
  : option string :=
  label_id <$> head (filter (matches name) table).

Definition unmatched (table : list DescriptionRow) (names : list string)
  : list string :=
  filter (λ s, first_match s table = None) names.

(** [row] is the first row of [table], in table order, that matches. *)
Definition first_matching_row (name : string) (table : list DescriptionRow)
    (row : DescriptionRow) : Prop :=
  ∃ pre post, table = pre ++ row :: post ∧ matches name row
              ∧ ∀ r, r ∈ pre → ¬ matches name r.

Definition has_match (table : list DescriptionRow) (name : string) : Prop :=
  ∃ row, row ∈ table ∧ matches name row.

Definition has_unique_match (table : list DescriptionRow) (name : string)
  : Prop :=
  ∃ row, row ∈ table ∧ matches name row
         ∧ ∀ row', row' ∈ table → matches name row' → row' = row.

End resolver.

End Resolver.

(** ** Step 2b: the label hierarchy *)

Module Hierarchy.

(** A node of [labels-hierarchy.json]: a JSON object with a ["LabelName"]
    and, optionally, a ["Subcategory"] array. *)
#[warnings="-register-all"]
Inductive tree :=
| Node (LabelName : string) (Subcategory : option (list tree)).

Definition label (t : tree) : string :=
  match t with Node l _ => l end.

Definition children (t : tree) : list tree :=
  match t with Node _ (Some subs) => subs | Node _ None => [] end.

Fixpoint all_subtree_class_ids (subtree : tree) : gset string :=
  match subtree with
  | Node l (Some subs) => {[ l ]} ∪ ⋃ (all_subtree_class_ids <$> subs)
  | Node l None => {[ l ]}
  end.

Fixpoint get_all_subclasses (class_id : string) (t : tree) : gset string :=
  match t with
  | Node l sub =>
      if decide (l = class_id) then all_subtree_class_ids t
      else match sub with
           | Some subs => ⋃ (get_all_subclasses class_id <$> subs)
           | None => ∅
           end
  end.

(** [{ name: get_all_subclasses(class_root_ids[name], hierarchy) ... }].
    A name left at [None] compares unequal to every label, so the search
    finds nothing. *)
Definition class_id_sets (class_root_ids : list (string * option string))
    (hierarchy : tree) : list (string * gset string) :=
  (λ '(name, root),
     (name, from_option (λ c, get_all_subclasses c hierarchy) ∅ root))
  <$> class_root_ids.

(** Specification vocabulary: the nodes of a tree in depth-first order,
    and their labels. *)
Fixpoint nodes (t : tree) : list tree :=
  t :: match t with
       | Node _ (Some subs) => concat (nodes <$> subs)
       | Node _ None => []
       end.

Definition labels (t : tree) : list string := label <$> nodes t.

Definition is_leaf (t : tree) : Prop := children t = [].

End Hierarchy.

(** ** Step 3: quota-bounded collection of example images *)

Module Collector.

(** A row of [annotations-bbox.csv], as the cell unpacks it:
    [img_id, _, cls_id, conf, xmin, xmax, ymin, ymax, *_ = row]. *)
Record AnnotationRow := {
  img_id : string;
  source : string;
  cls_id : string;
  conf : string;
  xmin : string;
  xmax : string;
  ymin : string;
  ymax : string;
}.

(** The unpacking itself, of a row as [csv.reader] yields it: the first
    eight fields are bound and [*_] takes the others; a row of fewer than
    eight fields raises [ValueError] (not enough values to unpack). *)
Inductive unpack_error := NotEnoughValues (got : nat).

Definition unpack (row : list string) : unpack_error + AnnotationRow :=
  match row with
  | img_id :: source :: cls_id :: conf :: xmin :: xmax :: ymin :: ymax :: _ =>
      inr {| img_id := img_id; source := source; cls_id := cls_id;
             conf := conf; xmin := xmin; xmax := xmax; ymin := ymin;
             ymax := ymax |}
  | _ => inl (NotEnoughValues (length row))
  end.

(** A bounding box is the Python list [[name, xmin, xmax, ymin, ymax]]. *)
Abbreviation Box := (list string).

(** One class's [defaultdict(list)]: image id to boxes, in insertion order. *)
Abbreviation Groups := (list (string * list Box)).

Definition box_of (name : string) (row : AnnotationRow) : Box :=
  [name; xmin row; xmax row; ymin row; ymax row].

(** The loop state: [class_bbs] and [unfilled_class_names]. *)
Record state := {
  class_bbs : list (string * Groups);
  unfilled_class_names : gset string;
}.

(** What the warning prints: the three numbers of its header and, for each
    unfilled class, its name and [len(class_bbs[name])]. *)
Record warning := {
  w_examples_per_class : nat;
  w_batches : nat;
  w_images_needed : nat;
  w_classes : list (string * nat);
}.

(** What the cell leaves behind. *)
Record output := {
  out_warning : option warning;
  out_class_bbs : list (string * Groups);
  bbs : list (string * list Box);
  n_images : nat;
}.

Section collector.
(** [class_id_sets] is keyed by [CLASS_NAMES]: it is a comprehension over
    [class_root_ids], itself one over [CLASS_NAMES].  The names of
    [set(CLASS_NAMES)] are therefore the keys of [class_id_sets]. *)
Variable class_id_sets : list (string * gset string).
Variable N_EXAMPLES_PER_CLASS : nat.
Variable BATCH_OFFSET : nat.
Variable SKIP_IMAGES : gset string.

Definition n_images_needed : nat :=
  N_EXAMPLES_PER_CLASS * (BATCH_OFFSET + 1).

(** [{ name: defaultdict(list) for name in class_id_sets }] *)
Definition init_class_bbs : list (string * Groups) :=
  foldl (λ d name, dset name [] d) [] (keys class_id_sets).

Definition init_state : state :=
  {| class_bbs := init_class_bbs;
     unfilled_class_names := list_to_set (keys class_id_sets) |}.

(** [class_bbs[name][img_id].append(box)] *)
Definition append_box (img : string) (box : Box) (g : Groups) : Groups :=
  dd_update (λ boxes, boxes ++ [box]) [] img g.

(** The body of [for name in curr_unfilled_class_names]. *)
Definition visit (row : AnnotationRow) (st : state) (name : string)
  : state :=
  if decide (cls_id row ∈ dict_at ∅ name class_id_sets) then
    let g := append_box (img_id row) (box_of name row)
               (dict_at [] name (class_bbs st)) in
    let class_bbs' := dset name g (class_bbs st) in
    if decide (n_images_needed ≤ length g)%nat
    then {| class_bbs := class_bbs';
            unfilled_class_names := unfilled_class_names st ∖ {[ name ]} |}
    else {| class_bbs := class_bbs';
            unfilled_class_names := unfilled_class_names st |}
  else st.

(** The body of [for row in csv.reader(f)], given the order in which the
    copy of the set is iterated. *)
Definition step_in_order (order : gset string → list string)
    (st : state) (row : AnnotationRow) : state :=
  if decide (img_id row ∈ SKIP_IMAGES) then st
  else foldl (visit row) st (order (unfilled_class_names st)).

Definition step : state → AnnotationRow → state := step_in_order elements.

(** The streaming loop. *)
Definition collect_from (st : state) (rows : list AnnotationRow) : state :=
  foldl step st rows.

Definition collect (rows : list AnnotationRow) : state :=
  collect_from init_state rows.

(** The [WARNING] block. *)
Definition warn (st : state) : option warning :=
  if decide (length (elements (unfilled_class_names st)) = 0) then None
  else Some {| w_examples_per_class := N_EXAMPLES_PER_CLASS;
               w_batches := BATCH_OFFSET + 1;
               w_images_needed := n_images_needed;
               w_classes :=
                 (λ name, (name, length (dict_at [] name (class_bbs st))))
                 <$> elements (unfilled_class_names st) |}.

(** [class_bbs_all_unfiltered[-N_EXAMPLES_PER_CLASS:]] *)
Definition class_bbs_batch (g : Groups) : Groups :=
  py_last_n N_EXAMPLES_PER_CLASS g.

(** [bbs[img_id] = bbs[img_id] + boxes] for every kept group. *)
Definition merge_batch (b : list (string * list Box)) (batch : Groups)
  : list (string * list Box) :=
  foldl (λ b '(img, boxes), dd_update (λ old, old ++ boxes) [] img b)
        b batch.

(** The body of [for class_name in class_bbs]. *)
Definition post_class
    (acc : list (string * Groups) * list (string * list Box))
    (class_name : string)
  : list (string * Groups) * list (string * list Box) :=
  let batch := class_bbs_batch (dict_at [] class_name (acc.1)) in
  (dset class_name batch (acc.1), merge_batch (acc.2) batch).

Definition postprocess (cb : list (string * Groups))
  : list (string * Groups) * list (string * list Box) :=
  foldl post_class (cb, []) (keys cb).

(** The whole cell. *)
Definition run (rows : list AnnotationRow) : output :=
  let st := collect rows in
  let '(cb, b) := postprocess (class_bbs st) in
  {| out_warning := warn st;
     out_class_bbs := cb;
     bbs := b;
     n_images := length (keys b) |}.

(** The cell on the rows as [csv.reader] yields them.  The loop has no
    [break]: it unpacks every row of the file, one after the other, and a
    row that does not unpack ends the cell with its [ValueError]. *)
Fixpoint collect_csv_from (st : state) (csv : list (list string))
  : unpack_error + state :=
  match csv with
  | [] => inr st
  | fields :: rest =>
      match unpack fields with
      | inl e => inl e
      | inr row => collect_csv_from (step st row) rest
      end
  end.

Definition collect_csv (csv : list (list string)) : unpack_error + state :=
  collect_csv_from init_state csv.

(** What follows the loop. *)
Definition finish (st : state) : output :=
  let '(cb, b) := postprocess (class_bbs st) in
  {| out_warning := warn st;
     out_class_bbs := cb;
     bbs := b;
     n_images := length (keys b) |}.

Definition run_csv (csv : list (list string)) : unpack_error + output :=
  match collect_csv csv with
  | inl e => inl e
  | inr st => inr (finish st)
  end.

(** Specification vocabulary. *)

(** A row counts for a class when its image is not skipped and its label
    is in the class's id set. *)
Definition counts_for (name : string) (row : AnnotationRow) : Prop :=
  (img_id row ∉ SKIP_IMAGES) ∧ (cls_id row ∈ dict_at ∅ name class_id_sets).

#[global] Instance counts_for_dec name row : Decision (counts_for name row).
Proof. unfold counts_for. apply _. Defined.

(** The distinct images with a row that counts for the class, in stream
    order. *)
Definition matching_images (name : string) (rows : list AnnotationRow)
  : list string :=
  first_seen (img_id <$> filter (counts_for name) rows).

(** The groups accumulated for a class. *)
Definition accumulated (name : string) (rows : list AnnotationRow)
  : Groups :=
  dict_at [] name (class_bbs (collect rows)).

(** The groups kept for a class. *)
Definition kept (name : string) (rows : list AnnotationRow) : Groups :=
  dict_at [] name (out_class_bbs (run rows)).
End collector.

(** A box carries the name of its class in front. *)
Definition tagged (name : string) (box : Box) : Prop := head box = Some name.

#[global] Instance tagged_dec name box : Decision (tagged name box).
Proof. unfold tagged. apply _. Defined.

(** The entries of the merged mapping with a box of the given class. *)
Definition images_of_class (name : string) (b : list (string * list Box))
  : list (string * list Box) :=
  filter (λ e, Exists (tagged name) e.2) b.

End Collector.


(** ** The notebook as a whole *)

Module Notebook.
Import Resolver Hierarchy Collector.

(** The constants of the configuration cell and of the collection cell. *)
Definition CLASS_NAMES : list string := ["Boot"; "Cat"].
Definition N_EXAMPLES_PER_CLASS : nat := 20.
Definition BATCH_OFFSET : nat := 0.
Definition SKIP_IMAGES : gset string :=
  {[ "251d4c429f6f9c39"; "065ad49f98157c8d" ]}.

(** Steps 2 and 3 in sequence: the [ValueError] of the lookup stops the
    notebook, otherwise the id sets feed the collection. *)
Definition select_examples `{UnicodeLower} (CLASS_NAMES : list string)
    (table : list DescriptionRow) (hierarchy : tree)
    (N_EXAMPLES_PER_CLASS BATCH_OFFSET : nat) (SKIP_IMAGES : gset string)
    (rows : list AnnotationRow) : error + output :=
  match resolve CLASS_NAMES table with
  | inl e => inl e
  | inr class_root_ids =>
      inr (run (class_id_sets class_root_ids hierarchy)
             N_EXAMPLES_PER_CLASS BATCH_OFFSET SKIP_IMAGES rows)
  end.

End Notebook.

(** ** Auxiliary views used to state and prove the properties *)

Module ResolverView.
Import Resolver.

Section view.
Context `{UnicodeLower}.

(** The two dictionaries of the scanning loop, described by the ids found
    so far. *)
Definition ids_of (f : string → option string) (names : list string)
  : list (string * option string) :=
  (λ s, (s, f s)) <$> names.

Definition notfound_of (f : string → option string) (names : list string)
  : list (string * string) :=
  (λ s, (lower s, s)) <$> filter (λ s, f s = None) names.

(** The ids found so far, completed by a scan of the remaining rows. *)
Definition complete (f : string → option string)
    (rows : list DescriptionRow) (s : string) : option string :=
  match f s with
  | Some i => Some i
  | None => first_match s rows
  end.

End view.

End ResolverView.

Module CollectorView.
Import Collector.

Section view.
Variable class_id_sets : list (string * gset string).
Variable SKIP_IMAGES : gset string.

(** What a row does to one class: its groups, and whether the class is
    still unfilled.  The loop body for a class reads and writes only the
    groups of that class and its membership in [unfilled_class_names]. *)
Definition class_step (needed : nat) (name : string)
    (σ : Groups * bool) (row : AnnotationRow) : Groups * bool :=
  if decide (img_id row ∈ SKIP_IMAGES) then σ
  else if σ.2 then
    if decide (cls_id row ∈ dict_at ∅ name class_id_sets) then
      let g := append_box (img_id row) (box_of name row) (σ.1) in
      (g, bool_decide (length g < needed))
    else σ
  else σ.

Definition class_run (needed : nat) (name : string)
    (rows : list AnnotationRow) : Groups * bool :=
  foldl (class_step needed name) ([], true) rows.

(** A loop state described class by class. *)
Definition canon (names : list string) (σ : string → Groups * bool)
    (st : state) : Prop :=
  class_bbs st = (λ n, (n, (σ n).1)) <$> names
  ∧ unfilled_class_names st
    = list_to_set (filter (λ n, (σ n).2 = true) names).

(** The classes, in the order of the keys of [class_bbs]. *)
Definition class_names : list string := first_seen (keys class_id_sets).

(** The kept groups of every class. *)
Definition batches (N_EXAMPLES_PER_CLASS : nat)
    (cb : list (string * Groups)) : list (string * Groups) :=
  (λ e, (e.1, class_bbs_batch N_EXAMPLES_PER_CLASS e.2)) <$> cb.
End view.

(** Every group has a box, and all its boxes carry the class name. *)
Definition well_tagged (name : string) (g : Groups) : Prop :=
  Forall (λ e, e.2 ≠ [] ∧ Forall (tagged name) e.2) g.

Definition quota_inv (needed : nat) (σ : Groups * bool) : Prop :=
  NoDup (keys σ.1) ∧ length σ.1 ≤ needed
  ∧ (σ.2 = true ↔ length σ.1 < needed).

(** [extends g g']: [g'] has the groups of [g], in the same order and each
    with at least the same boxes first, possibly followed by more groups. *)
Inductive extends : Groups → Groups → Prop :=
| extends_nil g' : extends [] g'
| extends_cons img boxes boxes' g g' :
    boxes `prefix_of` boxes' → extends g g' →
    extends ((img, boxes) :: g) ((img, boxes') :: g').

Definition ahead (σ σ' : Groups * bool) : Prop :=
  extends σ.1 σ'.1 ∧ (σ.2 = true → σ'.1 = σ.1 ∧ σ'.2 = true).

End CollectorView.

(** ** Further views of the collection *)

Module CollectorGrouping.
Import Collector.

(** The groups that appending the box of every row of [rs], in order, to
    an empty [defaultdict] gives. *)
Definition group_rows (name : string) (rs : list AnnotationRow) : Groups :=
  foldl (λ g r, append_box (img_id r) (box_of name r) g) [] rs.

(** The streaming loop when the copy of the set is iterated in the order
    [order] gives. *)
Definition collect_in_order (class_id_sets : list (string * gset string))
    (N_EXAMPLES_PER_CLASS BATCH_OFFSET : nat) (SKIP_IMAGES : gset string)
    (order : gset string → list string) (rows : list AnnotationRow) : state :=
  foldl (step_in_order class_id_sets N_EXAMPLES_PER_CLASS BATCH_OFFSET
           SKIP_IMAGES order)
    (init_state class_id_sets) rows.

Section any_order.
Variable class_id_sets : list (string * gset string).
Variable N_EXAMPLES_PER_CLASS BATCH_OFFSET : nat.
Variable SKIP_IMAGES : gset string.

(** The body of the row loop when nothing is known of the order in which
    the copy of the set is iterated: at each row, any list of the elements
    of [unfilled_class_names], each once, may be the one. *)
Inductive step_any : state → AnnotationRow → state → Prop :=
| step_skip st row :
    img_id row ∈ SKIP_IMAGES → step_any st row st
| step_visit st row order :
    img_id row ∉ SKIP_IMAGES →
    NoDup order →
    (∀ name, name ∈ order ↔ name ∈ unfilled_class_names st) →
    step_any st row
      (foldl (visit class_id_sets N_EXAMPLES_PER_CLASS BATCH_OFFSET row)
         st order).

Inductive collect_any : state → list AnnotationRow → state → Prop :=
| collect_any_nil st : collect_any st [] st
| collect_any_cons st row st' rows st'' :
    step_any st row st' → collect_any st' rows st'' →
    collect_any st (row :: rows) st''.

End any_order.

End CollectorGrouping.

(** ** Python string methods used by the manifest cells *)

Module PyStr.

(** Whether the character occurs in the string. *)
Fixpoint has_char (c : ascii) (s : string) : bool :=
  match s with
  | EmptyString => false
  | String a s' => if decide (a = c) then true else has_char c s'
  end.

(** [s.partition(sep)] for a one-character ASCII [sep], which in UTF-8
    is one byte that occurs in no other character: the part before the first
    [sep], [sep] itself, and the part after it; [(s, "", "")] when [sep]
    does not occur. *)
Fixpoint partition (sep : ascii) (s : string) : string * string * string :=
  match s with
  | EmptyString => (EmptyString, EmptyString, EmptyString)
  | String a s' =>
      if decide (a = sep) then (EmptyString, String sep EmptyString, s')
      else let '(h, m, t) := partition sep s' in (String a h, m, t)
  end.

(** [s.rpartition(sep)] for a one-character ASCII [sep]: the same around the
    last [sep]; [("", "", s)] when [sep] does not occur. *)
Fixpoint rpartition (sep : ascii) (s : string) : string * string * string :=
  match s with
  | EmptyString => (EmptyString, EmptyString, EmptyString)
  | String a s' =>
      let '(h, m, t) := rpartition sep s' in
      match m with
      | EmptyString =>
          if decide (a = sep) then (EmptyString, String sep EmptyString, s')
          else (EmptyString, EmptyString, String a t)
      | String _ _ => (String a h, m, t)
      end
  end.

(** The number of bytes of the character that a byte starts in UTF-8:
    one for ASCII, two, three or four as the leading bits say. *)
Definition utf8_width (c : ascii) : nat :=
  let n := nat_of_ascii c in
  if (n <? 192)%nat then 1
  else if (n <? 224)%nat then 2
  else if (n <? 240)%nat then 3
  else 4.

Fixpoint drop_bytes (k : nat) (s : string) : string :=
  match k, s with
  | S k', String _ s' => drop_bytes k' s'
  | _, _ => s
  end.

(** [s[n:]]: Python counts characters, not bytes. *)
Fixpoint string_drop (n : nat) (s : string) : string :=
  match n, s with
  | S n', String c s' => string_drop n' (drop_bytes (utf8_width c - 1) s')
  | _, _ => s
  end.

(** Whether the bytes are exactly [n] whole characters: [len(s) == n]. *)
Fixpoint is_chars (n : nat) (s : string) : bool :=
  match n, s with
  | 0, EmptyString => true
  | S n', String c s' =>
      (utf8_width c - 1 <=? String.length s')%nat
      && is_chars n' (drop_bytes (utf8_width c - 1) s')
  | _, _ => false
  end.

End PyStr.

(** ** Steps 4 and 7 to 9: the manifests

    A manifest is a JSON Lines file.  The cells go through [json.loads] and
    [json.dumps], which are not modelled: a file is the list of its parsed
    lines, and a line is a Python [dict] from attribute names to values.  Of
    the values only strings are looked into; all other JSON values are kept
    in a type [J] left open.  Calls to S3 are recorded ([bucket.copy]) or
    read from a given store ([download_file]); they are taken to succeed,
    except that a missing object makes the download raise.
    [os.makedirs] raises on the empty path and is otherwise taken to
    succeed.  Step 9 shuffles at random and is not modelled. *)

Module Manifest.
Import PyStr.

Inductive exn :=
| KeyError (key : string)
| AttributeError
| FileNotFoundError
| ClientError.

Inductive value (J : Type) :=
| Str (s : string)
| Other (j : J).
Arguments Str {J} s.
Arguments Other {J} j.

(** A [bucket.copy] from the [open-images-dataset] bucket. *)
Record copy := {
  source_key : string;
  dest_key : string;
}.

(** [f"s3://{BUCKET_NAME}/{key}"] *)
Definition s3_uri (BUCKET_NAME key : string) : string :=
  "s3://" +:+ BUCKET_NAME +:+ "/" +:+ key.

(** [f"{DATA_PREFIX}/{BATCH_NAME}"] and [DATA_PREFIX + "/augmentation"] *)
Definition data_batch_prefix (DATA_PREFIX BATCH_NAME : string) : string :=
  DATA_PREFIX +:+ "/" +:+ BATCH_NAME.

Definition data_augment_prefix (DATA_PREFIX : string) : string :=
  DATA_PREFIX +:+ "/augmentation".

(** [f"{data_augment_prefix}/manifests/output/output.updated.manifest"]:
    the key under which Step 7 uploads the updated manifest. *)
Definition augment_manifest_loc (DATA_PREFIX : string) : string :=
  data_augment_prefix DATA_PREFIX
  +:+ "/manifests/output/output.updated.manifest".

(** What [import_manifest_file] has done when it returns or raises. *)
Record import_result (J : Type) := {
  copies : list copy;
  written : list (list (string * value J));
  raised : option exn;
  uploaded : bool;
}.
Arguments copies {J} _.
Arguments written {J} _.
Arguments raised {J} _.
Arguments uploaded {J} _.

(** An entry of [annotation_jobs]. *)
Record job := {
  label_name : string;
  manifest : string;
}.

Section manifest.
Context {J : Type}.

Abbreviation Datum := (list (string * value J)).

(** *** Step 4: the input manifest *)

(** [f"{data_batch_prefix}/images/{image_id}.jpg"] *)
Definition image_key (prefix image_id : string) : string :=
  prefix +:+ "/images/" +:+ image_id +:+ ".jpg".

(** The body of [for image_id in image_ids]: one copy, one line. *)
Definition write_image (BUCKET_NAME prefix : string)
    (acc : list copy * list Datum) (image_id : string)
  : list copy * list Datum :=
  let dest_key := image_key prefix image_id in
  (acc.1 ++ [{| source_key := "test/" +:+ image_id +:+ ".jpg";
                dest_key := dest_key |}],
   acc.2 ++ [[("source-ref", Str (s3_uri BUCKET_NAME dest_key))]]).

Definition write_input_manifest (BUCKET_NAME prefix : string)
    (image_ids : list string) : list copy * list Datum :=
  foldl (write_image BUCKET_NAME prefix) ([], []) image_ids.

(** *** Step 7: [import_manifest_file] *)

(** The body of [for line in f_source], up to the write. *)
Definition import_line (BUCKET_NAME target_prefix : string) (datum : Datum)
  : exn + (copy * Datum) :=
  match dget "source-ref" datum with
  | None => inl (KeyError "source-ref")
  | Some (Other _) => inl AttributeError
  | Some (Str ref) =>
      let image_file := (rpartition "/" ref).2 in
      let dest_key := target_prefix +:+ "/images/" +:+ image_file in
      inr ({| source_key := "test/" +:+ image_file; dest_key := dest_key |},
           dset "source-ref" (Str (s3_uri BUCKET_NAME dest_key)) datum)
  end.

Fixpoint import_loop (BUCKET_NAME target_prefix : string)
    (source : list Datum) (done_copies : list copy) (done_lines : list Datum)
  : import_result J :=
  match source with
  | [] => {| copies := done_copies; written := done_lines;
             raised := None; uploaded := true |}
  | datum :: rest =>
      match import_line BUCKET_NAME target_prefix datum with
      | inl e => {| copies := done_copies; written := done_lines;
                    raised := Some e; uploaded := false |}
      | inr (c, datum') =>
          import_loop BUCKET_NAME target_prefix rest
            (done_copies ++ [c]) (done_lines ++ [datum'])
      end
  end.

Definition import_manifest_file (BUCKET_NAME target_prefix : string)
    (source : list Datum) : import_result J :=
  import_loop BUCKET_NAME target_prefix source [] [].

(** *** Step 8: consolidation *)

(** The dictionary literal of the configuration cell: a repeated key keeps
    its first position and its last value. *)
Definition annotation_jobs (BATCH_NAME BUCKET_NAME my_groundtruth_output
    my_groundtruth_job_name my_groundtruth_labels : string)
  : list (string * job) :=
  dset "augmentation"
    {| label_name := "labels";
       manifest := "s3://" +:+ BUCKET_NAME
         +:+ "/data/augmentation/manifests/output/output.updated.manifest" |}
    (dset BATCH_NAME
       {| label_name := my_groundtruth_labels;
          manifest := my_groundtruth_output +:+ "/" +:+ my_groundtruth_job_name
            +:+ "/manifests/output/output.manifest" |}
       []).

(** [manifest[len("s3://"):].partition("/")] and
    [manifest_path.rpartition("/")]: bucket, path, folder and file. *)
Definition manifest_location (uri : string)
  : string * string * string * string :=
  let '(manifest_bucket, _, manifest_path) :=
    partition "/" (string_drop 5 uri) in
  let '(manifest_folder, _, manifest_file) := rpartition "/" manifest_path in
  (manifest_bucket, manifest_path, manifest_folder, manifest_file).

(** [datum["labels"] = datum.pop(label_name)] *)
Definition standardize (label_name : string) (datum : Datum) : exn + Datum :=
  match dget label_name datum with
  | None => inl (KeyError label_name)
  | Some v => inr (dset "labels" v (ddel label_name datum))
  end.

(** [for datum in data], which stops at the first exception. *)
Fixpoint standardize_all (label_name : string) (data : list Datum)
  : exn + list Datum :=
  match data with
  | [] => inr []
  | datum :: rest =>
      match standardize label_name datum with
      | inl e => inl e
      | inr datum' =>
          match standardize_all label_name rest with
          | inl e => inl e
          | inr rest' => inr (datum' :: rest')
          end
      end
  end.

(** The objects of S3: the parsed lines of the file under a bucket and
    key, if there is one. *)
Variable s3_objects : string → string → option (list Datum).

(** The body of [for job_id in annotation_jobs]: the value stored under
    [annotation_jobs[job_id]["data"]]. *)
Definition load_job (j : job) : exn + list Datum :=
  let '(manifest_bucket, manifest_path, manifest_folder, _) :=
    manifest_location (manifest j) in
  if decide (manifest_folder = "") then inl FileNotFoundError
  else
    match s3_objects manifest_bucket manifest_path with
    | None => inl ClientError
    | Some data => standardize_all (label_name j) data
    end.

Fixpoint load_jobs (jobs : list (string * job))
  : exn + list (string * list Datum) :=
  match jobs with
  | [] => inr []
  | (job_id, j) :: rest =>
      match load_job j with
      | inl e => inl e
      | inr data =>
          match load_jobs rest with
          | inl e => inl e
          | inr rest' => inr ((job_id, data) :: rest')
          end
      end
  end.

(** [combined_manifest_data] *)
Definition consolidate (jobs : list (string * job)) : exn + list Datum :=
  match load_jobs jobs with
  | inl e => inl e
  | inr loaded => inr (concat loaded.*2)
  end.

End manifest.

End Manifest.

(** ** The manifests, line by line *)

Module ManifestView.
Import PyStr Manifest.

Section view.
Context {J : Type}.

(** Whether a line has a string under ["source-ref"]. *)
Definition has_ref (datum : list (string * value J)) : bool :=
  match dget "source-ref" datum with
  | Some (Str _) => true
  | _ => false
  end.

(** The copy and the line Step 4 makes for an image. *)
Definition image_copy (prefix image_id : string) : copy :=
  {| source_key := "test/" +:+ image_id +:+ ".jpg";
     dest_key := image_key prefix image_id |}.

Definition image_line (BUCKET_NAME prefix image_id : string)
  : list (string * value J) :=
  [("source-ref", Str (s3_uri BUCKET_NAME (image_key prefix image_id)))].

(** The lines a job's manifest holds in S3, none if there is no such
    object. *)
Definition job_data
    (s3_objects : string → string → option (list (list (string * value J))))
    (j : job) : list (list (string * value J)) :=
  let '(manifest_bucket, manifest_path, _, _) :=
    manifest_location (manifest j) in
  default [] (s3_objects manifest_bucket manifest_path).

(** Whether a job can be loaded: its manifest lies in a folder, is in S3,
    and each of its lines has the job's label attribute. *)
Definition loadable
    (s3_objects : string → string → option (list (list (string * value J))))
    (j : job) : Prop :=
  let '(manifest_bucket, manifest_path, manifest_folder, _) :=
    manifest_location (manifest j) in
  manifest_folder ≠ ""
  ∧ ∃ data, s3_objects manifest_bucket manifest_path = Some data
            ∧ Forall (λ datum, label_name j ∈ keys datum) data.

End view.

(** The two jobs of the configuration cell. *)
Definition batch_job (my_groundtruth_output my_groundtruth_job_name
    my_groundtruth_labels : string) : job :=
  {| label_name := my_groundtruth_labels;
     manifest := my_groundtruth_output +:+ "/" +:+ my_groundtruth_job_name
       +:+ "/manifests/output/output.manifest" |}.

Definition augmentation_job (BUCKET_NAME : string) : job :=
  {| label_name := "labels";
     manifest := "s3://" +:+ BUCKET_NAME
       +:+ "/data/augmentation/manifests/output/output.updated.manifest" |}.

End ManifestView.

(** ** Sample data: the two classes of the notebook *)

Module Samples.
Import Resolver Hierarchy Collector.

(** The sample names are all ASCII, where the case mapping of other text
    plays no part; it is left as it is. *)
#[export] Instance sample_unicode_lower : UnicodeLower := λ s, s.

Definition table : list DescriptionRow :=
  [ {| label_id := "/m/01x3z"; display_name := "Boot" |};
    {| label_id := "/m/0jbk"; display_name := "Cat" |} ].

Definition hierarchy : tree :=
  Node "/m/0" (Some [Node "/m/01x3z" None; Node "/m/0jbk" None]).

Definition sets : list (string * gset string) :=
  [("Boot", {[ "/m/01x3z" ]}); ("Cat", {[ "/m/0jbk" ]})].

Definition mk (img cls x : string) : AnnotationRow :=
  {| img_id := img; source := "xclick"; cls_id := cls; conf := "1";
     xmin := x; xmax := x; ymin := x; ymax := x |}.

Definition rows : list AnnotationRow :=
  [mk "img1" "/m/01x3z" "0.1"; mk "img1" "/m/0jbk" "0.2";
   mk "img2" "/m/01x3z" "0.3"].

(** An image with two boots, then another image with one. *)
Definition boots : list AnnotationRow :=
  [mk "img1" "/m/01x3z" "0.1"; mk "img1" "/m/01x3z" "0.2";
   mk "img2" "/m/01x3z" "0.3"].

Definition boot_box (x : string) : Box := ["Boot"; x; x; x; x].
Definition cat_box (x : string) : Box := ["Cat"; x; x; x; x].

(** The rows as the file holds them, with the columns the cell does not
    read. *)
Definition fields (r : AnnotationRow) : list string :=
  [img_id r; source r; cls_id r; conf r; xmin r; xmax r; ymin r; ymax r;
   "0"; "0"; "0"; "0"; "0"].

(** Two classes that share a label: every boot is footwear. *)
Definition shoes : list (string * gset string) :=
  [("Boot", {[ "/m/01x3z" ]}); ("Footwear", {[ "/m/01x3z"; "/m/09j5n" ]})].

(** The loop over [boots] for these two classes and a quota of two, with
    the copy of the set iterated now in one order, now in the other. *)
Definition shoes_run : state :=
  let visit := visit shoes 2 0 in
  let st1 := foldl (visit (mk "img1" "/m/01x3z" "0.1")) (init_state shoes)
               ["Footwear"; "Boot"] in
  let st2 := foldl (visit (mk "img1" "/m/01x3z" "0.2")) st1
               ["Boot"; "Footwear"] in
  foldl (visit (mk "img2" "/m/01x3z" "0.3")) st2 ["Footwear"; "Boot"].

(** A hierarchy with depth: swans and ducks are birds, cats are not. *)
Definition birds : tree :=
  Node "entity"
    (Some [Node "bird"
             (Some [Node "swan" None;
                    Node "duck" (Some [Node "mallard" None])]);
           Node "cat" None]).

End Samples.

(** ** Sample manifests *)

Module ManifestSamples.
Import Manifest.

(** Other JSON values are numbers here. *)
Definition line (ref : string) (label : string) (n : nat)
  : list (string * value nat) :=
  [("source-ref", Str ref); (label, Other n)].

(** An output manifest of another account. *)
Definition foreign : list (list (string * value nat)) :=
  [line "s3://other/data/images/a.jpg" "labels" 1;
   line "s3://other/data/images/b.jpg" "labels" 2].

(** A manifest whose second line has no reference. *)
Definition broken : list (list (string * value nat)) :=
  [line "s3://other/data/images/a.jpg" "labels" 1;
   [("labels", Other 2)];
   line "s3://other/data/images/c.jpg" "labels" 3].

(** A bucket holding the output of a labelling job and the imported
    augmentation manifest. *)
Definition store (b key : string)
  : option (list (list (string * value nat))) :=
  if decide (b = "bkt") then
    if decide (key = "data/my-annotations/job/manifests/output/output.manifest")
    then Some [line "s3://bkt/data/my-annotations/images/x.jpg" "job" 7]
    else if decide
      (key = "data/augmentation/manifests/output/output.updated.manifest")
    then Some (written (import_manifest_file "bkt" "data/augmentation" foreign))
    else None
  else None.

Definition jobs : list (string * job) :=
  annotation_jobs "my-annotations" "bkt" "s3://bkt/data/my-annotations"
    "job" "job".

(** The import of [foreign] into the bucket. *)
Definition imported : import_result nat :=
  import_manifest_file "bkt" "data/augmentation" foreign.

(** A line of the labelling job's output. *)
Definition labelled : list (string * value nat) :=
  line "s3://bkt/data/my-annotations/images/x.jpg" "job" 7.

(** The combined manifest of [jobs]. *)
Definition combined : list (list (string * value nat)) :=
  [[("source-ref", Str "s3://bkt/data/my-annotations/images/x.jpg");
    ("labels", Other 7)];
   [("source-ref", Str "s3://bkt/data/augmentation/images/a.jpg");
    ("labels", Other 1)];
   [("source-ref", Str "s3://bkt/data/augmentation/images/b.jpg");
    ("labels", Other 2)]].

End ManifestSamples.

(** * Properties *)

(** ** Dictionaries *)

Module PyDictFacts.
Section facts.
Context {K V : Type} `{EqDecision K}.
Implicit Types (k : K) (v : V) (d : list (K * V)).

Lemma dget_None k d : dget k d = None ↔ k ∉ keys d.
Proof.
  unfold keys. induction d as [|[k' v'] d IH]; csimpl.
  - split; [intros _ []%elem_of_nil | done].
  - rewrite not_elem_of_cons. case_decide; [naive_solver|]. rewrite IH. tauto.
Qed.

Lemma dget_Some_elem k v d : dget k d = Some v → (k, v) ∈ d.
Proof.
  induction d as [|[k' v'] d IH]; csimpl; [done|].
  case_decide; intros ?; simplify_eq; [apply list_elem_of_here | apply list_elem_of_further; auto].
Qed.

Lemma dget_Some_NoDup k v d :
  NoDup (keys d) → (k, v) ∈ d → dget k d = Some v.
Proof.
  unfold keys. induction d as [|[k' v'] d IH]; csimpl.
  - by intros _ ?%elem_of_nil.
  - rewrite NoDup_cons. intros [Hk' Hnd] [?|Hin]%elem_of_cons.
    + simplify_eq. by rewrite decide_True.
    + rewrite decide_False; [by apply IH|]. intros ->. apply Hk'.
      by apply (list_elem_of_fmap_2 fst) in Hin.
Qed.

Lemma dget_is_Some k d : k ∈ keys d → is_Some (dget k d).
Proof.
  intros Hin. destruct (dget k d) eqn:E; [eauto|].
  by apply dget_None in E.
Qed.

Lemma dset_fresh k v d : k ∉ keys d → dset k v d = d ++ [(k, v)].
Proof.
  unfold keys. induction d as [|[k' v'] d IH]; csimpl; [done|].
  rewrite not_elem_of_cons. intros [? ?]. rewrite decide_False by done.
  by rewrite IH.
Qed.

Lemma keys_dset k v d : keys (dset k v d) = add_new (keys d) k.
Proof.
  unfold keys, add_new. induction d as [|[k' v'] d IH]; csimpl; [done|].
  destruct (decide (k = k')) as [->|Hk].
  - rewrite decide_True by apply list_elem_of_here. done.
  - csimpl. rewrite IH. destruct (decide (k ∈ d.*1)) as [Hin|Hin].
    + rewrite decide_True by (by apply list_elem_of_further). done.
    + rewrite decide_False; [done|]. rewrite not_elem_of_cons. done.
Qed.

Lemma keys_dset_present k v d : k ∈ keys d → keys (dset k v d) = keys d.
Proof. intros ?. rewrite keys_dset. unfold add_new. by rewrite decide_True. Qed.

Lemma dget_dset k k' v d :
  dget k' (dset k v d) = if decide (k' = k) then Some v else dget k' d.
Proof.
  induction d as [|[k0 v0] d IH]; csimpl.
  - case_decide; done.
  - destruct (decide (k = k0)) as [->|Hne]; csimpl.
    + case_decide; done.
    + rewrite IH. destruct (decide (k' = k0)) as [->|?]; [|done].
      rewrite decide_False by done. done.
Qed.

Lemma keys_dd_update (f : V → V) dflt k d :
  keys (dd_update f dflt k d) = add_new (keys d) k.
Proof.
  unfold keys, add_new. induction d as [|[k' v'] d IH]; csimpl; [done|].
  destruct (decide (k = k')) as [->|Hk].
  - rewrite decide_True by apply list_elem_of_here. done.
  - csimpl. rewrite IH. destruct (decide (k ∈ d.*1)) as [Hin|Hin].
    + rewrite decide_True by (by apply list_elem_of_further). done.
    + rewrite decide_False; [done|]. rewrite not_elem_of_cons. done.
Qed.

Lemma dget_dd_update (f : V → V) dflt k k' d :
  dget k' (dd_update f dflt k d)
  = if decide (k' = k) then Some (f (dict_at dflt k d)) else dget k' d.
Proof.
  unfold dict_at. induction d as [|[k0 v0] d IH]; csimpl.
  - case_decide; done.
  - destruct (decide (k = k0)) as [->|Hne]; csimpl.
    + case_decide; done.
    + rewrite IH. destruct (decide (k' = k0)) as [->|?]; [|done].
      rewrite decide_False by done. done.
Qed.

Lemma dict_at_cons dflt k k' v d :
  dict_at dflt k ((k', v) :: d)
  = if decide (k = k') then v else dict_at dflt k d.
Proof. unfold dict_at. csimpl. by case_decide. Qed.

Lemma dict_at_dd_update (f : V → V) dflt k k' d :
  dict_at dflt k' (dd_update f dflt k d)
  = if decide (k' = k) then f (dict_at dflt k d) else dict_at dflt k' d.
Proof.
  unfold dict_at at 1. rewrite dget_dd_update. by case_decide.
Qed.

Lemma add_new_prefix (acc : list K) k : acc `prefix_of` add_new acc k.
Proof.
  unfold add_new. case_decide; [done|]. by apply prefix_app_r.
Qed.

Lemma first_seen_from_prefix (l acc : list K) :
  acc `prefix_of` first_seen_from acc l.
Proof.
  unfold first_seen_from. revert acc.
  induction l as [|x l IH]; intros acc; csimpl; [done|].
  etrans; [apply add_new_prefix | apply IH].
Qed.

Lemma elem_of_add_new (acc : list K) k x :
  x ∈ add_new acc k ↔ x ∈ acc ∨ x = k.
Proof.
  unfold add_new. case_decide.
  - naive_solver.
  - rewrite elem_of_app, list_elem_of_singleton. done.
Qed.

Lemma NoDup_add_new (acc : list K) k : NoDup acc → NoDup (add_new acc k).
Proof.
  intros Hnd. unfold add_new. case_decide; [done|].
  apply NoDup_app. split_and!; [done| |apply NoDup_singleton].
  intros x Hx ->%list_elem_of_singleton. done.
Qed.

Lemma elem_of_first_seen_from (l acc : list K) x :
  x ∈ first_seen_from acc l ↔ x ∈ acc ∨ x ∈ l.
Proof.
  unfold first_seen_from. revert acc.
  induction l as [|y l IH]; intros acc; csimpl.
  - rewrite elem_of_nil. tauto.
  - rewrite IH, elem_of_add_new, elem_of_cons. tauto.
Qed.

Lemma NoDup_first_seen_from (l acc : list K) :
  NoDup acc → NoDup (first_seen_from acc l).
Proof.
  unfold first_seen_from. revert acc.
  induction l as [|y l IH]; intros acc Hnd; csimpl; [done|].
  by apply IH, NoDup_add_new.
Qed.

Lemma elem_of_first_seen (l : list K) x : x ∈ first_seen l ↔ x ∈ l.
Proof.
  unfold first_seen. rewrite elem_of_first_seen_from, elem_of_nil. tauto.
Qed.

Lemma NoDup_first_seen (l : list K) : NoDup (first_seen l).
Proof. apply NoDup_first_seen_from, NoDup_nil_2. Qed.

Lemma first_seen_from_cons (l acc : list K) k :
  first_seen_from acc (k :: l) = first_seen_from (add_new acc k) l.
Proof. done. Qed.

(** Once [n] keys are there, later insertions leave the first [n] alone. *)
Lemma take_first_seen_from (l acc : list K) n :
  n ≤ length acc → take n (first_seen_from acc l) = take n acc.
Proof.
  intros Hn. destruct (first_seen_from_prefix l acc) as [k ->].
  by rewrite take_app_le.
Qed.

Lemma dget_app k d1 d2 :
  dget k (d1 ++ d2) = match dget k d1 with Some v => Some v | None => dget k d2 end.
Proof.
  induction d1 as [|[k' v'] d1 IH]; csimpl; [done|]. by case_decide.
Qed.

Lemma dset_app_r k v d1 d2 :
  k ∉ keys d1 → dset k v (d1 ++ d2) = d1 ++ dset k v d2.
Proof.
  unfold keys. induction d1 as [|[k' v'] d1 IH]; csimpl; [done|].
  rewrite not_elem_of_cons. intros [? ?]. rewrite decide_False by done.
  by rewrite IH.
Qed.

Lemma NoDup_keys_dd_update (f : V → V) dflt k d :
  NoDup (keys d) → NoDup (keys (dd_update f dflt k d)).
Proof. rewrite keys_dd_update. apply NoDup_add_new. Qed.

Lemma length_dd_update (f : V → V) dflt k d :
  length (dd_update f dflt k d)
  = if decide (k ∈ keys d) then length d else S (length d).
Proof.
  rewrite <-(length_fmap fst (dd_update _ _ _ _)).
  change (fst <$> dd_update f dflt k d) with (keys (dd_update f dflt k d)).
  rewrite keys_dd_update. unfold add_new, keys. case_decide.
  - by rewrite length_fmap.
  - rewrite length_app, length_fmap. csimpl. lia.
Qed.

(** Dictionaries built by mapping over a duplicate-free list of items. *)
Section mapped.
Context {A : Type} `{EqDecision A} (kf : A → K) (vf : A → V).

Lemma dget_mapped_Some k v (xs : list A) :
  dget k ((λ s, (kf s, vf s)) <$> xs) = Some v →
  ∃ s, s ∈ xs ∧ kf s = k ∧ vf s = v.
Proof.
  induction xs as [|x xs IH]; csimpl; [done|].
  case_decide.
  - intros [= <-]. exists x. split; [apply list_elem_of_here | done].
  - intros (s & ? & ? & ?)%IH. exists s. split; [by apply list_elem_of_further | done].
Qed.

Lemma dget_mapped_None k (xs : list A) :
  dget k ((λ s, (kf s, vf s)) <$> xs) = None → ∀ s, s ∈ xs → kf s ≠ k.
Proof.
  rewrite dget_None. unfold keys. rewrite <-list_fmap_compose.
  intros Hk s Hs <-. apply Hk. apply (list_elem_of_fmap_2 (kf : A → K)), Hs.
Qed.

Lemma ddel_mapped s0 (xs : list A) :
  NoDup (kf <$> xs) → s0 ∈ xs →
  ddel (kf s0) ((λ s, (kf s, vf s)) <$> xs)
  = (λ s, (kf s, vf s)) <$> filter (λ s, s ≠ s0) xs.
Proof.
  induction xs as [|x xs IH]; csimpl; [by intros _ ?%elem_of_nil|].
  rewrite NoDup_cons. intros [Hx Hnd] Hin. rewrite filter_cons.
  destruct (decide (kf s0 = kf x)) as [Heq|Hne].
  - assert (x = s0) as ->.
    { apply elem_of_cons in Hin as [->|Hin]; [done|].
      exfalso. apply Hx. rewrite <-Heq. by apply list_elem_of_fmap_2. }
    rewrite decide_False by (by intros []).
    f_equal. symmetry. clear IH Hin Heq.
    induction xs as [|y ys IHy]; [done|].
    rewrite fmap_cons, not_elem_of_cons in Hx. destruct Hx as [Hy Hx].
    apply NoDup_cons in Hnd as [_ Hnd].
    rewrite filter_cons, decide_True by congruence.
    f_equal. by apply IHy.
  - assert (x ≠ s0) by congruence.
    apply elem_of_cons in Hin as [->|Hin]; [done|].
    rewrite decide_True by done. csimpl. f_equal. by apply IH.
Qed.
End mapped.

Lemma dset_mapped {A : Type} `{EqDecision A} (kf : A → K) (g : A → V)
    (s0 : A) v (xs : list A) :
  NoDup (kf <$> xs) → s0 ∈ xs →
  dset (kf s0) v ((λ s, (kf s, g s)) <$> xs)
  = (λ s, (kf s, if decide (s = s0) then v else g s)) <$> xs.
Proof.
  induction xs as [|x xs IH]; csimpl; [by intros _ ?%elem_of_nil|].
  rewrite NoDup_cons. intros [Hx Hnd] Hin.
  destruct (decide (kf s0 = kf x)) as [Heq|Hne].
  - assert (x = s0) as ->.
    { apply elem_of_cons in Hin as [->|Hin]; [done|].
      exfalso. apply Hx. rewrite <-Heq. by apply list_elem_of_fmap_2. }
    rewrite decide_True by done. f_equal.
    apply Forall_fmap_ext_1, Forall_forall. intros y Hy.
    rewrite decide_False; [done|]. intros ->. apply Hx.
    by apply list_elem_of_fmap_2.
  - assert (x ≠ s0) by congruence.
    apply elem_of_cons in Hin as [->|Hin]; [done|].
    rewrite decide_False by done. f_equal. by apply IH.
Qed.

Lemma foldl_dset_fresh {A : Type} (kf : A → K) (vf : A → V)
    (xs : list A) d :
  NoDup (kf <$> xs) → (∀ s, s ∈ xs → kf s ∉ keys d) →
  foldl (λ d s, dset (kf s) (vf s) d) d xs
  = d ++ ((λ s, (kf s, vf s)) <$> xs).
Proof.
  revert d. induction xs as [|x xs IH]; intros d; csimpl.
  - by rewrite app_nil_r.
  - rewrite NoDup_cons. intros [Hx Hnd] Hfresh.
    rewrite dset_fresh by (apply Hfresh; apply list_elem_of_here).
    rewrite IH; [by rewrite <-app_assoc|done|].
    intros s Hs. unfold keys. rewrite fmap_app, elem_of_app. csimpl.
    intros [Hk|Hk%list_elem_of_singleton].
    + by apply (Hfresh s); [apply list_elem_of_further|].
    + apply Hx. rewrite <-Hk. by apply list_elem_of_fmap_2.
Qed.
End facts.

Lemma filter_ext_in {A} (P Q : A → Prop) `{!∀ x, Decision (P x)}
    `{!∀ x, Decision (Q x)} (l : list A) :
  (∀ x, x ∈ l → P x ↔ Q x) → filter P l = filter Q l.
Proof.
  induction l as [|x l IH]; intros Hext; [done|].
  rewrite !filter_cons. rewrite IH by (intros; apply Hext; by apply list_elem_of_further).
  apply decide_ext, Hext. apply list_elem_of_here.
Qed.
Lemma elem_of_concat {A} (x : A) (ls : list (list A)) :
  x ∈ concat ls ↔ ∃ l, l ∈ ls ∧ x ∈ l.
Proof.
  induction ls as [|l ls IH]; csimpl.
  - rewrite elem_of_nil. split; [done|]. by intros (? & ?%elem_of_nil & _).
  - rewrite elem_of_app, IH. setoid_rewrite elem_of_cons. naive_solver.
Qed.

End PyDictFacts.
Import PyDictFacts.

(** ** The resolver *)

Module ResolverFacts.
Import Resolver ResolverView.

Section facts.
Context `{UnicodeLower}.

Lemma first_match_cons name row rows :
  first_match name (row :: rows)
  = if decide (matches name row) then Some (label_id row)
    else first_match name rows.
Proof. unfold first_match. rewrite filter_cons. by case_decide. Qed.

Lemma ids_of_ext f g names :
  (∀ s, s ∈ names → f s = g s) → ids_of f names = ids_of g names.
Proof.
  intros Hext. apply Forall_fmap_ext_1, Forall_forall.
  intros s Hs. by rewrite Hext.
Qed.

Lemma notfound_of_ext f g names :
  (∀ s, s ∈ names → f s = g s) → notfound_of f names = notfound_of g names.
Proof.
  intros Hext. unfold notfound_of. f_equal.
  apply filter_ext_in. intros s Hs. by rewrite Hext.
Qed.

Lemma notfound_of_nil f names :
  notfound_of f names = [] → ∀ s, s ∈ names → f s ≠ None.
Proof.
  unfold notfound_of. intros Hnil%fmap_nil_inv s Hs Hf.
  by eapply (filter_nil_not_elem_of (λ s, f s = None)).
Qed.

Lemma NoDup_lower_inj names a b :
  NoDup (lower <$> names) → a ∈ names → b ∈ names → lower a = lower b → a = b.
Proof.
  induction names as [|x xs IH]; csimpl; [by intros _ ?%elem_of_nil|].
  rewrite NoDup_cons, !elem_of_cons. intros [Hx Hnd] [->|Ha] [->|Hb] Heq.
  - done.
  - exfalso. apply Hx. rewrite Heq. by apply list_elem_of_fmap_2.
  - exfalso. apply Hx. rewrite <-Heq. by apply list_elem_of_fmap_2.
  - by apply IH.
Qed.

(** One matching row: the entry of the matched name is filled in and its
    lower-cased key leaves [classes_lower_notfound]. *)
Lemma found_step f names s0 i :
  NoDup (lower <$> names) → s0 ∈ names → f s0 = None →
  let f1 := λ s, if decide (s = s0) then Some i else f s in
  dset s0 (Some i) (ids_of f names) = ids_of f1 names
  ∧ ddel (lower s0) (notfound_of f names) = notfound_of f1 names.
Proof.
  intros Hnd Hin Hf f1. split.
  - unfold ids_of. apply (dset_mapped id f); [|done].
    rewrite list_fmap_id. by eapply NoDup_fmap_1.
  - unfold notfound_of. rewrite (ddel_mapped lower id).
    + f_equal. rewrite list_filter_filter. apply list_filter_iff.
      intros s. unfold f1. case_decide; naive_solver.
    + apply (NoDup_fmap_2_strong lower);
        [|apply NoDup_filter; by eapply NoDup_fmap_1].
      intros a b [_ Ha]%list_elem_of_filter [_ Hb]%list_elem_of_filter.
      by apply (NoDup_lower_inj names).
    + by apply list_elem_of_filter.
Qed.

Lemma complete_found f names s0 row rest :
  NoDup (lower <$> names) → s0 ∈ names → f s0 = None → matches s0 row →
  ∀ s, s ∈ names →
    complete (λ s, if decide (s = s0) then Some (label_id row) else f s) rest s
    = complete f (row :: rest) s.
Proof.
  intros Hnd Hin Hf Hm s Hs. unfold complete. rewrite first_match_cons.
  destruct (decide (s = s0)) as [->|Hne].
  - rewrite Hf. by rewrite decide_True.
  - destruct (f s) eqn:Hfs; [done|].
    rewrite decide_False; [done|]. unfold matches in *.
    intros Hm'. apply Hne. apply (NoDup_lower_inj names); congruence.
Qed.

Lemma complete_missed f (names : list string) row rest :
  (∀ s, s ∈ names → f s = None → ¬ matches s row) →
  ∀ s, s ∈ names → complete f rest s = complete f (row :: rest) s.
Proof.
  intros Hmiss s Hs. unfold complete. rewrite first_match_cons.
  destruct (f s) eqn:Hfs; [done|]. rewrite decide_False; [done|]. eauto.
Qed.

Lemma complete_done f rows s : f s ≠ None → complete f rows s = f s.
Proof. unfold complete. by destruct (f s). Qed.

(** The scanning loop, started from any reachable state, ends in the state
    that a scan without the [break] would describe. *)
Lemma scan_spec rows f names :
  NoDup (lower <$> names) →
  scan rows (ids_of f names) (notfound_of f names)
  = (ids_of (complete f rows) names, notfound_of (complete f rows) names).
Proof.
  intros Hnd. revert f. induction rows as [|row rest IH]; intros f; csimpl.
  - f_equal; [apply ids_of_ext | apply notfound_of_ext];
      intros s _; unfold complete, first_match; csimpl; by destruct (f s).
  - destruct (dget _ (notfound_of f names)) as [s0|] eqn:Hget.
    + apply (dget_mapped_Some lower id) in Hget
        as (s & [Hf Hin]%list_elem_of_filter & Hlow & <-).
      unfold id. rewrite <-Hlow.
      destruct (found_step f names s (label_id row) Hnd Hin Hf) as [-> ->].
      assert (matches s row) as Hm by done.
      pose proof (complete_found f names s row rest Hnd Hin Hf Hm) as Hext.
      case_decide as Hlen.
      * apply nil_length_inv in Hlen.
        pose proof (notfound_of_nil _ _ Hlen) as Hall.
        f_equal; [apply ids_of_ext | apply notfound_of_ext];
          intros x Hx; rewrite <-Hext by done;
          by rewrite complete_done by auto.
      * rewrite IH.
        f_equal; [apply ids_of_ext | apply notfound_of_ext]; done.
    + pose proof (dget_mapped_None lower id _ _ Hget) as Hmiss.
      rewrite IH.
      assert (∀ s, s ∈ names → f s = None → ¬ matches s row) as Hno.
      { intros s Hs Hf Hm. by apply (Hmiss s); [apply list_elem_of_filter|]. }
      f_equal; [apply ids_of_ext | apply notfound_of_ext];
        by apply complete_missed.
Qed.

Lemma init_class_root_ids_spec names :
  NoDup names → init_class_root_ids names = ids_of (λ _, None) names.
Proof.
  intros Hnd. unfold init_class_root_ids.
  rewrite (foldl_dset_fresh id (λ _, None)); [done| |].
  - by rewrite list_fmap_id.
  - intros s _. apply not_elem_of_nil.
Qed.

Lemma init_classes_lower_notfound_spec names :
  NoDup (lower <$> names) →
  init_classes_lower_notfound names = notfound_of (λ _, None) names.
Proof.
  intros Hnd. unfold init_classes_lower_notfound, notfound_of.
  rewrite (foldl_dset_fresh lower id); [|done|].
  - csimpl. do 2 f_equal. induction names as [|x xs IHxs]; [done|].
    rewrite filter_cons, decide_True by done. f_equal. apply IHxs.
    by apply NoDup_cons in Hnd as [_ ?].
  - intros s _. apply not_elem_of_nil.
Qed.

(** The cell as a whole, for names that stay distinct when lower-cased. *)
Lemma resolve_spec names table :
  NoDup (lower <$> names) →
  resolve names table
  = if decide (unmatched table names = [])
    then inr ((λ s, (s, first_match s table)) <$> names)
    else inl (ValueError (unmatched table names)).
Proof.
  intros Hnd. unfold resolve.
  rewrite init_class_root_ids_spec by (by eapply NoDup_fmap_1).
  rewrite init_classes_lower_notfound_spec by done.
  rewrite scan_spec by done.
  assert (notfound_of (complete (λ _, None) table) names
          = (λ s, (lower s, s)) <$> unmatched table names) as ->.
  { done. }
  rewrite <-list_fmap_compose, length_fmap.
  destruct (unmatched table names) as [|u us] eqn:Hun.
  - rewrite decide_True by done. rewrite decide_True by done. done.
  - rewrite decide_False by done. rewrite decide_False by done.
    do 2 f_equal. change (snd ∘ (λ s : string, (lower s, s))) with (@id string).
    by rewrite list_fmap_id.
Qed.

Lemma dget_ids_of f (names : list string) n :
  n ∈ names → dget n (ids_of f names) = Some (f n).
Proof.
  unfold ids_of. induction names as [|x xs IH]; csimpl.
  - by intros ?%elem_of_nil.
  - intros Hin. destruct (decide (n = x)) as [->|Hne]; [done|].
    apply elem_of_cons in Hin as [?|?]; [done|]. by apply IH.
Qed.

Lemma first_match_Some name table i :
  first_match name table = Some i →
  ∃ row, first_matching_row name table row ∧ label_id row = i.
Proof.
  induction table as [|r rest IH]; [done|].
  rewrite first_match_cons. case_decide as Hm.
  - intros [= <-]. exists r. split; [|done].
    exists [], rest. split_and!; [done|done|]. by intros ? ?%elem_of_nil.
  - intros (row & (pre & post & -> & Hrow & Hpre) & <-)%IH.
    exists row. split; [|done]. exists (r :: pre), post.
    split_and!; [done|done|].
    intros r' [->|?]%elem_of_cons; auto.
Qed.

Lemma first_match_None name table :
  first_match name table = None ↔ ∀ row, row ∈ table → ¬ matches name row.
Proof.
  induction table as [|r rest IH].
  - split; [by intros _ ? ?%elem_of_nil | done].
  - rewrite first_match_cons. case_decide as Hm.
    + split; [done|]. intros Hall. destruct (Hall r); [apply list_elem_of_here | done].
    + rewrite IH. split.
      * intros Hall row [->|?]%elem_of_cons; auto.
      * intros Hall row ?. apply Hall. by apply list_elem_of_further.
Qed.

Lemma first_match_is_Some name table :
  has_match table name → is_Some (first_match name table).
Proof.
  intros (row & Hin & Hm). destruct (first_match name table) eqn:E; [eauto|].
  rewrite first_match_None in E. by destruct (E row).
Qed.

Lemma first_match_lower name name' table :
  lower name' = lower name → first_match name' table = first_match name table.
Proof.
  intros Hl. induction table as [|r rest IH]; [done|].
  rewrite !first_match_cons, IH. apply decide_ext. unfold matches. by rewrite Hl.
Qed.

Lemma unmatched_nil table (names : list string) :
  (∀ n, n ∈ names → has_match table n) → unmatched table names = [].
Proof.
  intros Hall. unfold unmatched. induction names as [|x xs IH]; [done|].
  rewrite filter_cons. destruct (first_match_is_Some x table) as [i Hi].
  { apply Hall, list_elem_of_here. }
  rewrite decide_False by congruence. apply IH.
  intros n ?. by apply Hall, list_elem_of_further.
Qed.

Lemma elem_of_unmatched table names n :
  n ∈ unmatched table names
  ↔ n ∈ names ∧ ∀ row, row ∈ table → ¬ matches n row.
Proof.
  unfold unmatched. rewrite list_elem_of_filter, first_match_None. tauto.
Qed.

(** The lookup keeps the requested names as the keys of its result, so the
    id sets are keyed by [CLASS_NAMES], as the collection assumes when it
    starts from [set(CLASS_NAMES)]. *)
Lemma keys_init_class_root_ids names :
  keys (init_class_root_ids names) = first_seen names.
Proof.
  assert (∀ d : list (string * option string),
            keys (foldl (λ d s, dset s None d) d names)
            = first_seen_from (keys d) names) as Hgen.
  { induction names as [|n names IH]; intros d; [done|].
    rewrite first_seen_from_cons. csimpl. by rewrite IH, keys_dset. }
  apply (Hgen []).
Qed.

Lemma values_init_classes_lower_notfound names :
  Forall (λ e, e.2 ∈ names) (init_classes_lower_notfound names).
Proof.
  unfold init_classes_lower_notfound.
  assert (∀ (seen : list string) d,
            Forall (λ e : string * string, e.2 ∈ seen ++ names) d →
            Forall (λ e, e.2 ∈ seen ++ names)
              (foldl (λ d s, dset (lower s) s d) d names)) as Hgen.
  { induction names as [|n names IH]; intros seen d Hd; csimpl; [done|].
    rewrite (cons_middle n seen names), app_assoc. apply IH.
    rewrite <-app_assoc. csimpl.
    assert (n ∈ seen ++ n :: names) as Hn
      by (apply elem_of_app; right; apply list_elem_of_here).
    clear IH. induction d as [|[k v] d IHd]; csimpl.
    - by repeat constructor.
    - apply Forall_cons in Hd as [Hv Hd]. case_decide; constructor; auto. }
  apply (Hgen [] []). constructor.
Qed.

Lemma Forall_ddel {V} (P : string * V → Prop) k (d : list (string * V)) :
  Forall P d → Forall P (ddel k d).
Proof.
  induction d as [|[k' v'] d IH]; csimpl; [done|].
  intros [Hv Hd]%Forall_cons. case_decide; [done|]. constructor; auto.
Qed.

Lemma keys_scan rows : ∀ ids nf,
  Forall (λ e, e.2 ∈ keys ids) nf → keys (scan rows ids nf).1 = keys ids.
Proof.
  induction rows as [|row rows IH]; intros ids nf Hnf; csimpl; [done|].
  destruct (dget _ nf) as [m|] eqn:Hget; [|by apply IH].
  assert (m ∈ keys ids) as Hm.
  { apply dget_Some_elem in Hget. rewrite Forall_forall in Hnf.
    by apply (Hnf _ Hget). }
  case_decide.
  - csimpl. by apply keys_dset_present.
  - rewrite IH; [by apply keys_dset_present|].
    rewrite keys_dset_present by done. by apply Forall_ddel.
Qed.

Lemma resolve_keys names table ids :
  resolve names table = inr ids → keys ids = first_seen names.
Proof.
  unfold resolve.
  pose proof (keys_scan table (init_class_root_ids names)
                (init_classes_lower_notfound names)) as Hk.
  destruct (scan table _ _) as [ids' nf]. csimpl in Hk.
  case_decide; [|done]. intros [= <-].
  rewrite Hk; [apply keys_init_class_root_ids|].
  rewrite keys_init_class_root_ids.
  eapply Forall_impl; [apply values_init_classes_lower_notfound|].
  intros e He. by apply elem_of_first_seen.
Qed.

Lemma keys_class_id_sets ids hierarchy :
  keys (Hierarchy.class_id_sets ids hierarchy) = keys ids.
Proof.
  unfold keys, Hierarchy.class_id_sets. rewrite <-list_fmap_compose.
  apply Forall_fmap_ext_1, Forall_forall. by intros [name root] _.
Qed.

Lemma class_id_sets_keyed_by_names names table hierarchy ids :
  resolve names table = inr ids →
  list_to_set (keys (Hierarchy.class_id_sets ids hierarchy))
  = (list_to_set names : gset string).
Proof.
  intros Hres. rewrite keys_class_id_sets, (resolve_keys _ _ _ Hres).
  apply set_eq. intros n. by rewrite !elem_of_list_to_set, elem_of_first_seen.
Qed.

(** X26.  When no two requested names have the same [str.lower()] and
    every name has a row of the description table whose display name has
    the same [str.lower()] as it, the resolver succeeds and returns exactly
    one entry per requested name: the [label_id] of the first such row, in
    table order.  The id depends on the lower-cased name only: requesting
    case variants of the names instead ("cat", "Cat", "CAT") yields the
    same ids, position by position. *)
Theorem resolve_first_match (names : list string) table :
  NoDup (lower <$> names) →
  (∀ n, n ∈ names → has_match table n) →
  ∃ ids,
    resolve names table = inr ids
    ∧ keys ids = names
    ∧ (∀ n, n ∈ names →
         ∃ row, first_matching_row n table row
                ∧ dget n ids = Some (Some (label_id row)))
    ∧ (∀ names', lower <$> names' = lower <$> names →
         ∃ ids', resolve names' table = inr ids' ∧ ids'.*2 = ids.*2).
Proof.
  intros Hnd Hall. exists (ids_of (λ s, first_match s table) names).
  split_and!.
  - rewrite resolve_spec by done.
    rewrite decide_True by (by apply unmatched_nil). done.
  - unfold keys, ids_of. rewrite <-list_fmap_compose. apply list_fmap_id.
  - intros n Hn. destruct (first_match_is_Some n table (Hall n Hn)) as [i Hi].
    destruct (first_match_Some _ _ _ Hi) as (row & Hrow & <-).
    exists row. split; [done|].
    rewrite (dget_ids_of (λ s, first_match s table)) by done. by rewrite Hi.
  - intros names' Hlow.
    exists (ids_of (λ s, first_match s table) names'). split.
    + rewrite resolve_spec by (by rewrite Hlow).
      rewrite decide_True; [done|]. apply unmatched_nil.
      intros n' Hn'. apply (list_elem_of_fmap_2 lower) in Hn'.
      rewrite Hlow in Hn'. apply list_elem_of_fmap in Hn' as (n & Heq & Hn).
      destruct (Hall n Hn) as (row & ? & Hm). exists row. split; [done|].
      unfold matches in *. congruence.
    + unfold ids_of. rewrite <-!list_fmap_compose.
      apply list_eq. intros i. rewrite !list_lookup_fmap.
      assert (lower <$> names' !! i = lower <$> names !! i) as Hi.
      { by rewrite <-!list_lookup_fmap, Hlow. }
      destruct (names' !! i) as [a|], (names !! i) as [b|]; simplify_eq/=;
        [|done]. f_equal. by apply first_match_lower.
Qed.

(** X27.  When no two requested names have the same [str.lower()]: if
    the table is exhausted with some requested name unmatched, the
    resolver fails with the error that lists precisely the unmatched names,
    each once; if every name is matched it does not fail. *)
Theorem resolve_error_lists_unmatched (names : list string) table :
  NoDup (lower <$> names) →
  ((∃ n, n ∈ names ∧ ∀ row, row ∈ table → ¬ matches n row) →
     ∃ errs, resolve names table = inl (ValueError errs)
             ∧ NoDup errs
             ∧ ∀ n, n ∈ errs
                    ↔ n ∈ names ∧ ∀ row, row ∈ table → ¬ matches n row)
  ∧ ((∀ n, n ∈ names → has_match table n) →
     ∃ ids, resolve names table = inr ids).
Proof.
  intros Hnd. rewrite resolve_spec by done. split.
  - intros (n & Hn & Hno). exists (unmatched table names).
    rewrite decide_False.
    + split_and!; [done| |apply elem_of_unmatched].
      apply NoDup_filter. by eapply NoDup_fmap_1.
    + intros Hnil. assert (n ∈ unmatched table names) as Hin
        by (by apply elem_of_unmatched).
      rewrite Hnil in Hin. by apply elem_of_nil in Hin.
  - intros Hall. rewrite decide_True by (by apply unmatched_nil). eauto.
Qed.

End facts.

Section samples.
Import Samples.

Local Ltac in_list :=
  repeat (apply list_elem_of_here || apply list_elem_of_further).

Lemma sample_names_match :
  ∀ n, n ∈ ["Boot"; "Cat"] → has_match table n.
Proof.
  intros n Hn. apply elem_of_cons in Hn as [->|Hn].
  { exists {| label_id := "/m/01x3z"; display_name := "Boot" |}.
    split; [in_list | reflexivity]. }
  apply list_elem_of_singleton in Hn as ->.
  exists {| label_id := "/m/0jbk"; display_name := "Cat" |}.
  split; [in_list | reflexivity].
Defined.

Lemma resolve_first_match_witness :
  NoDup (lower <$> ["Boot"; "Cat"])
  ∧ (∀ n, n ∈ ["Boot"; "Cat"] → has_match table n)
  ∧ ∃ ids,
      resolve ["Boot"; "Cat"] table = inr ids
      ∧ keys ids = ["Boot"; "Cat"]
      ∧ (∀ n, n ∈ ["Boot"; "Cat"] →
           ∃ row, first_matching_row n table row
                  ∧ dget n ids = Some (Some (label_id row)))
      ∧ (∀ names', lower <$> names' = lower <$> ["Boot"; "Cat"] →
           ∃ ids', resolve names' table = inr ids' ∧ ids'.*2 = ids.*2).
Proof.
  assert (NoDup (lower <$> ["Boot"; "Cat"])) as Hnd.
  { apply (bool_decide_unpack _). vm_compute. exact I. }
  split; [exact Hnd|]. split; [exact sample_names_match|].
  exact (resolve_first_match ["Boot"; "Cat"] table Hnd sample_names_match).
Defined.

(** C4.  The cell misses what it sets out to do.  Two requested names
    that differ only in case both have a unique match in the table, yet
    only the one requested last obtains an id: [classes_lower_notfound] is
    keyed by the lower-cased name and holds one of them.  The other is
    left at [None], and no [ValueError] is raised for it. *)
Lemma resolve_case_variants_left_unresolved :
  (∀ n, n ∈ ["cat"; "Cat"] → has_unique_match table n)
  ∧ resolve ["cat"; "Cat"] table
    = inr [("cat", None); ("Cat", Some "/m/0jbk")].
Proof.
  split; [|reflexivity].
  intros n Hn.
  exists {| label_id := "/m/0jbk"; display_name := "Cat" |}.
  assert (lower n = "cat") as Hl.
  { apply elem_of_cons in Hn as [->|Hn]; [reflexivity|].
    apply list_elem_of_singleton in Hn as ->. reflexivity. }
  unfold matches. rewrite Hl. split_and!; [in_list | reflexivity |].
  intros row' Hrow' Hm. apply elem_of_cons in Hrow' as [->|Hrow'].
  { discriminate Hm. }
  by apply list_elem_of_singleton in Hrow' as ->.
Qed.

Lemma sample_dog_unmatched :
  ∃ n, n ∈ ["Boot"; "Dog"] ∧ ∀ row, row ∈ table → ¬ matches n row.
Proof.
  exists "Dog". split; [in_list|].
  intros row Hrow. apply elem_of_cons in Hrow as [->|Hrow]; [discriminate|].
  apply list_elem_of_singleton in Hrow as ->. discriminate.
Defined.

Lemma resolve_error_lists_unmatched_witness :
  NoDup (lower <$> ["Boot"; "Dog"])
  ∧ (∃ n, n ∈ ["Boot"; "Dog"] ∧ ∀ row, row ∈ table → ¬ matches n row)
  ∧ (∃ errs, resolve ["Boot"; "Dog"] table = inl (ValueError errs)
             ∧ NoDup errs
             ∧ ∀ n, n ∈ errs
                    ↔ n ∈ ["Boot"; "Dog"]
                      ∧ ∀ row, row ∈ table → ¬ matches n row)
  ∧ NoDup (lower <$> ["Boot"; "Cat"])
  ∧ (∀ n, n ∈ ["Boot"; "Cat"] → has_match table n)
  ∧ ∃ ids, resolve ["Boot"; "Cat"] table = inr ids.
Proof.
  assert (NoDup (lower <$> ["Boot"; "Dog"])) as Hdog.
  { apply (bool_decide_unpack _). vm_compute. exact I. }
  assert (NoDup (lower <$> ["Boot"; "Cat"])) as Hcat.
  { apply (bool_decide_unpack _). vm_compute. exact I. }
  split; [exact Hdog|]. split; [exact sample_dog_unmatched|].
  split.
  { exact (proj1 (resolve_error_lists_unmatched ["Boot"; "Dog"] table Hdog)
             sample_dog_unmatched). }
  split; [exact Hcat|]. split; [exact sample_names_match|].
  exact (proj2 (resolve_error_lists_unmatched ["Boot"; "Cat"] table Hcat)
           sample_names_match).
Defined.

(** C5.  The cell misses what its own message announces.  With two
    requested names that differ only in case and no matching row, both
    names are unmatched but the error lists only the one requested last:
    the list is read off [classes_lower_notfound], which holds one name per
    lower-cased form. *)
Lemma resolve_error_omits_case_variant :
  let boots := [ {| label_id := "/m/01x3z"; display_name := "Boot" |} ] in
  resolve ["cat"; "Cat"] boots = inl (ValueError ["Cat"])
  ∧ "cat" ∈ ["cat"; "Cat"]
  ∧ (∀ row, row ∈ boots → ¬ matches "cat" row)
  ∧ "cat" ∉ ["Cat"].
Proof.
  split_and!; [reflexivity | in_list | |].
  - by intros row ->%list_elem_of_singleton.
  - by intros ?%list_elem_of_singleton.
Qed.

End samples.

End ResolverFacts.

(** ** The label hierarchy *)

Module HierarchyFacts.
Import Hierarchy.

Lemma tree_ind_nested (P : tree → Prop) :
  (∀ l, P (Node l None)) →
  (∀ l subs, Forall P subs → P (Node l (Some subs))) →
  ∀ t, P t.
Proof.
  intros Hleaf Hnode. fix IH 1. intros [l [subs|]]; [|apply Hleaf].
  apply Hnode. induction subs as [|s subs IHsubs]; constructor; [apply IH | done].
Qed.

Lemma elem_of_nodes n t :
  n ∈ nodes t ↔ n = t ∨ ∃ s, s ∈ children t ∧ n ∈ nodes s.
Proof.
  destruct t as [l [subs|]]; csimpl; rewrite elem_of_cons.
  - rewrite elem_of_concat. setoid_rewrite list_elem_of_fmap. naive_solver.
  - rewrite elem_of_nil. split; [naive_solver|].
    intros [?|(s & []%elem_of_nil & _)]; by left.
Qed.

Lemma nodes_self t : t ∈ nodes t.
Proof. apply elem_of_nodes. by left. Qed.

Lemma nodes_trans t : ∀ n m, n ∈ nodes t → m ∈ nodes n → m ∈ nodes t.
Proof.
  induction t as [l|l subs IH] using tree_ind_nested; intros n m.
  - rewrite (elem_of_nodes n). intros [->|(s & []%elem_of_nil & _)]. done.
  - rewrite (elem_of_nodes n). intros [->|(s & Hs & Hn)]; [done|].
    intros Hm. apply elem_of_nodes. right. exists s. split; [done|].
    rewrite Forall_forall in IH. by apply (IH s Hs n m).
Qed.

Lemma elem_of_labels x t : x ∈ labels t ↔ ∃ n, n ∈ nodes t ∧ label n = x.
Proof. unfold labels. rewrite list_elem_of_fmap. naive_solver. Qed.

Lemma all_subtree_class_ids_elem x t :
  x ∈ all_subtree_class_ids t ↔ x ∈ labels t.
Proof.
  induction t as [l|l subs IH] using tree_ind_nested.
  - unfold labels. csimpl. rewrite elem_of_singleton, list_elem_of_singleton. done.
  - rewrite elem_of_labels. cbn [all_subtree_class_ids].
    rewrite elem_of_union, elem_of_singleton, elem_of_union_list.
    rewrite Forall_forall in IH. split.
    + intros [->|(X & HX & Hx)].
      * exists (Node l (Some subs)). split; [apply nodes_self | done].
      * apply list_elem_of_fmap in HX as (s & -> & Hs).
        apply IH in Hx; [|done]. apply elem_of_labels in Hx as (n & Hn & <-).
        exists n. split; [|done]. apply elem_of_nodes. right. eauto.
    + intros (n & Hn & <-). apply elem_of_nodes in Hn as [->|(s & Hs & Hn)].
      * by left.
      * right. exists (all_subtree_class_ids s).
        split; [by apply list_elem_of_fmap_2|].
        apply IH; [done|]. apply elem_of_labels. eauto.
Qed.

Lemma all_subtree_class_ids_labels t :
  all_subtree_class_ids t = list_to_set (labels t).
Proof.
  apply set_eq. intros x. rewrite elem_of_list_to_set.
  apply all_subtree_class_ids_elem.
Qed.

(** The search returns the labels below every node that carries
    [class_id], whatever the tree. *)
Lemma get_all_subclasses_elem class_id x t :
  x ∈ get_all_subclasses class_id t
  ↔ ∃ n, n ∈ nodes t ∧ label n = class_id ∧ x ∈ labels n.
Proof.
  induction t as [l|l subs IH] using tree_ind_nested.
  - csimpl. case_decide as Hl.
    + rewrite elem_of_singleton. split.
      * intros ->. exists (Node l None).
        split_and!; [apply nodes_self | done |]. apply list_elem_of_here.
      * intros (n & Hn & _ & Hx).
        apply list_elem_of_singleton in Hn as ->.
        by apply list_elem_of_singleton in Hx.
    + rewrite elem_of_empty. split; [done|]. intros (n & Hn & Hc & _).
      apply list_elem_of_singleton in Hn as ->. done.
  - cbn [get_all_subclasses]. case_decide as Hl.
    + rewrite all_subtree_class_ids_elem. split.
      * intros Hx. exists (Node l (Some subs)).
        split_and!; [apply nodes_self | done | done].
      * intros (n & Hn & _ & Hx). apply elem_of_labels in Hx as (m & Hm & <-).
        apply elem_of_labels. exists m. split; [|done].
        by apply (nodes_trans _ n).
    + rewrite elem_of_union_list. rewrite Forall_forall in IH. split.
      * intros (X & HX & Hx). apply list_elem_of_fmap in HX as (s & -> & Hs).
        apply IH in Hx as (n & Hn & Hc & Hx); [|done].
        exists n. split_and!; [|done|done]. apply elem_of_nodes. right. eauto.
      * intros (n & Hn & Hc & Hx).
        apply elem_of_nodes in Hn as [->|(s & Hs & Hn)]; [done|].
        exists (get_all_subclasses class_id s).
        split; [by apply list_elem_of_fmap_2|]. apply IH; [done|]. eauto.
Qed.

Lemma NoDup_fmap_elem_inj {A B} (f : A → B) (l : list A) x y :
  NoDup (f <$> l) → x ∈ l → y ∈ l → f x = f y → x = y.
Proof.
  induction l as [|a l IH]; csimpl; [by intros _ ?%elem_of_nil|].
  rewrite NoDup_cons, !elem_of_cons. intros [Ha Hnd] [->|Hx] [->|Hy] Heq.
  - done.
  - exfalso. apply Ha. rewrite Heq. by apply list_elem_of_fmap_2.
  - exfalso. apply Ha. rewrite <-Heq. by apply list_elem_of_fmap_2.
  - by apply IH.
Qed.

(** C6.  In a hierarchy whose labels are pairwise distinct, if [n] is the
    node labelled [class_id], the expansion is exactly the set of the labels
    of [n] and of all nodes below it; it is the singleton of [class_id] when
    [n] is a leaf; and it contains the label of no node outside the subtree
    of [n] (siblings, cousins, ancestors). *)
Theorem get_all_subclasses_subtree class_id t n :
  NoDup (labels t) → n ∈ nodes t → label n = class_id →
  get_all_subclasses class_id t = list_to_set (labels n)
  ∧ (is_leaf n → get_all_subclasses class_id t = {[ class_id ]})
  ∧ (∀ m, m ∈ nodes t → m ∉ nodes n →
       label m ∉ get_all_subclasses class_id t).
Proof.
  intros Hnd Hn Hc.
  assert (get_all_subclasses class_id t = list_to_set (labels n)) as Heq.
  { apply set_eq. intros x.
    rewrite get_all_subclasses_elem, elem_of_list_to_set. split.
    - intros (n' & Hn' & Hc' & Hx).
      assert (n' = n) as ->; [|done].
      apply (NoDup_fmap_elem_inj label (nodes t)); [done|done|done|congruence].
    - intros Hx. eauto. }
  split_and!; [done| |].
  - intros Hleaf. rewrite Heq. unfold labels.
    destruct n as [l [subs|]]; csimpl in *; subst.
    + unfold is_leaf in Hleaf. csimpl in Hleaf. subst. csimpl. set_solver.
    + set_solver.
  - intros m Hm Hout. rewrite Heq, elem_of_list_to_set.
    intros (m' & Hm' & Hl)%elem_of_labels. apply Hout.
    assert (m' = m) as <-; [|done].
    apply (NoDup_fmap_elem_inj label (nodes t)); [done| |done|done].
    by apply (nodes_trans t n).
Qed.

(** C7.  When the root id is the label of no node of the tree, the
    expansion is the empty set; the function is total, so nothing is
    raised. *)
Theorem get_all_subclasses_absent class_id t :
  class_id ∉ labels t → get_all_subclasses class_id t = ∅.
Proof.
  intros Habs. apply set_eq. intros x.
  rewrite get_all_subclasses_elem, elem_of_empty. split; [|done].
  intros (n & Hn & Hc & _). apply Habs, elem_of_labels. eauto.
Qed.

Section samples.
Import Samples.

Local Ltac by_compute := apply (bool_decide_unpack _); vm_compute; exact I.

Lemma get_all_subclasses_subtree_witness :
  let bird :=
    Node "bird" (Some [Node "swan" None;
                       Node "duck" (Some [Node "mallard" None])]) in
  NoDup (labels birds)
  ∧ bird ∈ nodes birds
  ∧ label bird = "bird"
  ∧ get_all_subclasses "bird" birds = list_to_set (labels bird)
  ∧ (is_leaf bird → get_all_subclasses "bird" birds = {[ "bird" ]})
  ∧ (∀ m, m ∈ nodes birds → m ∉ nodes bird →
       label m ∉ get_all_subclasses "bird" birds).
Proof.
  intros bird.
  assert (NoDup (labels birds)) as H1 by by_compute.
  assert (bird ∈ nodes birds) as H2.
  { apply list_elem_of_further, list_elem_of_here. }
  assert (label bird = "bird") as H3 by reflexivity.
  split; [exact H1|]. split; [exact H2|]. split; [exact H3|].
  exact (get_all_subclasses_subtree "bird" birds bird H1 H2 H3).
Defined.

Lemma get_all_subclasses_absent_witness :
  ("dog" ∉ labels birds) ∧ get_all_subclasses "dog" birds = ∅.
Proof.
  assert ("dog" ∉ labels birds) as H1 by by_compute.
  split; [exact H1|]. exact (get_all_subclasses_absent "dog" birds H1).
Defined.

End samples.

End HierarchyFacts.

(** ** The collector *)

Module CollectorFacts.
Import Collector CollectorView.

(** *** One class at a time

    The loop body for a class reads and writes only the groups of that
    class and its membership in [unfilled_class_names]; the stream can
    therefore be followed class by class.  [class_step] is what a row does to
    one class: its groups, and whether it is still unfilled. *)
Section per_class.
Variable class_id_sets : list (string * gset string).
Variable SKIP_IMAGES : gset string.

Abbreviation class_step := (class_step class_id_sets SKIP_IMAGES).
Abbreviation class_run := (class_run class_id_sets SKIP_IMAGES).
Abbreviation class_names := (class_names class_id_sets).

Lemma canon_ext names σ σ' st :
  (∀ n, n ∈ names → σ n = σ' n) → canon names σ st → canon names σ' st.
Proof.
  intros Hext [Hcb Hun]. split.
  - rewrite Hcb. apply Forall_fmap_ext_1, Forall_forall.
    intros n Hn. by rewrite Hext.
  - rewrite Hun. f_equal. apply filter_ext_in. intros n Hn. by rewrite Hext.
Qed.

Lemma canon_dict_at names σ st n :
  canon names σ st → n ∈ names → dict_at [] n (class_bbs st) = (σ n).1.
Proof.
  intros [-> _] Hn. unfold dict_at.
  induction names as [|x xs IH]; csimpl; [by apply elem_of_nil in Hn|].
  destruct (decide (n = x)) as [->|Hne]; [done|].
  apply elem_of_cons in Hn as [?|?]; [done|]. by apply IH.
Qed.

Lemma canon_unfilled names σ st n :
  canon names σ st →
  n ∈ unfilled_class_names st ↔ n ∈ names ∧ (σ n).2 = true.
Proof.
  intros [_ ->]. rewrite elem_of_list_to_set, list_elem_of_filter. tauto.
Qed.

(** *** What a class accumulates *)

Abbreviation counts_for := (counts_for class_id_sets SKIP_IMAGES).
Abbreviation matching_images := (matching_images class_id_sets SKIP_IMAGES).

Lemma length_append_box img box (g : Groups) :
  length (append_box img box g)
  = if decide (img ∈ keys g) then length g else S (length g).
Proof. apply length_dd_update. Qed.

Lemma keys_append_box img box (g : Groups) :
  keys (append_box img box g) = add_new (keys g) img.
Proof. apply keys_dd_update. Qed.

Lemma class_step_inv needed name σ row :
  quota_inv needed σ → quota_inv needed (class_step needed name σ row).
Proof.
  intros (Hnd & Hle & Hopen). unfold CollectorView.class_step.
  case_decide; [done|]. destruct σ as [g [|]]; csimpl in *; [|done].
  case_decide; [|done]. unfold quota_inv. csimpl.
  assert (length g < needed) as Hlt by (by apply Hopen).
  split_and!.
  - rewrite keys_append_box. by apply NoDup_add_new.
  - rewrite length_append_box. case_decide; lia.
  - by rewrite bool_decide_eq_true.
Qed.

Lemma class_run_from_inv needed name rows : ∀ σ,
  quota_inv needed σ → quota_inv needed (foldl (class_step needed name) σ rows).
Proof.
  induction rows as [|row rows IH]; intros σ Hinv; csimpl; [done|].
  by apply IH, class_step_inv.
Qed.

Lemma class_run_inv needed name rows :
  1 ≤ needed → quota_inv needed (class_run needed name rows).
Proof.
  intros Hn. apply class_run_from_inv. split_and!; csimpl.
  - apply NoDup_nil_2.
  - lia.
  - split; [lia | done].
Qed.

(** A class that has left [unfilled_class_names] is never touched again. *)
Lemma class_step_closed needed name g row :
  class_step needed name (g, false) row = (g, false).
Proof. unfold CollectorView.class_step. by case_decide. Qed.

Lemma class_run_from_closed needed name g rows :
  foldl (class_step needed name) (g, false) rows = (g, false).
Proof.
  induction rows as [|row rows IH]; csimpl; [done|].
  by rewrite class_step_closed.
Qed.

(** The images of a class are the first [needed] distinct images that
    count for it. *)
Lemma class_run_from_keys needed name rows : ∀ σ,
  quota_inv needed σ →
  keys (foldl (class_step needed name) σ rows).1
  = take needed (first_seen_from (keys σ.1)
                   (img_id <$> filter (counts_for name) rows)).
Proof.
  induction rows as [|row rows IH]; intros σ Hinv; csimpl.
  - destruct Hinv as (_ & Hle & _). rewrite take_ge; [done|].
    unfold keys. by rewrite length_fmap.
  - rewrite (IH _ (class_step_inv needed name σ row Hinv)).
    destruct (decide (counts_for name row)) as [[Hskip Hcls]|Hno].
    2:{ rewrite filter_cons_False by done.
        assert (class_step needed name σ row = σ) as ->; [|done].
        unfold CollectorView.class_step. case_decide; [done|]. destruct σ.2; [|done].
        case_decide; [|done]. by destruct Hno. }
    rewrite filter_cons_True by done. csimpl.
    unfold CollectorView.class_step. rewrite decide_False by done.
    rewrite (decide_True (P := cls_id row ∈ _)) by done.
    destruct σ as [g [|]]; csimpl.
    + by rewrite keys_append_box.
    + destruct Hinv as (_ & Hle & Hopen). csimpl in *.
      assert (needed ≤ length (keys g)).
      { unfold keys. rewrite length_fmap.
        destruct (decide (length g < needed)) as [Hlt|?]; [|lia].
        by apply Hopen in Hlt. }
      pose proof (prefix_length _ _ (add_new_prefix (keys g) (img_id row))).
      rewrite (take_first_seen_from _ (keys g)) by done.
      rewrite (take_first_seen_from _ (add_new _ _)) by lia.
      destruct (add_new_prefix (keys g) (img_id row)) as [k ->].
      by rewrite take_app_le.
Qed.

Lemma class_run_keys needed name rows :
  1 ≤ needed →
  keys (class_run needed name rows).1 = take needed (matching_images name rows).
Proof.
  intros Hn. unfold CollectorView.class_run. rewrite class_run_from_keys; [done|].
  split_and!; csimpl; [apply NoDup_nil_2 | lia | split; [lia|done]].
Qed.

(** *** A larger quota sees the same groups, possibly grown *)

Lemma extends_refl g : extends g g.
Proof. induction g as [|[img boxes] g IH]; by constructor. Qed.

Lemma extends_append g g' img box :
  extends g g' → extends g (append_box img box g').
Proof.
  induction 1 as [|img0 boxes boxes' g g' Hpre Hext IH]; [constructor|].
  unfold append_box in *. csimpl. case_decide.
  - constructor; [|done]. by apply prefix_app_r.
  - by constructor.
Qed.

Lemma extends_keys g g' : extends g g' → keys g `prefix_of` keys g'.
Proof.
  induction 1 as [|img0 boxes boxes' g g' Hpre Hext IH]; csimpl.
  - apply prefix_nil.
  - by apply prefix_cons.
Qed.

Lemma extends_lookup g g' i img boxes :
  extends g g' → g !! i = Some (img, boxes) →
  ∃ boxes', g' !! i = Some (img, boxes') ∧ boxes `prefix_of` boxes'.
Proof.
  intros Hext. revert i.
  induction Hext as [|img0 bs bs' g g' Hpre Hext IH]; intros i; [done|].
  destruct i as [|i]; csimpl; [|apply IH].
  intros [= -> ->]. eauto.
Qed.

Lemma class_step_ahead needed needed' name row σ σ' :
  needed ≤ needed' → ahead σ σ' →
  ahead (class_step needed name σ row) (class_step needed' name σ' row).
Proof.
  intros Hle [Hext Hopen]. unfold CollectorView.class_step.
  case_decide; [done|].
  destruct σ as [g [|]], σ' as [g' b']; csimpl in *.
  - destruct Hopen as [-> ->]; [done|]. csimpl.
    case_decide; [|done]. split; csimpl; [apply extends_refl|].
    intros Hb%bool_decide_eq_true. split; [done|].
    apply bool_decide_eq_true. lia.
  - split; csimpl; [|done]. destruct b'; [|done].
    case_decide; [|done]. csimpl. by apply extends_append.
Qed.

Lemma class_run_ahead needed needed' name rows :
  needed ≤ needed' →
  extends (class_run needed name rows).1 (class_run needed' name rows).1.
Proof.
  intros Hle. unfold CollectorView.class_run.
  assert (ahead (([] : Groups), true) ([], true)) as Hinit
    by (split; [constructor | done]).
  revert Hinit. generalize (([] : Groups), true) at 1 3.
  generalize (([] : Groups), true).
  induction rows as [|row rows IH]; intros σ' σ Hah; csimpl.
  - by destruct Hah.
  - by apply IH, class_step_ahead.
Qed.

(** *** Merging the kept groups *)

Lemma merge_batch_keys batch : ∀ b : list (string * list Box),
  keys (merge_batch b batch) = first_seen_from (keys b) (keys batch).
Proof.
  unfold merge_batch.
  induction batch as [|[img boxes] batch IH]; intros b; [done|].
  cbn [foldl]. rewrite IH, keys_dd_update. done.
Qed.

Lemma dict_at_fresh (img : string) (g : Groups) :
  img ∉ keys g → dict_at [] img g = [].
Proof. intros Hk. unfold dict_at. by apply dget_None in Hk as ->. Qed.

Lemma merge_batch_at img batch : ∀ b : list (string * list Box),
  NoDup (keys batch) →
  dict_at [] img (merge_batch b batch)
  = dict_at [] img b ++ dict_at [] img batch.
Proof.
  unfold merge_batch.
  induction batch as [|[i boxes] batch IH]; intros b Hnd.
  - csimpl. by rewrite app_nil_r.
  - cbn [foldl]. apply NoDup_cons in Hnd as [Hi Hnd].
    rewrite IH by done. rewrite dict_at_dd_update, dict_at_cons.
    destruct (decide (img = i)) as [->|Hne]; [|done].
    rewrite (dict_at_fresh i batch) by done. by rewrite app_nil_r.
Qed.

Lemma merge_all_keys (bs : list Groups) : ∀ b : list (string * list Box),
  keys (foldl merge_batch b bs) = first_seen_from (keys b) (concat (keys <$> bs)).
Proof.
  induction bs as [|batch bs IH]; intros b; [done|].
  cbn [foldl]. rewrite IH, merge_batch_keys. csimpl.
  unfold first_seen_from. by rewrite foldl_app.
Qed.

Lemma merge_all_at img (bs : list Groups) : ∀ b : list (string * list Box),
  Forall (λ batch, NoDup (keys batch)) bs →
  dict_at [] img (foldl merge_batch b bs)
  = dict_at [] img b ++ concat (dict_at [] img <$> bs).
Proof.
  induction bs as [|batch bs IH]; intros b Hnd.
  - csimpl. by rewrite app_nil_r.
  - apply Forall_cons in Hnd as [Hb Hnd]. cbn [foldl].
    rewrite IH by done. rewrite merge_batch_at by done. csimpl.
    by rewrite app_assoc.
Qed.

Lemma class_step_NoDup needed name σ row :
  NoDup (keys σ.1) → NoDup (keys (class_step needed name σ row).1).
Proof.
  intros Hnd. unfold CollectorView.class_step. case_decide; [done|].
  destruct σ.2; [|done]. case_decide; [|done]. csimpl.
  rewrite keys_append_box. by apply NoDup_add_new.
Qed.

Lemma class_run_NoDup needed name rows :
  NoDup (keys (class_run needed name rows).1).
Proof.
  unfold CollectorView.class_run. assert (NoDup (keys (([] : Groups), true).1)) as Hinit
    by apply NoDup_nil_2.
  revert Hinit. generalize (([] : Groups), true).
  induction rows as [|row rows IH]; intros σ Hnd; csimpl; [done|].
  by apply IH, class_step_NoDup.
Qed.

Lemma NoDup_keys_py_last_n n (g : Groups) :
  NoDup (keys g) → NoDup (keys (py_last_n n g)).
Proof.
  intros Hnd. unfold py_last_n. case_decide; [done|].
  unfold keys. rewrite fmap_drop.
  eapply sublist_NoDup; [done | apply sublist_drop].
Qed.

(** *** Boxes carry their class *)

Lemma append_box_tagged name img row (g : Groups) :
  well_tagged name g → well_tagged name (append_box img (box_of name row) g).
Proof.
  unfold well_tagged, append_box.
  induction g as [|[i boxes] g IH]; csimpl; intros Hg.
  - repeat constructor; done.
  - apply Forall_cons in Hg as [[Hne Hall] Hg]. case_decide.
    + constructor; [|done]. csimpl. split.
      * by destruct boxes.
      * apply Forall_app. split; [done|]. by repeat constructor.
    + constructor; [done|]. by apply IH.
Qed.

Lemma class_step_tagged needed name σ row :
  well_tagged name σ.1 → well_tagged name (class_step needed name σ row).1.
Proof.
  intros Hg. unfold CollectorView.class_step. case_decide; [done|].
  destruct σ.2; [|done]. case_decide; [|done]. csimpl.
  by apply append_box_tagged.
Qed.

Lemma class_run_tagged needed name rows :
  well_tagged name (class_run needed name rows).1.
Proof.
  unfold CollectorView.class_run.
  assert (well_tagged name (([] : Groups), true).1) as Hinit
    by apply Forall_nil_2.
  revert Hinit. generalize (([] : Groups), true).
  induction rows as [|row rows IH]; intros σ Hg; csimpl; [done|].
  by apply IH, class_step_tagged.
Qed.

Lemma py_last_n_tagged name n (g : Groups) :
  well_tagged name g → well_tagged name (py_last_n n g).
Proof.
  unfold well_tagged, py_last_n. intros Hg. case_decide; [done|].
  by apply Forall_drop.
Qed.

Section with_quota.
Variable N_EXAMPLES_PER_CLASS BATCH_OFFSET : nat.

Abbreviation needed := (n_images_needed N_EXAMPLES_PER_CLASS BATCH_OFFSET).
Abbreviation visit := (visit class_id_sets N_EXAMPLES_PER_CLASS BATCH_OFFSET).
Abbreviation step_in_order :=
  (step_in_order class_id_sets N_EXAMPLES_PER_CLASS BATCH_OFFSET SKIP_IMAGES).
Abbreviation step :=
  (step class_id_sets N_EXAMPLES_PER_CLASS BATCH_OFFSET SKIP_IMAGES).
Abbreviation collect_from :=
  (collect_from class_id_sets N_EXAMPLES_PER_CLASS BATCH_OFFSET SKIP_IMAGES).
Abbreviation collect :=
  (collect class_id_sets N_EXAMPLES_PER_CLASS BATCH_OFFSET SKIP_IMAGES).

(** Visiting one unfilled class. *)
Lemma visit_canon names σ st row x :
  NoDup names → canon names σ st → x ∈ names → (σ x).2 = true →
  img_id row ∉ SKIP_IMAGES →
  canon names
    (λ n, if decide (n = x) then class_step needed x (σ x) row else σ n)
    (visit row st x).
Proof.
  intros Hnd Hc Hx Hopen Hskip. unfold visit, CollectorView.class_step.
  rewrite (decide_False (P := img_id row ∈ SKIP_IMAGES)) by done.
  rewrite Hopen. rewrite (canon_dict_at names σ st x Hc Hx).
  destruct (decide (cls_id row ∈ dict_at ∅ x class_id_sets)) as [Hin|Hout].
  - set (g := append_box (img_id row) (box_of x row) (σ x).1).
    assert (dset x g (class_bbs st)
            = (λ n, (n, (if decide (n = x)
                         then (g, bool_decide (length g < needed))
                         else σ n).1)) <$> names) as Hset.
    { destruct Hc as [-> _].
      rewrite (dset_mapped id (λ n, (σ n).1) x g) by (by rewrite ?list_fmap_id).
      apply Forall_fmap_ext_1, Forall_forall. intros n _. unfold id.
      by case_decide. }
    assert (∀ X : gset string,
              X = list_to_set (filter (λ n, (σ n).2 = true) names) →
              (if bool_decide (length g < needed) then X else X ∖ {[ x ]})
              = list_to_set
                  (filter (λ n, (if decide (n = x)
                                 then (g, bool_decide (length g < needed))
                                 else σ n).2 = true) names)) as Hrem.
    { intros X ->. apply set_eq. intros n.
      destruct (bool_decide (length g < needed)) eqn:Hb;
        rewrite ?elem_of_difference, !elem_of_list_to_set,
                !list_elem_of_filter, ?elem_of_singleton;
        destruct (decide (n = x)) as [->|Hne]; csimpl; naive_solver. }
    destruct Hc as [_ Hun]. specialize (Hrem _ Hun).
    destruct (decide (needed ≤ length g)) as [Hlen|Hlen].
    + rewrite bool_decide_eq_false_2 in Hrem, Hset |- * by lia.
      split; [exact Hset | exact Hrem].
    + rewrite bool_decide_eq_true_2 in Hrem, Hset |- * by lia.
      split; [exact Hset | exact Hrem].
  - eapply canon_ext; [|done]. intros n _. case_decide; by subst.
Qed.

(** Visiting a duplicate-free list of unfilled classes, in any order. *)
Lemma foldl_visit_canon names row ns : ∀ σ st,
  NoDup names → NoDup ns → canon names σ st →
  (∀ n, n ∈ ns → n ∈ names ∧ (σ n).2 = true) →
  img_id row ∉ SKIP_IMAGES →
  canon names
    (λ n, if decide (n ∈ ns) then class_step needed n (σ n) row else σ n)
    (foldl (visit row) st ns).
Proof.
  induction ns as [|x ns IH]; intros σ st Hnd Hns Hc Hall Hskip; csimpl.
  - eapply canon_ext; [|done]. by intros n _.
  - apply NoDup_cons in Hns as [Hx Hns].
    destruct (Hall x) as [Hxn Hxo]; [apply list_elem_of_here|].
    pose proof (visit_canon names σ st row x Hnd Hc Hxn Hxo Hskip) as Hc1.
    eapply canon_ext; [|apply (IH _ _ Hnd Hns Hc1); [|done]].
    + intros n Hn. csimpl.
      destruct (decide (n ∈ ns)) as [Hin|Hin].
      * rewrite decide_False by (by intros ->).
        rewrite decide_True by (by apply list_elem_of_further). done.
      * destruct (decide (n = x)) as [->|Hne].
        -- rewrite decide_True by apply list_elem_of_here. done.
        -- rewrite decide_False; [done|]. rewrite not_elem_of_cons. done.
    + intros n Hn. rewrite decide_False by (by intros ->).
      apply Hall. by apply list_elem_of_further.
Qed.

(** A row, whatever the order in which the copy of the set is iterated. *)
Lemma step_in_order_canon order names σ st row :
  (∀ X : gset string, NoDup (order X) ∧ ∀ x, x ∈ order X ↔ x ∈ X) →
  NoDup names → canon names σ st →
  canon names (λ n, class_step needed n (σ n) row) (step_in_order order st row).
Proof.
  intros Horder Hnd Hc. unfold step_in_order.
  destruct (decide (img_id row ∈ SKIP_IMAGES)) as [Hskip|Hskip].
  - eapply canon_ext; [|done]. intros n _. unfold CollectorView.class_step.
    by rewrite decide_True.
  - destruct (Horder (unfilled_class_names st)) as [Hnd' Hel].
    eapply canon_ext; [|apply (foldl_visit_canon names row _ σ st); try done].
    + intros n Hn. csimpl. case_decide as Hin; [done|].
      unfold CollectorView.class_step. rewrite decide_False by done.
      destruct (σ n).2 eqn:Hopen; [|done].
      exfalso. apply Hin, Hel. by apply (canon_unfilled names σ).
    + intros n Hn%Hel. by apply (canon_unfilled names σ) in Hn.
Qed.

Lemma elements_order (X : gset string) :
  NoDup (elements X) ∧ ∀ x, x ∈ elements X ↔ x ∈ X.
Proof. split; [apply NoDup_elements | intros x; apply elem_of_elements]. Qed.

(** The order of iteration over the set is immaterial. *)
Lemma step_order_irrelevant order names σ st row :
  (∀ X : gset string, NoDup (order X) ∧ ∀ x, x ∈ order X ↔ x ∈ X) →
  NoDup names → canon names σ st →
  step_in_order order st row = step st row.
Proof.
  intros Horder Hnd Hc.
  destruct (step_in_order_canon order names σ st row Horder Hnd Hc) as [H1 H2].
  destruct (step_in_order_canon elements names σ st row elements_order Hnd Hc)
    as [H3 H4].
  unfold step. destruct (step_in_order order st row), (step_in_order elements st row).
  csimpl in *. congruence.
Qed.

Lemma collect_from_canon names rows : ∀ σ st,
  NoDup names → canon names σ st →
  canon names (λ n, foldl (class_step needed n) (σ n) rows)
    (collect_from st rows).
Proof.
  induction rows as [|row rows IH]; intros σ st Hnd Hc; csimpl; [done|].
  apply (IH (λ n, class_step needed n (σ n) row)); [done|].
  by apply step_in_order_canon; [apply elements_order| |].
Qed.

Lemma foldl_dset_const (v : Groups) (ks acc : list string) :
  foldl (λ d name, dset name v d) ((λ n, (n, v)) <$> acc) ks
  = (λ n, (n, v)) <$> first_seen_from acc ks.
Proof.
  revert acc. induction ks as [|k ks IH]; intros acc; [done|].
  rewrite first_seen_from_cons. csimpl. rewrite <-IH. f_equal.
  unfold add_new. case_decide as Hk.
  - clear IH. induction acc as [|a acc IHa]; [by apply elem_of_nil in Hk|].
    csimpl. case_decide; [by subst|].
    apply elem_of_cons in Hk as [?|?]; [done|]. by rewrite IHa.
  - rewrite dset_fresh; [by rewrite fmap_app|].
    unfold keys. rewrite <-list_fmap_compose. by rewrite list_fmap_id.
Qed.

Lemma init_canon :
  canon class_names (λ _, ([], true))
    (init_state class_id_sets).
Proof.
  split; csimpl.
  - unfold init_class_bbs. apply (foldl_dset_const [] _ []).
  - apply set_eq. intros n.
    rewrite !elem_of_list_to_set, list_elem_of_filter.
    unfold CollectorView.class_names. rewrite elem_of_first_seen. tauto.
Qed.

(** The loop state after any stream, class by class. *)
Lemma collect_canon rows :
  canon class_names (λ n, class_run needed n rows) (collect rows).
Proof.
  apply (collect_from_canon class_names rows (λ _, ([], true))).
  - apply NoDup_first_seen.
  - apply init_canon.
Qed.

(** *** Reading the state and the output class by class *)

Abbreviation accumulated :=
  (accumulated class_id_sets N_EXAMPLES_PER_CLASS BATCH_OFFSET SKIP_IMAGES).
Abbreviation kept :=
  (kept class_id_sets N_EXAMPLES_PER_CLASS BATCH_OFFSET SKIP_IMAGES).
Abbreviation run :=
  (run class_id_sets N_EXAMPLES_PER_CLASS BATCH_OFFSET SKIP_IMAGES).
Abbreviation collect_csv_from :=
  (collect_csv_from class_id_sets N_EXAMPLES_PER_CLASS BATCH_OFFSET
     SKIP_IMAGES).
Abbreviation collect_csv :=
  (collect_csv class_id_sets N_EXAMPLES_PER_CLASS BATCH_OFFSET SKIP_IMAGES).
Abbreviation run_csv :=
  (run_csv class_id_sets N_EXAMPLES_PER_CLASS BATCH_OFFSET SKIP_IMAGES).
Abbreviation finish := (finish N_EXAMPLES_PER_CLASS BATCH_OFFSET).
Abbreviation class_bbs_batch := (class_bbs_batch N_EXAMPLES_PER_CLASS).
Abbreviation postprocess := (postprocess N_EXAMPLES_PER_CLASS).
Abbreviation post_class := (post_class N_EXAMPLES_PER_CLASS).
Abbreviation batches := (batches N_EXAMPLES_PER_CLASS).

Lemma elem_of_class_names name :
  name ∈ class_names ↔ name ∈ keys class_id_sets.
Proof. apply elem_of_first_seen. Qed.

Lemma accumulated_class_run rows name :
  name ∈ keys class_id_sets →
  accumulated name rows = (class_run needed name rows).1.
Proof.
  intros Hn. unfold Collector.accumulated.
  apply (canon_dict_at class_names (λ n, class_run needed n rows));
    [apply collect_canon | by apply elem_of_class_names].
Qed.

Lemma unfilled_class_run rows name :
  name ∈ unfilled_class_names (collect rows)
  ↔ name ∈ keys class_id_sets ∧ (class_run needed name rows).2 = true.
Proof.
  rewrite (canon_unfilled class_names (λ n, class_run needed n rows))
    by apply collect_canon.
  by rewrite elem_of_class_names.
Qed.

Lemma keys_class_bbs rows : keys (class_bbs (collect rows)) = class_names.
Proof.
  destruct (collect_canon rows) as [-> _]. unfold keys.
  rewrite <-list_fmap_compose. apply list_fmap_id.
Qed.

Lemma post_class_loop post : ∀ pre b,
  NoDup (keys (pre ++ post)) →
  foldl post_class (pre ++ post, b) (keys post)
  = (pre ++ batches post, foldl (merge_batch) b (batches post).*2).
Proof.
  induction post as [|[n g] post IH]; intros pre b Hnd; [done|].
  assert (n ∉ keys pre) as Hn.
  { unfold keys in *. rewrite fmap_app in Hnd.
    apply NoDup_app in Hnd as (_ & Hdisj & _). intros Hin.
    apply (Hdisj n Hin). csimpl. apply list_elem_of_here. }
  cbn [keys fmap list_fmap foldl fst]. unfold post_class at 2. cbn [fst snd].
  assert (dict_at [] n (pre ++ (n, g) :: post) = g) as ->.
  { unfold dict_at. rewrite dget_app.
    apply dget_None in Hn as ->. csimpl. by rewrite decide_True. }
  rewrite dset_app_r by done. cbn [dset]. rewrite decide_True by done.
  rewrite (cons_middle _ pre post), app_assoc.
  change (list_fmap _ _ fst post) with (keys post).
  rewrite IH.
  - by rewrite <-app_assoc.
  - revert Hnd. unfold keys. rewrite !fmap_app. csimpl.
    by rewrite <-app_assoc.
Qed.

Lemma postprocess_spec cb :
  NoDup (keys cb) →
  postprocess cb = (batches cb, foldl merge_batch [] (batches cb).*2).
Proof. intros Hnd. apply (post_class_loop cb [] []). done. Qed.

Lemma dict_at_batches name cb :
  dict_at [] name (batches cb) = class_bbs_batch (dict_at [] name cb).
Proof.
  unfold dict_at, CollectorView.batches. induction cb as [|[n g] cb IH]; csimpl.
  - unfold Collector.class_bbs_batch, py_last_n. by case_decide.
  - by case_decide.
Qed.

Lemma run_spec rows :
  run rows
  = {| out_warning :=
         warn N_EXAMPLES_PER_CLASS BATCH_OFFSET (collect rows);
       out_class_bbs := batches (class_bbs (collect rows));
       bbs := foldl merge_batch [] (batches (class_bbs (collect rows))).*2;
       n_images :=
         length (keys (foldl merge_batch []
                         (batches (class_bbs (collect rows))).*2)) |}.
Proof.
  unfold Collector.run. rewrite postprocess_spec; [done|].
  rewrite keys_class_bbs. apply NoDup_first_seen.
Qed.

Lemma kept_accumulated rows name :
  kept name rows = class_bbs_batch (accumulated name rows).
Proof.
  unfold Collector.kept. rewrite run_spec. csimpl. apply dict_at_batches.
Qed.

Lemma needed_pos : 1 ≤ N_EXAMPLES_PER_CLASS → 1 ≤ needed.
Proof. unfold n_images_needed. nia. Qed.

(** *** The merged mapping *)

Lemma batches_values rows :
  (batches (class_bbs (collect rows))).*2
  = (λ name, kept name rows) <$> class_names.
Proof.
  destruct (collect_canon rows) as [Hcb _].
  unfold CollectorView.batches. rewrite <-list_fmap_compose.
  rewrite Hcb at 1. rewrite <-list_fmap_compose.
  apply Forall_fmap_ext_1, Forall_forall. intros name Hname. csimpl.
  rewrite kept_accumulated, accumulated_class_run;
    [done | by apply elem_of_class_names].
Qed.

Lemma NoDup_keys_accumulated rows name : NoDup (keys (accumulated name rows)).
Proof.
  destruct (decide (name ∈ keys class_id_sets)) as [Hin|Hout].
  - rewrite accumulated_class_run by done. apply class_run_NoDup.
  - unfold Collector.accumulated, dict_at.
    assert (dget name (class_bbs (collect rows)) = None) as ->;
      [|apply NoDup_nil_2].
    apply dget_None. rewrite keys_class_bbs. by rewrite elem_of_class_names.
Qed.

Lemma NoDup_keys_kept rows name : NoDup (keys (kept name rows)).
Proof.
  rewrite kept_accumulated. apply NoDup_keys_py_last_n, NoDup_keys_accumulated.
Qed.

Lemma bbs_run rows :
  bbs (run rows) = foldl merge_batch [] ((λ name, kept name rows) <$> class_names).
Proof. rewrite run_spec. csimpl. by rewrite batches_values. Qed.

(** The merged mapping, for any quota, offset, exclusion set and stream. *)
Lemma merged_spec rows :
  (∀ img, dict_at [] img (bbs (run rows))
          = concat ((λ name, dict_at [] img (kept name rows))
                    <$> first_seen (keys class_id_sets)))
  ∧ NoDup (keys (bbs (run rows)))
  ∧ (∀ img, img ∈ keys (bbs (run rows))
            ↔ ∃ name, name ∈ keys class_id_sets
                      ∧ img ∈ keys (kept name rows))
  ∧ n_images (run rows)
    = size (⋃ ((λ name, list_to_set (keys (kept name rows)))
               <$> first_seen (keys class_id_sets)) : gset string).
Proof.
  assert (∀ img, img ∈ keys (bbs (run rows))
            ↔ ∃ name, name ∈ keys class_id_sets
                      ∧ img ∈ keys (kept name rows)) as Hin.
  { intros img. rewrite bbs_run, merge_all_keys.
    rewrite elem_of_first_seen_from, elem_of_nil, elem_of_concat.
    rewrite <-list_fmap_compose. split.
    - intros [[]|(l & Hl & Himg)].
      apply list_elem_of_fmap in Hl as (name & -> & Hname).
      exists name. by rewrite <-elem_of_class_names.
    - intros (name & Hname & Himg). right.
      exists (keys (kept name rows)). split; [|done].
      apply (list_elem_of_fmap_2 (λ n, keys (kept n rows))).
      by apply elem_of_class_names. }
  assert (NoDup (keys (bbs (run rows)))) as Hnd.
  { rewrite bbs_run, merge_all_keys. apply NoDup_first_seen_from, NoDup_nil_2. }
  split_and!; [|done|done|].
  - intros img. rewrite bbs_run, merge_all_at.
    + csimpl. by rewrite <-list_fmap_compose.
    + apply Forall_fmap, Forall_forall. intros name _. apply NoDup_keys_kept.
  - assert (n_images (run rows) = length (keys (bbs (run rows)))) as ->.
    { by rewrite run_spec. }
    rewrite <-(size_list_to_set (C := gset string)) by done. f_equal.
    apply set_eq. intros img.
    rewrite elem_of_list_to_set, Hin, elem_of_union_list. split.
    + intros (name & Hname & Himg).
      exists (list_to_set (keys (kept name rows))). split.
      * apply (list_elem_of_fmap_2
                 (λ n, list_to_set (keys (kept n rows)) : gset string)).
        by apply elem_of_class_names.
      * by apply elem_of_list_to_set.
    + intros (X & HX & Himg).
      apply list_elem_of_fmap in HX as (name & -> & Hname).
      exists name. split; [by apply elem_of_class_names|].
      by apply elem_of_list_to_set in Himg.
Qed.

(** *** Images of a class in the merged mapping *)

Lemma kept_tagged rows name : well_tagged name (kept name rows).
Proof.
  rewrite kept_accumulated. apply py_last_n_tagged.
  destruct (decide (name ∈ keys class_id_sets)) as [Hin|Hout].
  - rewrite accumulated_class_run by done. apply class_run_tagged.
  - unfold Collector.accumulated, dict_at.
    assert (dget name (class_bbs (collect rows)) = None) as ->;
      [|apply Forall_nil_2].
    apply dget_None. rewrite keys_class_bbs. by rewrite elem_of_class_names.
Qed.

Lemma box_in_kept rows name img box :
  box ∈ dict_at [] img (kept name rows) →
  tagged name box ∧ img ∈ keys (kept name rows).
Proof.
  unfold dict_at. destruct (dget img (kept name rows)) as [boxes|] eqn:Hget;
    csimpl; [|by intros ?%elem_of_nil].
  intros Hbox. pose proof (dget_Some_elem _ _ _ Hget) as Hin. split.
  - pose proof (kept_tagged rows name) as Htag.
    unfold well_tagged in Htag. rewrite Forall_forall in Htag.
    destruct (Htag _ Hin) as [_ Hall]. rewrite Forall_forall in Hall.
    by apply Hall.
  - by apply (list_elem_of_fmap_2 fst) in Hin.
Qed.

Lemma merged_tagged_iff rows name img :
  name ∈ keys class_id_sets →
  Exists (tagged name) (dict_at [] img (bbs (run rows)))
  ↔ img ∈ keys (kept name rows).
Proof.
  intros Hname. destruct (merged_spec rows) as (Hat & _).
  rewrite Hat, Exists_exists. split.
  - intros (box & Hbox & Htag).
    apply elem_of_concat in Hbox as (boxes & Hboxes & Hbox).
    apply list_elem_of_fmap in Hboxes as (n & -> & Hn).
    apply box_in_kept in Hbox as [Htag' Himg].
    unfold tagged in *. by simplify_eq.
  - intros Himg. destruct (dget_is_Some _ _ Himg) as [boxes Hget].
    pose proof (dget_Some_elem _ _ _ Hget) as Hin.
    pose proof (kept_tagged rows name) as Htag.
    unfold well_tagged in Htag. rewrite Forall_forall in Htag.
    destruct (Htag _ Hin) as [Hne Hall]. csimpl in *.
    destruct boxes as [|box boxes]; [done|]. exists box. split.
    + apply elem_of_concat. exists (box :: boxes). split; [|apply list_elem_of_here].
      apply list_elem_of_fmap. exists name.
      split; [|by apply elem_of_first_seen].
      unfold dict_at. by rewrite Hget.
    + by apply Forall_cons in Hall as [? _].
Qed.

(** The merged mapping holds as many images with a box of a class as the
    class has kept groups. *)
Lemma length_images_of_class rows name :
  name ∈ keys class_id_sets →
  length (images_of_class name (bbs (run rows))) = length (kept name rows).
Proof.
  intros Hname. destruct (merged_spec rows) as (_ & Hnd & _).
  rewrite <-(length_fmap fst (images_of_class _ _)).
  rewrite <-(length_fmap fst (kept name rows)).
  apply Permutation_length, NoDup_Permutation.
  - unfold images_of_class.
    eapply sublist_NoDup; [exact Hnd|]. apply fmap_sublist, sublist_filter.
  - apply NoDup_keys_kept.
  - intros img. rewrite <-(merged_tagged_iff rows name img Hname).
    unfold images_of_class. rewrite list_elem_of_fmap. split.
    + intros ([i boxes] & -> & [Htag Hin]%list_elem_of_filter). csimpl in *.
      unfold dict_at. by rewrite (dget_Some_NoDup _ _ _ Hnd Hin).
    + intros Hex.
      assert (img ∈ keys (bbs (run rows))) as Hkey.
      { destruct (dget img (bbs (run rows))) eqn:Hget.
        - apply dget_Some_elem in Hget.
          by apply (list_elem_of_fmap_2 fst) in Hget.
        - unfold dict_at in Hex. rewrite Hget in Hex. csimpl in Hex.
          by apply Exists_nil in Hex. }
      destruct (dget_is_Some _ _ Hkey) as [boxes Hget].
      exists (img, boxes). split; [done|].
      apply list_elem_of_filter. split; [|by apply dget_Some_elem].
      csimpl. unfold dict_at in Hex. by rewrite Hget in Hex.
Qed.

(** *** The quota *)

(** C1.  For a quota of at least one and any offset, stream and class: the
    class is still unfilled exactly while it holds fewer than
    [N * (offset + 1)] images; its images are pairwise distinct and are the
    first [N * (offset + 1)] distinct images of the stream that have a row
    which counts for the class (a non-excluded row whose label is in the
    class's id set), so nothing is added once that number is reached.  With
    offset 0 and at least [N] such images in the stream, the class ends with
    exactly [N] kept images, the first [N] of them, and the merged mapping
    holds exactly [N] images with a box of the class. *)
Theorem quota_capacity rows name :
  1 ≤ N_EXAMPLES_PER_CLASS →
  name ∈ keys class_id_sets →
  (name ∈ unfilled_class_names (collect rows)
   ↔ length (accumulated name rows) < needed)
  ∧ NoDup (keys (accumulated name rows))
  ∧ keys (accumulated name rows) = take needed (matching_images name rows)
  ∧ (BATCH_OFFSET = 0 →
     N_EXAMPLES_PER_CLASS ≤ length (matching_images name rows) →
     length (kept name rows) = N_EXAMPLES_PER_CLASS
     ∧ keys (kept name rows)
       = take N_EXAMPLES_PER_CLASS (matching_images name rows)
     ∧ length (images_of_class name (bbs (run rows)))
       = N_EXAMPLES_PER_CLASS).
Proof.
  intros HN Hname. pose proof (needed_pos HN) as Hneeded.
  pose proof (class_run_inv needed name rows Hneeded) as (Hnd & Hle & Hopen).
  pose proof (class_run_keys needed name rows Hneeded) as Hkeys.
  rewrite <-(accumulated_class_run rows name Hname) in Hnd, Hle, Hopen, Hkeys.
  split_and!; [|done|done|].
  - rewrite unfilled_class_run. rewrite <-Hopen. tauto.
  - intros Hoff Hmany. rewrite length_images_of_class by done.
    rewrite kept_accumulated.
    assert (needed = N_EXAMPLES_PER_CLASS) as Hn.
    { unfold n_images_needed. rewrite Hoff. lia. }
    rewrite Hn in Hkeys.
    assert (length (accumulated name rows) = N_EXAMPLES_PER_CLASS) as Hlen.
    { rewrite <-(length_fmap fst). fold (keys (accumulated name rows)).
      rewrite Hkeys, length_take. lia. }
    unfold Collector.class_bbs_batch, py_last_n.
    rewrite decide_False by lia. rewrite Hlen, Nat.sub_diag. done.
Qed.

(** *** Rows after the quota is met *)

Lemma unfilled_iff_short rows name :
  1 ≤ N_EXAMPLES_PER_CLASS → name ∈ keys class_id_sets →
  name ∈ unfilled_class_names (collect rows)
  ↔ length (accumulated name rows) < needed.
Proof.
  intros HN Hname.
  pose proof (class_run_inv needed name rows (needed_pos HN)) as (_ & _ & Ho).
  rewrite unfilled_class_run, accumulated_class_run by done.
  rewrite <-Ho. tauto.
Qed.

Lemma unfilled_subseteq_keys rows name :
  name ∈ unfilled_class_names (collect rows) → name ∈ keys class_id_sets.
Proof. rewrite unfilled_class_run. tauto. Qed.

Lemma step_all_filled st row :
  unfilled_class_names st = ∅ → step st row = st.
Proof.
  intros Hempty. unfold Collector.step, Collector.step_in_order.
  case_decide; [done|]. by rewrite Hempty, elements_empty.
Qed.

Lemma collect_from_all_filled st rows :
  unfilled_class_names st = ∅ → collect_from st rows = st.
Proof.
  intros Hempty. induction rows as [|row rows IH]; csimpl; [done|].
  by rewrite step_all_filled.
Qed.

Lemma collect_app prefix rest :
  collect (prefix ++ rest) = collect_from (collect prefix) rest.
Proof. unfold Collector.collect, Collector.collect_from. apply foldl_app. Qed.

Lemma class_run_app name prefix rest :
  class_run needed name (prefix ++ rest)
  = foldl (class_step needed name) (class_run needed name prefix) rest.
Proof. apply foldl_app. Qed.

Lemma accumulated_at_capacity prefix rest name :
  1 ≤ N_EXAMPLES_PER_CLASS → name ∈ keys class_id_sets →
  needed ≤ length (accumulated name prefix) →
  accumulated name (prefix ++ rest) = accumulated name prefix.
Proof.
  intros HN Hname Hfull. rewrite !accumulated_class_run in * by done.
  rewrite class_run_app.
  pose proof (class_run_inv needed name prefix (needed_pos HN))
    as (_ & _ & Hopen).
  destruct (class_run needed name prefix) as [g [|]]; csimpl in *.
  - assert (length g < needed) by (by apply Hopen). lia.
  - by rewrite class_run_from_closed.
Qed.

Lemma accumulated_once_filled prefix rest name :
  name ∈ keys class_id_sets →
  name ∉ unfilled_class_names (collect prefix) →
  accumulated name (prefix ++ rest) = accumulated name prefix.
Proof.
  intros Hname Hout. rewrite !accumulated_class_run by done.
  rewrite class_run_app. rewrite unfilled_class_run in Hout.
  destruct (class_run needed name prefix) as [g [|]]; csimpl in *.
  - destruct Hout. by split.
  - by rewrite class_run_from_closed.
Qed.

Lemma all_filled_iff_capacity rows :
  1 ≤ N_EXAMPLES_PER_CLASS →
  unfilled_class_names (collect rows) = ∅
  ↔ ∀ name, name ∈ keys class_id_sets →
       needed ≤ length (accumulated name rows).
Proof.
  intros HN. split.
  - intros Hempty name Hname.
    destruct (decide (needed ≤ length (accumulated name rows))) as [|Hlt];
      [done|].
    assert (name ∈ unfilled_class_names (collect rows)) as Hin
      by (apply unfilled_iff_short; [done|done|lia]).
    rewrite Hempty in Hin. by apply elem_of_empty in Hin.
  - intros Hfull. apply set_eq. intros name. rewrite elem_of_empty.
    split; [|done].
    intros Hin. pose proof (unfilled_subseteq_keys _ _ Hin) as Hname.
    apply unfilled_iff_short in Hin; [|done|done].
    specialize (Hfull name Hname). lia.
Qed.

(** *** The rows as the file holds them *)

Lemma unpack_inr fields :
  8 ≤ length fields ↔ ∃ row, unpack fields = inr row.
Proof.
  do 8 (destruct fields as [|? fields];
        [split; [csimpl; lia | by intros [? ?]]|]).
  split; [eauto | csimpl; lia].
Qed.

Lemma unpack_inl fields e :
  unpack fields = inl e → e = NotEnoughValues (length fields)
                          ∧ length fields < 8.
Proof.
  do 8 (destruct fields as [|? fields];
        [intros [= <-]; split; [done | csimpl; lia]|]).
  done.
Qed.

Lemma collect_csv_from_app csv csv' : ∀ st,
  collect_csv_from st (csv ++ csv')
  = match collect_csv_from st csv with
    | inl e => inl e
    | inr st' => collect_csv_from st' csv'
    end.
Proof.
  induction csv as [|fields csv IH]; intros st; csimpl; [done|].
  destruct (unpack fields) as [e|row]; [done|]. apply IH.
Qed.

(** On rows that unpack, the cell is the loop over the unpacked rows. *)
Lemma collect_csv_from_inr csv : ∀ st st',
  collect_csv_from st csv = inr st'
  ↔ ∃ rows, Forall2 (λ fields row, unpack fields = inr row) csv rows
            ∧ st' = collect_from st rows.
Proof.
  induction csv as [|fields csv IH]; intros st st'; csimpl.
  - split.
    + intros [= <-]. exists []. by split; [constructor|].
    + intros (rows & ->%Forall2_nil_inv_l & ->). done.
  - destruct (unpack fields) as [e|row] eqn:E.
    + split; [done|].
      intros (rows & (? & ? & ? & _ & _)%Forall2_cons_inv_l & _). congruence.
    + rewrite IH. split.
      * intros (rows & Hall & ->). exists (row :: rows).
        split; [by constructor | done].
      * intros (rows & (r & rows' & Hr & Hall & ->)%Forall2_cons_inv_l & ->).
        exists rows'. split; [done|]. csimpl. congruence.
Qed.

Lemma collect_csv_from_filled csv st :
  unfilled_class_names st = ∅ →
  Forall (λ fields, 8 ≤ length fields) csv →
  collect_csv_from st csv = inr st.
Proof.
  intros Hempty. induction 1 as [|fields csv Hlen _ IH]; csimpl; [done|].
  apply unpack_inr in Hlen as [row ->]. by rewrite step_all_filled.
Qed.

Lemma collect_csv_from_short csv : ∀ st,
  ¬ Forall (λ fields, 8 ≤ length fields) csv →
  ∃ got, got < 8 ∧ collect_csv_from st csv = inl (NotEnoughValues got).
Proof.
  induction csv as [|fields csv IH]; intros st Hshort; csimpl.
  - destruct Hshort. constructor.
  - destruct (unpack fields) as [e|row] eqn:E.
    + apply unpack_inl in E as [-> ?]. eauto.
    + apply IH. intros Hall. apply Hshort. constructor; [|done].
      apply unpack_inr. eauto.
Qed.

Lemma run_finish rows : run rows = finish (collect rows).
Proof. done. Qed.

(** C3 (amended).  Once every requested class has left
    [unfilled_class_names], which for a quota of at least one is exactly
    when every class holds its [N * (offset + 1)] images, streaming does
    not halt: the loop has no [break] and unpacks every remaining row, so
    that a remaining row of fewer than eight fields still ends the cell
    with a [ValueError].  When the remaining rows unpack they contribute
    nothing: the loop state, and with it the whole output (warning, kept
    groups, merged mapping, count), is the one obtained from the prefix
    alone. *)
Theorem rest_of_stream_is_read csv_prefix csv_rest st :
  collect_csv csv_prefix = inr st →
  (1 ≤ N_EXAMPLES_PER_CLASS →
     unfilled_class_names st = ∅
     ↔ ∀ name, name ∈ keys class_id_sets →
          needed ≤ length (dict_at [] name (class_bbs st)))
  ∧ (unfilled_class_names st = ∅ →
     (Forall (λ fields, 8 ≤ length fields) csv_rest →
        collect_csv (csv_prefix ++ csv_rest) = inr st
        ∧ run_csv (csv_prefix ++ csv_rest) = run_csv csv_prefix)
     ∧ (¬ Forall (λ fields, 8 ≤ length fields) csv_rest →
        ∃ got, got < 8
          ∧ run_csv (csv_prefix ++ csv_rest) = inl (NotEnoughValues got))).
Proof.
  intros Hst. split.
  - intros HN. apply collect_csv_from_inr in Hst as (rows & _ & ->).
    apply (all_filled_iff_capacity rows HN).
  - intros Hempty.
    assert (∀ csv, collect_csv (csv_prefix ++ csv)
                   = collect_csv_from st csv) as Happ.
    { intros csv. unfold Collector.collect_csv in *.
      by rewrite collect_csv_from_app, Hst. }
    split.
    + intros Hall.
      assert (collect_csv (csv_prefix ++ csv_rest) = inr st) as Hsame
        by (rewrite Happ; by apply collect_csv_from_filled).
      split; [done|]. unfold Collector.run_csv. by rewrite Hsame, Hst.
    + intros Hshort. unfold Collector.run_csv. rewrite Happ.
      destruct (collect_csv_from_short csv_rest st Hshort)
        as (got & Hgot & ->).
      eauto.
Qed.

(** *** The warning *)

Lemma accumulated_unfilled rows name :
  1 ≤ N_EXAMPLES_PER_CLASS →
  name ∈ unfilled_class_names (collect rows) →
  keys (accumulated name rows) = matching_images name rows.
Proof.
  intros HN Hin. pose proof (unfilled_subseteq_keys _ _ Hin) as Hname.
  apply unfilled_iff_short in Hin; [|done|done].
  revert Hin. rewrite accumulated_class_run by done. intros Hin.
  rewrite class_run_keys by (by apply needed_pos).
  pose proof (class_run_keys needed name rows (needed_pos HN)) as Hk.
  apply (f_equal length) in Hk. unfold keys in Hk at 1.
  rewrite length_fmap, length_take in Hk.
  apply take_ge. lia.
Qed.

Lemma warn_spec rows :
  1 ≤ N_EXAMPLES_PER_CLASS →
  (∃ name, name ∈ keys class_id_sets
           ∧ length (accumulated name rows) < needed) →
  ∃ w, out_warning (run rows) = Some w
       ∧ w_examples_per_class w = N_EXAMPLES_PER_CLASS
       ∧ w_batches w = BATCH_OFFSET + 1
       ∧ w_images_needed w = N_EXAMPLES_PER_CLASS * (BATCH_OFFSET + 1)
       ∧ NoDup (w_classes w).*1
       ∧ (∀ name found,
            (name, found) ∈ w_classes w
            ↔ name ∈ keys class_id_sets
              ∧ found = length (accumulated name rows)
              ∧ found < N_EXAMPLES_PER_CLASS * (BATCH_OFFSET + 1)).
Proof.
  intros HN (name0 & Hname0 & Hshort0).
  rewrite run_spec. cbn [out_warning]. unfold warn.
  assert (name0 ∈ unfilled_class_names (collect rows)) as Hin0
    by (by apply unfilled_iff_short).
  rewrite decide_False.
  2:{ intros Hlen%nil_length_inv. apply elem_of_elements in Hin0.
      rewrite Hlen in Hin0. by apply elem_of_nil in Hin0. }
  eexists. split; [done|]. cbn. split_and!; [done|done|done| |].
  - rewrite <-list_fmap_compose. csimpl. rewrite list_fmap_id.
    apply NoDup_elements.
  - intros name found. rewrite list_elem_of_fmap. split.
    + intros (n & [= -> ->] & Hn%elem_of_elements).
      pose proof (unfilled_subseteq_keys _ _ Hn) as Hname.
      split_and!; [done|done|]. by apply unfilled_iff_short in Hn.
    + intros (Hname & -> & Hshort). exists name. split; [done|].
      apply elem_of_elements. by apply unfilled_iff_short.
Qed.

End with_quota.

(** *** Offsets *)

Lemma py_last_n_suffix {A} (n : nat) (l : list A) :
  1 ≤ n →
  ∃ dropped, l = dropped ++ py_last_n n l
             ∧ length (py_last_n n l) = n `min` length l.
Proof.
  intros Hn. unfold py_last_n. rewrite decide_False by lia.
  exists (take (length l - n) l). split.
  - by rewrite take_drop.
  - rewrite length_drop. lia.
Qed.

(** C2 (amended).  For a quota of at least one, post-processing keeps
    exactly the last [N] of the groups accumulated for a class, in insertion
    order (all of them when there are fewer).  On the same stream, the image
    ids accumulated with offset [k] are a prefix, in insertion order, of
    those accumulated with offset [k + 1], and each group of the former is
    found at the same position in the latter with the same boxes first,
    possibly followed by more boxes.  The offset thus selects a window of
    [N] images at the end of a longer prefix of the matching images. *)
Theorem offset_window N k rows name :
  1 ≤ N → name ∈ keys class_id_sets →
  let acc := accumulated class_id_sets N k SKIP_IMAGES name rows in
  let acc' := accumulated class_id_sets N (k + 1) SKIP_IMAGES name rows in
  let batch := kept class_id_sets N k SKIP_IMAGES name rows in
  (∃ dropped, acc = dropped ++ batch ∧ length batch = N `min` length acc)
  ∧ keys acc `prefix_of` keys acc'
  ∧ (∀ i img boxes, acc !! i = Some (img, boxes) →
       ∃ boxes', acc' !! i = Some (img, boxes') ∧ boxes `prefix_of` boxes').
Proof.
  intros HN Hname acc acc' batch.
  assert (extends acc acc') as Hext.
  { unfold acc, acc'. rewrite !accumulated_class_run by done.
    apply class_run_ahead. unfold n_images_needed. nia. }
  split_and!.
  - unfold batch. rewrite kept_accumulated. by apply py_last_n_suffix.
  - by apply extends_keys.
  - intros i img boxes. by apply extends_lookup.
Qed.

Lemma kept_at_capacity N k prefix rest name :
  1 ≤ N → name ∈ keys class_id_sets →
  n_images_needed N k
    ≤ length (accumulated class_id_sets N k SKIP_IMAGES name prefix) →
  accumulated class_id_sets N k SKIP_IMAGES name (prefix ++ rest)
  = accumulated class_id_sets N k SKIP_IMAGES name prefix
  ∧ kept class_id_sets N k SKIP_IMAGES name (prefix ++ rest)
    = kept class_id_sets N k SKIP_IMAGES name prefix.
Proof.
  intros HN Hname Hfull. rewrite !kept_accumulated.
  by rewrite accumulated_at_capacity.
Qed.

Lemma kept_once_filled N k prefix rest name :
  name ∈ keys class_id_sets →
  name ∉ unfilled_class_names
           (collect class_id_sets N k SKIP_IMAGES prefix) →
  accumulated class_id_sets N k SKIP_IMAGES name (prefix ++ rest)
  = accumulated class_id_sets N k SKIP_IMAGES name prefix
  ∧ kept class_id_sets N k SKIP_IMAGES name (prefix ++ rest)
    = kept class_id_sets N k SKIP_IMAGES name prefix.
Proof.
  intros Hname Hout. rewrite !kept_accumulated.
  by rewrite accumulated_once_filled.
Qed.

Lemma filled_iff_capacity N k rows name :
  1 ≤ N → name ∈ keys class_id_sets →
  name ∉ unfilled_class_names (collect class_id_sets N k SKIP_IMAGES rows)
  ↔ n_images_needed N k
      ≤ length (accumulated class_id_sets N k SKIP_IMAGES name rows).
Proof.
  intros HN Hname. rewrite unfilled_iff_short by done. lia.
Qed.

End per_class.

(** *** The collector on the sample streams *)

Section samples.
Import Samples.

Local Ltac by_compute := apply (bool_decide_unpack _); vm_compute; exact I.

(** C8 (amended).  When the stream ends while some class holds fewer than
    its [N * (offset + 1)] images, the cell does not fail: it produces its
    output together with a warning that states the quota, the number of
    batches and their product, and lists each unfilled class once with the
    number of images found for it, a number below the required one (the
    shortfall itself is not printed).  The groups collected so far, which
    for an unfilled class hold every image of the stream that counts for it,
    go through the usual post-processing. *)
Theorem quota_unmet_warning class_id_sets SKIP_IMAGES N k rows :
  1 ≤ N →
  (∃ name, name ∈ keys class_id_sets
           ∧ length (accumulated class_id_sets N k SKIP_IMAGES name rows)
             < n_images_needed N k) →
  ∃ w, out_warning (run class_id_sets N k SKIP_IMAGES rows) = Some w
       ∧ w_examples_per_class w = N
       ∧ w_batches w = k + 1
       ∧ w_images_needed w = N * (k + 1)
       ∧ NoDup (w_classes w).*1
       ∧ (∀ name found,
            (name, found) ∈ w_classes w
            ↔ name ∈ keys class_id_sets
              ∧ found
                = length (accumulated class_id_sets N k SKIP_IMAGES name rows)
              ∧ found < N * (k + 1))
       ∧ (∀ name found,
            (name, found) ∈ w_classes w →
            keys (accumulated class_id_sets N k SKIP_IMAGES name rows)
            = matching_images class_id_sets SKIP_IMAGES name rows)
       ∧ (∀ name,
            kept class_id_sets N k SKIP_IMAGES name rows
            = class_bbs_batch N
                (accumulated class_id_sets N k SKIP_IMAGES name rows))
       ∧ (∀ name,
            length (accumulated class_id_sets N k SKIP_IMAGES name rows) ≤ N →
            kept class_id_sets N k SKIP_IMAGES name rows
            = accumulated class_id_sets N k SKIP_IMAGES name rows).
Proof.
  intros HN Hshort.
  destruct (warn_spec class_id_sets SKIP_IMAGES N k rows HN Hshort)
    as (w & Hw & H1 & H2 & H3 & Hnd & Hcls).
  exists w. split_and!; try done.
  - intros name found (Hname & -> & Hlt)%Hcls.
    apply accumulated_unfilled; [done|]. by apply unfilled_iff_short.
  - intros name. apply kept_accumulated.
  - intros name Hlen. rewrite kept_accumulated.
    unfold class_bbs_batch, py_last_n. rewrite decide_False by lia.
    replace (_ - N) with 0 by lia. done.
Qed.

Lemma quota_unmet_warning_witness :
  1 ≤ 3
  ∧ (∃ name, name ∈ keys sets
             ∧ length (accumulated sets 3 0 ∅ name rows) < n_images_needed 3 0)
  ∧ ∃ w, out_warning (run sets 3 0 ∅ rows) = Some w
         ∧ w_examples_per_class w = 3
         ∧ w_batches w = 0 + 1
         ∧ w_images_needed w = 3 * (0 + 1)
         ∧ NoDup (w_classes w).*1
         ∧ (∀ name found,
              (name, found) ∈ w_classes w
              ↔ name ∈ keys sets
                ∧ found = length (accumulated sets 3 0 ∅ name rows)
                ∧ found < 3 * (0 + 1))
         ∧ (∀ name found,
              (name, found) ∈ w_classes w →
              keys (accumulated sets 3 0 ∅ name rows)
              = matching_images sets ∅ name rows)
         ∧ (∀ name,
              kept sets 3 0 ∅ name rows
              = class_bbs_batch 3 (accumulated sets 3 0 ∅ name rows))
         ∧ (∀ name,
              length (accumulated sets 3 0 ∅ name rows) ≤ 3 →
              kept sets 3 0 ∅ name rows = accumulated sets 3 0 ∅ name rows).
Proof.
  assert (1 ≤ 3) as H1 by by_compute.
  assert (∃ name, name ∈ keys sets
            ∧ length (accumulated sets 3 0 ∅ name rows) < n_images_needed 3 0)
    as H2.
  { exists "Cat". split; by_compute. }
  split; [exact H1|]. split; [exact H2|].
  exact (quota_unmet_warning sets ∅ 3 0 rows H1 H2).
Defined.

(** C8, as stated, fails: with a quota of three, one cat image in the
    stream leaves a shortfall of two, but the number the warning gives for
    the class is one, the number of images found. *)
Lemma warning_gives_found_count :
  ∃ w, out_warning (run sets 3 0 ∅ rows) = Some w
       ∧ length (accumulated sets 3 0 ∅ "Cat" rows) = 1
       ∧ w_images_needed w - length (accumulated sets 3 0 ∅ "Cat" rows) = 2
       ∧ ("Cat", 1) ∈ w_classes w
       ∧ ("Cat", 2) ∉ w_classes w.
Proof.
  eexists. split; [vm_compute; reflexivity|].
  split_and!; [by vm_compute | by vm_compute | by_compute | by_compute].
Qed.

(** C9.  Post-processing merges the kept groups of all classes into one
    mapping keyed by image id: the boxes of an image are the concatenation,
    in class order, of the boxes kept for it by each class; the keys are
    pairwise distinct and are the images kept by at least one class; and the
    count reported is the number of distinct kept images.  On the three
    sample rows with a quota of one and offset 0 the mapping is
    [img1 -> [Boot box, Cat box]], and [img2] is absent. *)
Theorem merged_mapping :
  (∀ class_id_sets SKIP_IMAGES N k rows,
     let out := run class_id_sets N k SKIP_IMAGES rows in
     let batch name := kept class_id_sets N k SKIP_IMAGES name rows in
     (∀ img, dict_at [] img (bbs out)
             = concat ((λ name, dict_at [] img (batch name))
                       <$> first_seen (keys class_id_sets)))
     ∧ NoDup (keys (bbs out))
     ∧ (∀ img, img ∈ keys (bbs out)
               ↔ ∃ name, name ∈ keys class_id_sets ∧ img ∈ keys (batch name))
     ∧ n_images out
       = size (⋃ ((λ name, list_to_set (keys (batch name)))
                  <$> first_seen (keys class_id_sets)) : gset string))
  ∧ bbs (run sets 1 0 ∅ rows) = [("img1", [boot_box "0.1"; cat_box "0.2"])]
  ∧ n_images (run sets 1 0 ∅ rows) = 1
  ∧ "img2" ∉ keys (bbs (run sets 1 0 ∅ rows)).
Proof.
  split_and!.
  - intros class_id_sets SKIP_IMAGES N k rows0. apply merged_spec.
  - by vm_compute.
  - by vm_compute.
  - by_compute.
Qed.

(** C10 (amended).  Once a class has left [unfilled_class_names], which
    for a quota of at least one is exactly when it holds its
    [N * (offset + 1)] images, whatever follows in the stream leaves its
    groups as they are: no image is added and no box is appended to an
    image already collected.  A box of a collected image can therefore be
    missing: with a quota of one, the second boot of [img1] comes after the
    class is full and is not in the output. *)
Theorem full_class_ignores_rows :
  (∀ class_id_sets SKIP_IMAGES N k prefix rest name,
     name ∈ keys class_id_sets →
     name ∉ unfilled_class_names
              (collect class_id_sets N k SKIP_IMAGES prefix) →
     accumulated class_id_sets N k SKIP_IMAGES name (prefix ++ rest)
     = accumulated class_id_sets N k SKIP_IMAGES name prefix
     ∧ kept class_id_sets N k SKIP_IMAGES name (prefix ++ rest)
       = kept class_id_sets N k SKIP_IMAGES name prefix)
  ∧ (∀ class_id_sets SKIP_IMAGES N k prefix name,
       1 ≤ N → name ∈ keys class_id_sets →
       name ∉ unfilled_class_names
                (collect class_id_sets N k SKIP_IMAGES prefix)
       ↔ n_images_needed N k
           ≤ length (accumulated class_id_sets N k SKIP_IMAGES name prefix))
  ∧ (let late := mk "img1" "/m/01x3z" "0.2" in
     late ∈ boots
     ∧ counts_for sets ∅ "Boot" late
     ∧ box_of "Boot" late = boot_box "0.2"
     ∧ bbs (run sets 1 0 ∅ boots) = [("img1", [boot_box "0.1"])]).
Proof.
  split_and!.
  - intros class_id_sets SKIP_IMAGES N k prefix rest name.
    apply kept_once_filled.
  - intros class_id_sets SKIP_IMAGES N k prefix name.
    apply filled_iff_capacity.
  - split_and!; [|by_compute | done | by vm_compute].
    apply list_elem_of_further, list_elem_of_here.
Qed.

Lemma full_class_ignores_rows_witness :
  "Boot" ∈ keys sets
  ∧ ("Boot" ∉ unfilled_class_names (collect sets 1 0 ∅ (take 1 boots)))
  ∧ accumulated sets 1 0 ∅ "Boot" (take 1 boots ++ drop 1 boots)
    = accumulated sets 1 0 ∅ "Boot" (take 1 boots)
  ∧ kept sets 1 0 ∅ "Boot" (take 1 boots ++ drop 1 boots)
    = kept sets 1 0 ∅ "Boot" (take 1 boots).
Proof.
  assert ("Boot" ∈ keys sets) as H1 by by_compute.
  assert ("Boot" ∉ unfilled_class_names (collect sets 1 0 ∅ (take 1 boots)))
    as H2 by by_compute.
  split; [exact H1|]. split; [exact H2|].
  exact (proj1 full_class_ignores_rows sets ∅ 1 0 (take 1 boots)
           (drop 1 boots) "Boot" H1 H2).
Defined.

(** C10, as stated, fails for a quota of zero: the capacity is then zero
    images, which a class holds before any row is read, and yet the first
    row that matches the class is not ignored: its image is collected,
    with its box. *)
Lemma zero_capacity_class_takes_a_row :
  n_images_needed 0 0 ≤ length (accumulated sets 0 0 ∅ "Boot" [])
  ∧ counts_for sets ∅ "Boot" (mk "img1" "/m/01x3z" "0.1")
  ∧ accumulated sets 0 0 ∅ "Boot" [] = []
  ∧ accumulated sets 0 0 ∅ "Boot" ([] ++ boots)
    = [("img1", [boot_box "0.1"])].
Proof. split_and!; [by_compute | by_compute | done | by vm_compute]. Qed.

Lemma quota_capacity_witness :
  1 ≤ 1
  ∧ "Boot" ∈ keys sets
  ∧ ("Boot" ∈ unfilled_class_names (collect sets 1 0 ∅ rows)
     ↔ length (accumulated sets 1 0 ∅ "Boot" rows) < n_images_needed 1 0)
  ∧ NoDup (keys (accumulated sets 1 0 ∅ "Boot" rows))
  ∧ keys (accumulated sets 1 0 ∅ "Boot" rows)
    = take (n_images_needed 1 0) (matching_images sets ∅ "Boot" rows)
  ∧ (0 = 0 →
     1 ≤ length (matching_images sets ∅ "Boot" rows) →
     length (kept sets 1 0 ∅ "Boot" rows) = 1
     ∧ keys (kept sets 1 0 ∅ "Boot" rows)
       = take 1 (matching_images sets ∅ "Boot" rows)
     ∧ length (images_of_class "Boot" (bbs (run sets 1 0 ∅ rows))) = 1).
Proof.
  assert (1 ≤ 1) as H1 by by_compute.
  assert ("Boot" ∈ keys sets) as H2 by by_compute.
  split; [exact H1|]. split; [exact H2|].
  exact (quota_capacity sets ∅ 1 0 rows "Boot" H1 H2).
Defined.

Lemma offset_window_witness :
  1 ≤ 1
  ∧ "Boot" ∈ keys sets
  ∧ (∃ dropped,
       accumulated sets 1 1 ∅ "Boot" boots
       = dropped ++ kept sets 1 1 ∅ "Boot" boots
       ∧ length (kept sets 1 1 ∅ "Boot" boots)
         = 1 `min` length (accumulated sets 1 1 ∅ "Boot" boots))
  ∧ keys (accumulated sets 1 1 ∅ "Boot" boots)
    `prefix_of` keys (accumulated sets 1 (1 + 1) ∅ "Boot" boots)
  ∧ (∀ i img boxes,
       accumulated sets 1 1 ∅ "Boot" boots !! i = Some (img, boxes) →
       ∃ boxes',
         accumulated sets 1 (1 + 1) ∅ "Boot" boots !! i = Some (img, boxes')
         ∧ boxes `prefix_of` boxes').
Proof.
  assert (1 ≤ 1) as H1 by by_compute.
  assert ("Boot" ∈ keys sets) as H2 by by_compute.
  split; [exact H1|]. split; [exact H2|].
  exact (offset_window sets ∅ 1 1 boots "Boot" H1 H2).
Defined.

(** C2, as stated, fails: with a quota of one, offset 0 collects [img1]
    with its first boot only, while offset 1 goes on and collects both boots
    of [img1]; the group of offset 0 is not among those of offset 1, so the
    groups of the former are not a prefix of the groups of the latter. *)
Lemma offset_groups_not_prefix :
  accumulated sets 1 0 ∅ "Boot" boots = [("img1", [boot_box "0.1"])]
  ∧ accumulated sets 1 1 ∅ "Boot" boots
    = [("img1", [boot_box "0.1"; boot_box "0.2"]);
       ("img2", [boot_box "0.3"])]
  ∧ ¬ (accumulated sets 1 0 ∅ "Boot" boots
       `prefix_of` accumulated sets 1 1 ∅ "Boot" boots).
Proof.
  assert (accumulated sets 1 0 ∅ "Boot" boots = [("img1", [boot_box "0.1"])])
    as H0 by (by vm_compute).
  assert (accumulated sets 1 1 ∅ "Boot" boots
          = [("img1", [boot_box "0.1"; boot_box "0.2"]);
             ("img2", [boot_box "0.3"])]) as H1 by (by vm_compute).
  split_and!; [done|done|]. rewrite H0, H1. intros [rest Hrest].
  discriminate Hrest.
Qed.

Lemma rest_of_stream_is_read_witness :
  collect_csv sets 1 0 ∅ (fields <$> take 2 rows)
  = inr (collect sets 1 0 ∅ (take 2 rows))
  ∧ (1 ≤ 1 →
       unfilled_class_names (collect sets 1 0 ∅ (take 2 rows)) = ∅
       ↔ ∀ name, name ∈ keys sets →
            n_images_needed 1 0
            ≤ length (dict_at [] name
                        (class_bbs (collect sets 1 0 ∅ (take 2 rows)))))
  ∧ (unfilled_class_names (collect sets 1 0 ∅ (take 2 rows)) = ∅ →
     (Forall (λ fields, 8 ≤ length fields) (fields <$> drop 2 rows) →
        collect_csv sets 1 0 ∅
          ((fields <$> take 2 rows) ++ (fields <$> drop 2 rows))
        = inr (collect sets 1 0 ∅ (take 2 rows))
        ∧ run_csv sets 1 0 ∅
            ((fields <$> take 2 rows) ++ (fields <$> drop 2 rows))
          = run_csv sets 1 0 ∅ (fields <$> take 2 rows))
     ∧ (¬ Forall (λ fields, 8 ≤ length fields) (fields <$> drop 2 rows) →
        ∃ got, got < 8
          ∧ run_csv sets 1 0 ∅
              ((fields <$> take 2 rows) ++ (fields <$> drop 2 rows))
            = inl (NotEnoughValues got))).
Proof.
  assert (collect_csv sets 1 0 ∅ (fields <$> take 2 rows)
          = inr (collect sets 1 0 ∅ (take 2 rows))) as H
    by (vm_compute; reflexivity).
  split; [exact H|].
  exact (rest_of_stream_is_read sets ∅ 1 0 (fields <$> take 2 rows)
           (fields <$> drop 2 rows) (collect sets 1 0 ∅ (take 2 rows)) H).
Defined.

(** C3, as stated, fails.  With a quota of one, both classes hold their
    image after two rows and the cell, stopped there, has its output; a
    third row of two fields makes the cell raise instead: the row has been
    read, the stream has not halted, and the output on the whole stream is
    not the output on the prefix.  With a quota of zero every class holds
    its capacity of zero images before the first row, and yet the rows
    that follow are collected. *)
Lemma stream_is_read_to_its_end :
  (∀ name, name ∈ keys sets →
     n_images_needed 1 0
     ≤ length (accumulated sets 1 0 ∅ name (take 2 rows)))
  ∧ run_csv sets 1 0 ∅ (fields <$> take 2 rows)
    = inr (run sets 1 0 ∅ (take 2 rows))
  ∧ run_csv sets 1 0 ∅ ((fields <$> take 2 rows) ++ [["img3"; "xclick"]])
    = inl (NotEnoughValues 2)
  ∧ (∀ name, name ∈ keys sets →
       n_images_needed 0 0 ≤ length (accumulated sets 0 0 ∅ name []))
  ∧ n_images (run sets 0 0 ∅ []) = 0
  ∧ n_images (run sets 0 0 ∅ ([] ++ rows)) = 1.
Proof.
  split_and!; [|by vm_compute|by vm_compute| |by vm_compute|by vm_compute].
  - intros name Hn. change (keys sets) with ["Boot"; "Cat"] in Hn.
    apply elem_of_cons in Hn as [->|Hn]; [by_compute|].
    apply list_elem_of_singleton in Hn as ->. by_compute.
  - intros name _. unfold n_images_needed. lia.
Qed.

End samples.

End CollectorFacts.

(** ** The scenarios of the specification, evaluated *)

Module Scenarios.
Import Resolver Hierarchy Collector Notebook Samples.

Example resolve_boot_cat :
  resolve CLASS_NAMES table
  = inr [("Boot", Some "/m/01x3z"); ("Cat", Some "/m/0jbk")].
Proof. reflexivity. Qed.

Example resolve_upper_case :
  resolve ["CAT"] table = inr [("CAT", Some "/m/0jbk")].
Proof. reflexivity. Qed.

Example resolve_missing_name :
  resolve ["Boot"; "Dog"] table = inl (ValueError ["Dog"]).
Proof. reflexivity. Qed.

Example id_sets_boot_cat :
  class_id_sets [("Boot", Some "/m/01x3z"); ("Cat", Some "/m/0jbk")] hierarchy
  = sets.
Proof. by vm_compute. Qed.

Example birds_below_bird :
  get_all_subclasses "bird" birds = {[ "bird"; "swan"; "duck"; "mallard" ]}
  ∧ ("cat" ∉ get_all_subclasses "bird" birds)
  ∧ ("entity" ∉ get_all_subclasses "bird" birds).
Proof.
  split_and!; [by vm_compute | |];
    apply (bool_decide_unpack _); vm_compute; exact I.
Qed.

Example select_examples_rows :
  ∃ out, select_examples CLASS_NAMES table hierarchy 1 0 ∅ rows = inr out
         ∧ bbs out = [("img1", [boot_box "0.1"; cat_box "0.2"])]
         ∧ n_images out = 1.
Proof. eexists. split; [reflexivity|]. split; by vm_compute. Qed.

Example skipped_image_is_left_out :
  bbs (run sets 1 0 {[ "img1" ]} rows) = [("img2", [boot_box "0.3"])].
Proof. by vm_compute. Qed.

Example offset_one_takes_the_tail :
  kept sets 1 0 ∅ "Boot" boots = [("img1", [boot_box "0.1"])]
  ∧ kept sets 1 1 ∅ "Boot" boots = [("img2", [boot_box "0.3"])].
Proof. split; by vm_compute. Qed.

End Scenarios.

(** ** More on the collector *)

Module CollectorMore.
Import Collector CollectorView CollectorGrouping CollectorFacts.

Section more.
Variable class_id_sets : list (string * gset string).
Variable SKIP_IMAGES : gset string.

Abbreviation class_step := (class_step class_id_sets SKIP_IMAGES).
Abbreviation class_run := (class_run class_id_sets SKIP_IMAGES).
Abbreviation counts_for := (counts_for class_id_sets SKIP_IMAGES).
Abbreviation matching_images := (matching_images class_id_sets SKIP_IMAGES).

(** *** Grouping rows *)

Lemma group_rows_snoc name rs r :
  group_rows name (rs ++ [r])
  = append_box (img_id r) (box_of name r) (group_rows name rs).
Proof. unfold group_rows. by rewrite foldl_app. Qed.

Lemma foldl_append_at name img rs : ∀ g : Groups,
  dict_at [] img (foldl (λ g r, append_box (img_id r) (box_of name r) g) g rs)
  = dict_at [] img g
    ++ (box_of name <$> filter (λ r, img_id r = img) rs).
Proof.
  induction rs as [|r rs IH]; intros g; csimpl.
  - by rewrite app_nil_r.
  - rewrite IH. unfold append_box. rewrite dict_at_dd_update.
    rewrite filter_cons. destruct (decide (img = img_id r)) as [->|Hne].
    + rewrite decide_True by done. csimpl. by rewrite <-app_assoc.
    + rewrite decide_False by done. done.
Qed.

Lemma foldl_append_keys name rs : ∀ g : Groups,
  keys (foldl (λ g r, append_box (img_id r) (box_of name r) g) g rs)
  = first_seen_from (keys g) (img_id <$> rs).
Proof.
  induction rs as [|r rs IH]; intros g; csimpl; [done|].
  rewrite IH. unfold append_box. by rewrite keys_dd_update.
Qed.

Lemma group_rows_at name img rs :
  dict_at [] img (group_rows name rs)
  = box_of name <$> filter (λ r, img_id r = img) rs.
Proof. unfold group_rows. by rewrite foldl_append_at. Qed.

Lemma group_rows_keys name rs :
  keys (group_rows name rs) = first_seen (img_id <$> rs).
Proof. unfold group_rows. by rewrite foldl_append_keys. Qed.

(** The groups of a class are those of the rows that count for it in the
    part of the stream read while the class was unfilled. *)
Lemma class_run_from_used needed name rows : ∀ pre b,
  let σ := foldl (class_step needed name)
             (group_rows name (filter (counts_for name) pre), b) rows in
  ∃ used, used `prefix_of` rows
          ∧ σ.1 = group_rows name (filter (counts_for name) (pre ++ used))
          ∧ (σ.2 = true → used = rows).
Proof.
  induction rows as [|row rows IH]; intros pre b; csimpl.
  - exists []. by rewrite app_nil_r.
  - destruct b.
    2:{ rewrite class_step_closed, class_run_from_closed. exists [].
        split_and!; [apply prefix_nil | by rewrite app_nil_r | done]. }
    destruct (decide (counts_for name row)) as [[Hskip Hcls]|Hno].
    + assert (class_step needed name
                (group_rows name (filter (counts_for name) pre), true) row
              = (group_rows name (filter (counts_for name) (pre ++ [row])),
                 bool_decide
                   (length (group_rows name
                              (filter (counts_for name) (pre ++ [row])))
                    < needed))) as ->.
      { rewrite filter_app, filter_cons_True, filter_nil by done.
        rewrite group_rows_snoc.
        unfold CollectorView.class_step. csimpl.
        rewrite decide_False by done. by rewrite decide_True by done. }
      destruct (IH (pre ++ [row])
                  (bool_decide
                     (length (group_rows name
                                (filter (counts_for name) (pre ++ [row])))
                      < needed)))
        as (used & Hpre & Hg & Hopen).
      exists (row :: used). rewrite <-app_assoc in Hg. csimpl in Hg.
      split_and!; [by apply prefix_cons | done |].
      intros Ho. by rewrite Hopen.
    + assert (class_step needed name
                (group_rows name (filter (counts_for name) pre), true) row
              = (group_rows name (filter (counts_for name) (pre ++ [row])),
                 true)) as ->.
      { rewrite filter_app, filter_cons_False, app_nil_r by done.
        unfold CollectorView.class_step. csimpl.
        case_decide; [done|]. case_decide; [|done]. by destruct Hno. }
      destruct (IH (pre ++ [row]) true) as (used & Hpre & Hg & Hopen).
      exists (row :: used). rewrite <-app_assoc in Hg. csimpl in Hg.
      split_and!; [by apply prefix_cons | done |].
      intros Ho. by rewrite Hopen.
Qed.

(** The same, with the rows at which the class was still open told apart
    from the others. *)
Lemma class_run_from_split needed name rows : ∀ pre b,
  let from := foldl (class_step needed name)
                (group_rows name (filter (counts_for name) pre), b) in
  ∃ used rest,
    rows = used ++ rest
    ∧ (from rows).1 = group_rows name (filter (counts_for name) (pre ++ used))
    ∧ (∀ i, i < length used → (from (take i rows)).2 = true)
    ∧ (∀ i, length used ≤ i → i ≤ length rows → (from (take i rows)).2 = false
                                               ∨ i = length rows
                                                 ∧ length used = length rows).
Proof.
  induction rows as [|row rows IH]; intros pre b; cbv zeta.
  - exists [], []. rewrite (app_nil_r pre). split_and!; [done|done| |].
    + intros i Hi. csimpl in Hi. lia.
    + intros i _ Hi. apply Nat.le_0_r in Hi. right. by split.
  - destruct b.
    2:{ exists [], (row :: rows). rewrite (app_nil_r pre).
        split_and!; [done| | |].
        - by rewrite class_run_from_closed.
        - intros i Hi. csimpl in Hi. lia.
        - intros i _ _. left. by rewrite class_run_from_closed. }
    assert (∃ b', class_step needed name
                    (group_rows name (filter (counts_for name) pre), true) row
                  = (group_rows name (filter (counts_for name) (pre ++ [row])),
                     b')) as [b' Hstep].
    { destruct (decide (counts_for name row)) as [[Hskip Hcls]|Hno].
      - eexists. rewrite filter_app, filter_cons_True, filter_nil by done.
        rewrite group_rows_snoc.
        unfold CollectorView.class_step. csimpl.
        rewrite decide_False by done. by rewrite decide_True by done.
      - exists true. rewrite filter_app, filter_cons_False, app_nil_r by done.
        unfold CollectorView.class_step. csimpl.
        case_decide; [done|]. case_decide; [|done]. by destruct Hno. }
    destruct (IH (pre ++ [row]) b') as (used & rest & -> & Hg & Hin & Hout).
    exists (row :: used), rest. rewrite <-app_assoc in Hg. csimpl in Hg.
    split_and!; [done| | |].
    + csimpl. by rewrite Hstep.
    + intros [|i] Hi; csimpl; [done|]. rewrite Hstep. apply Hin.
      csimpl in Hi. lia.
    + intros [|i] Hi Hi'; csimpl in *; [lia|]. rewrite Hstep.
      destruct (Hout i) as [?|[-> ->]]; [lia|lia|by left|].
      right. by split.
Qed.

Lemma class_run_used needed name rows :
  ∃ used, used `prefix_of` rows
          ∧ (class_run needed name rows).1
            = group_rows name (filter (counts_for name) used)
          ∧ ((class_run needed name rows).2 = true → used = rows).
Proof. apply (class_run_from_used needed name rows [] true). Qed.

Section with_quota.
Variable N_EXAMPLES_PER_CLASS BATCH_OFFSET : nat.

Abbreviation needed := (n_images_needed N_EXAMPLES_PER_CLASS BATCH_OFFSET).
Abbreviation collect :=
  (collect class_id_sets N_EXAMPLES_PER_CLASS BATCH_OFFSET SKIP_IMAGES).
Abbreviation accumulated :=
  (accumulated class_id_sets N_EXAMPLES_PER_CLASS BATCH_OFFSET SKIP_IMAGES).
Abbreviation kept :=
  (kept class_id_sets N_EXAMPLES_PER_CLASS BATCH_OFFSET SKIP_IMAGES).
Abbreviation run :=
  (run class_id_sets N_EXAMPLES_PER_CLASS BATCH_OFFSET SKIP_IMAGES).

Lemma accumulated_outside rows name :
  name ∉ keys class_id_sets → accumulated name rows = [].
Proof.
  intros Hout. unfold Collector.accumulated, dict_at.
  assert (dget name (class_bbs (collect rows)) = None) as ->; [|done].
  apply dget_None. rewrite keys_class_bbs. by rewrite elem_of_class_names.
Qed.

Lemma accumulated_used rows name :
  ∃ used,
    used `prefix_of` rows
    ∧ keys (accumulated name rows)
      = first_seen (img_id <$> filter (counts_for name) used)
    ∧ (∀ img, dict_at [] img (accumulated name rows)
              = box_of name
                <$> filter (λ r, img_id r = img ∧ counts_for name r) used)
    ∧ (name ∈ unfilled_class_names (collect rows) → used = rows).
Proof.
  destruct (decide (name ∈ keys class_id_sets)) as [Hname|Hout].
  - destruct (class_run_used needed name rows) as (used & Hpre & Hg & Hopen).
    exists used. rewrite accumulated_class_run, Hg by done.
    split_and!; [done | apply group_rows_keys | |].
    + intros img. by rewrite group_rows_at, list_filter_filter.
    + intros Hun. apply Hopen. by apply unfilled_class_run in Hun as [_ ?].
  - exists []. rewrite accumulated_outside by done.
    split_and!; [apply prefix_nil | done | done |].
    intros Hun. by apply unfilled_subseteq_keys in Hun.
Qed.

Lemma elem_of_py_last_n {A} n (l : list A) x : x ∈ py_last_n n l → x ∈ l.
Proof.
  unfold py_last_n. case_decide; [done|].
  intros Hx. eapply elem_of_sublist; [done | apply sublist_drop].
Qed.

Lemma kept_subgroup rows name img boxes :
  (img, boxes) ∈ kept name rows → (img, boxes) ∈ accumulated name rows.
Proof. rewrite kept_accumulated. apply elem_of_py_last_n. Qed.

Lemma box_of_kept_from_row rows name img box :
  box ∈ dict_at [] img (kept name rows) →
  ∃ row, row ∈ rows ∧ counts_for name row ∧ img_id row = img
         ∧ box = box_of name row.
Proof.
  unfold dict_at at 1.
  destruct (dget img (kept name rows)) as [boxes|] eqn:Hget; csimpl;
    [|by intros ?%elem_of_nil].
  intros Hbox. apply dget_Some_elem, kept_subgroup in Hget.
  apply (dget_Some_NoDup _ _ _ (NoDup_keys_accumulated _ _ _ _ rows name))
    in Hget.
  destruct (accumulated_used rows name) as (used & Hpre & _ & Hat & _).
  specialize (Hat img). unfold dict_at in Hat. rewrite Hget in Hat.
  csimpl in Hat. rewrite Hat in Hbox.
  apply list_elem_of_fmap in Hbox as (row & -> & [[Himg Hcf] Hin]%list_elem_of_filter).
  exists row. split_and!; [|done|done|done].
  by eapply elem_of_prefix.
Qed.

(** X1.  The rows of the stream read while a class is in
    [unfilled_class_names] are a prefix of the stream: the class is there
    when each of them is read and is not there when any later row is
    read.  The groups accumulated for the class are exactly what grouping
    by image the rows of that prefix that count for the class gives: the
    images come in the order of their first such row, and the boxes of an
    image are those of its rows, in stream order.  For a class still
    unfilled at the end the prefix is the whole stream. *)
Theorem groups_of_read_prefix rows name :
  ∃ used rest,
    rows = used ++ rest
    ∧ (∀ i, i < length used →
         name ∈ unfilled_class_names (collect (take i rows)))
    ∧ (∀ i, length used ≤ i → i < length rows →
         name ∉ unfilled_class_names (collect (take i rows)))
    ∧ keys (accumulated name rows)
      = first_seen (img_id <$> filter (counts_for name) used)
    ∧ (∀ img, dict_at [] img (accumulated name rows)
              = box_of name
                <$> filter (λ r, img_id r = img ∧ counts_for name r) used)
    ∧ (name ∈ unfilled_class_names (collect rows) → used = rows).
Proof.
  destruct (decide (name ∈ keys class_id_sets)) as [Hname|Hout].
  - destruct (class_run_from_split needed name rows [] true)
      as (used & rest & Hrows & Hg & Hin & Hlate).
    cbv zeta in Hg, Hin, Hlate.
    change (foldl (class_step needed name)
              (group_rows name (filter (counts_for name) []), true))
      with (class_run needed name) in Hg, Hin, Hlate.
    csimpl in Hg.
    exists used, rest. rewrite accumulated_class_run by done. rewrite Hg.
    split_and!; [done| | |apply group_rows_keys| |].
    + intros i Hi. apply unfilled_class_run. split; [done|]. by apply Hin.
    + intros i Hi Hi'. rewrite unfilled_class_run. intros [_ Hopen].
      destruct (Hlate i) as [Hc|[? ?]]; [lia|lia| |lia]. congruence.
    + intros img. by rewrite group_rows_at, list_filter_filter.
    + intros [_ Hopen]%unfilled_class_run.
      destruct (Hlate (length rows)) as [Hc|[_ Hlen]].
      * rewrite Hrows, length_app. lia.
      * done.
      * rewrite firstn_all in Hc. congruence.
      * rewrite Hrows, length_app in Hlen.
        destruct rest; [by rewrite app_nil_r in Hrows|csimpl in Hlen; lia].
  - exists [], rows. rewrite accumulated_outside by done.
    split_and!; [done| | |done|done|].
    + intros i Hi. csimpl in Hi. lia.
    + intros i _ _ Hin. by apply unfilled_subseteq_keys in Hin.
    + intros Hun. by apply unfilled_subseteq_keys in Hun.
Qed.

(** X2.  Every box of the merged mapping comes from the stream: it is the
    box of a row of that image whose label is in the id set of a requested
    class and whose image is not skipped, and it carries the name of that
    class. *)
Theorem merged_boxes_from_rows rows img box :
  box ∈ dict_at [] img (bbs (run rows)) →
  ∃ name row,
    name ∈ keys class_id_sets ∧ row ∈ rows ∧ counts_for name row
    ∧ img_id row = img ∧ box = box_of name row.
Proof.
  destruct (merged_spec class_id_sets SKIP_IMAGES N_EXAMPLES_PER_CLASS
              BATCH_OFFSET rows) as (Hat & _).
  rewrite Hat. intros (boxes & Hboxes & Hbox)%elem_of_concat.
  apply list_elem_of_fmap in Hboxes as (name & -> & Hname).
  rewrite elem_of_first_seen in Hname.
  apply box_of_kept_from_row in Hbox as (row & ? & ? & ? & ?).
  exists name, row. done.
Qed.

(** X3.  An image of [SKIP_IMAGES] is never selected, whatever its rows:
    it is in no group of any class and is no key of the merged mapping. *)
Theorem skipped_images_never_selected rows img :
  img ∈ SKIP_IMAGES →
  (∀ name, img ∉ keys (accumulated name rows))
  ∧ img ∉ keys (bbs (run rows)).
Proof.
  intros Hskip.
  assert (∀ name, img ∉ keys (accumulated name rows)) as Hacc.
  { intros name Hin.
    destruct (accumulated_used rows name) as (used & _ & Hk & _).
    rewrite Hk, elem_of_first_seen in Hin.
    apply list_elem_of_fmap in Hin as (row & -> & [[Hns _] _]%list_elem_of_filter).
    done. }
  split; [done|]. intros Hin.
  destruct (merged_spec class_id_sets SKIP_IMAGES N_EXAMPLES_PER_CLASS
              BATCH_OFFSET rows) as (_ & _ & Hkeys & _).
  apply Hkeys in Hin as (name & _ & Hin).
  apply list_elem_of_fmap in Hin as ([i boxes] & -> & Hin).
  apply kept_subgroup in Hin. apply (Hacc name).
  by apply (list_elem_of_fmap_2 fst) in Hin.
Qed.

(** *** The order of iteration over the set *)

Lemma collect_in_order_canon order rows : ∀ σ st,
  (∀ X : gset string, NoDup (order X) ∧ ∀ x, x ∈ order X ↔ x ∈ X) →
  canon (class_names class_id_sets) σ st →
  canon (class_names class_id_sets)
    (λ n, foldl (class_step needed n) (σ n) rows)
    (foldl (step_in_order class_id_sets N_EXAMPLES_PER_CLASS BATCH_OFFSET
              SKIP_IMAGES order) st rows).
Proof.
  induction rows as [|row rows IH]; intros σ st Horder Hc; csimpl; [done|].
  apply (IH (λ n, class_step needed n (σ n) row)); [done|].
  apply step_in_order_canon; [done | apply NoDup_first_seen | done].
Qed.

Lemma collect_in_order_collect order rows :
  (∀ X : gset string, NoDup (order X) ∧ ∀ x, x ∈ order X ↔ x ∈ X) →
  collect_in_order class_id_sets N_EXAMPLES_PER_CLASS BATCH_OFFSET
    SKIP_IMAGES order rows
  = collect rows.
Proof.
  intros Horder.
  pose proof (collect_in_order_canon order rows (λ _, ([], true))
                (init_state class_id_sets) Horder
                (init_canon class_id_sets)) as [H1 H2].
  pose proof (collect_canon class_id_sets SKIP_IMAGES N_EXAMPLES_PER_CLASS
                BATCH_OFFSET rows) as [H3 H4].
  unfold collect_in_order.
  destruct (foldl _ _ rows) as [cb un], (collect rows) as [cb' un'].
  csimpl in *. unfold CollectorView.class_run in *. congruence.
Qed.

(** A row, with the copy of the set iterated in whatever order. *)
Lemma step_any_canon names σ st row st' :
  step_any class_id_sets N_EXAMPLES_PER_CLASS BATCH_OFFSET SKIP_IMAGES
    st row st' →
  NoDup names → canon names σ st →
  canon names (λ n, class_step needed n (σ n) row) st'.
Proof.
  intros [st0 row0 Hskip|st0 row0 order Hskip Hnd' Hel] Hnd Hc.
  - eapply canon_ext; [|done]. intros n _. unfold CollectorView.class_step.
    by rewrite decide_True.
  - set (order' := λ X : gset string,
           if decide (X = unfilled_class_names st0) then order
           else elements X).
    assert (∀ X : gset string,
              NoDup (order' X) ∧ ∀ x, x ∈ order' X ↔ x ∈ X) as Horder.
    { intros X. unfold order'. case_decide as HX.
      - subst X. by split.
      - apply elements_order. }
    pose proof (step_in_order_canon class_id_sets SKIP_IMAGES
                  N_EXAMPLES_PER_CLASS BATCH_OFFSET order' names σ st0 row0
                  Horder Hnd Hc) as Hstep.
    unfold Collector.step_in_order, order' in Hstep.
    rewrite decide_False in Hstep by done.
    by rewrite decide_True in Hstep by done.
Qed.

Lemma collect_any_canon names rows : ∀ σ st st',
  collect_any class_id_sets N_EXAMPLES_PER_CLASS BATCH_OFFSET SKIP_IMAGES
    st rows st' →
  NoDup names → canon names σ st →
  canon names (λ n, foldl (class_step needed n) (σ n) rows) st'.
Proof.
  induction rows as [|row rows IH]; intros σ st st' Hrun Hnd Hc.
  - inversion Hrun; by subst.
  - inversion Hrun as [|st0 row0 st1 rows0 st2 Hstep Hrest]; subst. csimpl.
    apply (IH (λ n, class_step needed n (σ n) row) st1); [done|done|].
    by apply (step_any_canon names σ st).
Qed.

(** X4.  The loop iterates over a copy of a set, whose order Python does
    not fix.  Whatever order is used at each row, the same or another from
    row to row, the loop ends in the same state. *)
Theorem collect_order_irrelevant rows st' :
  collect_any class_id_sets N_EXAMPLES_PER_CLASS BATCH_OFFSET SKIP_IMAGES
    (init_state class_id_sets) rows st' →
  st' = collect rows.
Proof.
  intros Hrun.
  pose proof (collect_any_canon (class_names class_id_sets) rows
                (λ _, ([], true)) (init_state class_id_sets) st' Hrun
                (NoDup_first_seen _) (init_canon class_id_sets)) as [H1 H2].
  pose proof (collect_canon class_id_sets SKIP_IMAGES N_EXAMPLES_PER_CLASS
                BATCH_OFFSET rows) as [H3 H4].
  destruct st' as [cb un], (collect rows) as [cb' un'].
  csimpl in *. unfold CollectorView.class_run in *. congruence.
Qed.

(** *** Bounds *)

Lemma length_first_seen_from {K} `{EqDecision K} (l acc : list K) :
  length (first_seen_from acc l) ≤ length acc + length l.
Proof.
  unfold first_seen_from. revert acc.
  induction l as [|x l IH]; intros acc; csimpl; [lia|].
  etrans; [apply IH|]. unfold add_new. case_decide; [lia|].
  rewrite length_app. csimpl. lia.
Qed.

Lemma length_concat_le {A B} (f : A → list B) n (l : list A) :
  (∀ x, x ∈ l → length (f x) ≤ n) →
  length (concat (f <$> l)) ≤ n * length l.
Proof.
  induction l as [|x l IH]; intros Hall; csimpl; [lia|].
  rewrite length_app.
  pose proof (Hall x (list_elem_of_here _ _)).
  assert (length (concat (f <$> l)) ≤ n * length l).
  { apply IH. intros y ?. by apply Hall, list_elem_of_further. }
  lia.
Qed.

Lemma length_kept rows name :
  1 ≤ N_EXAMPLES_PER_CLASS → length (kept name rows) ≤ N_EXAMPLES_PER_CLASS.
Proof.
  intros HN. rewrite kept_accumulated.
  unfold class_bbs_batch, py_last_n. rewrite decide_False by lia.
  rewrite length_drop. lia.
Qed.

Lemma length_accumulated rows name :
  1 ≤ N_EXAMPLES_PER_CLASS → length (accumulated name rows) ≤ needed.
Proof.
  intros HN. destruct (decide (name ∈ keys class_id_sets)) as [Hname|Hout].
  - rewrite accumulated_class_run by done.
    by destruct (class_run_inv class_id_sets SKIP_IMAGES needed name rows
                   (needed_pos _ _ HN)) as (_ & ? & _).
  - rewrite accumulated_outside by done. csimpl. lia.
Qed.

(** X5.  For a quota of at least one: a class never accumulates more than
    [N * (offset + 1)] images and never keeps more than [N]; the number of
    selected images is at most [N] times the number of classes, and at
    least the number of images kept by any one class. *)
Theorem selection_bounds rows :
  1 ≤ N_EXAMPLES_PER_CLASS →
  (∀ name, length (accumulated name rows)
           ≤ N_EXAMPLES_PER_CLASS * (BATCH_OFFSET + 1))
  ∧ (∀ name, length (kept name rows) ≤ N_EXAMPLES_PER_CLASS)
  ∧ n_images (run rows)
    ≤ N_EXAMPLES_PER_CLASS * length (first_seen (keys class_id_sets))
  ∧ (∀ name, name ∈ keys class_id_sets →
       length (kept name rows) ≤ n_images (run rows)).
Proof.
  intros HN.
  assert (n_images (run rows) = length (keys (bbs (run rows)))) as Hn.
  { by rewrite run_spec. }
  split_and!.
  - intros name. by apply length_accumulated.
  - intros name. by apply length_kept.
  - rewrite Hn, bbs_run, merge_all_keys. csimpl.
    etrans; [apply length_first_seen_from|]. csimpl.
    rewrite <-list_fmap_compose.
    apply (length_concat_le (λ name, keys (kept name rows))).
    intros name _. unfold keys. rewrite length_fmap. by apply length_kept.
  - intros name Hname. rewrite Hn.
    rewrite <-(length_fmap fst (kept name rows)).
    apply submseteq_length, NoDup_submseteq; [apply NoDup_keys_kept|].
    intros img Himg.
    destruct (merged_spec class_id_sets SKIP_IMAGES N_EXAMPLES_PER_CLASS
                BATCH_OFFSET rows) as (_ & _ & Hkeys & _).
    apply Hkeys. eauto.
Qed.

(** *** Windows *)

Lemma keys_kept_window rows name :
  1 ≤ N_EXAMPLES_PER_CLASS → name ∈ keys class_id_sets →
  needed ≤ length (matching_images name rows) →
  keys (kept name rows)
  = take N_EXAMPLES_PER_CLASS
      (drop (N_EXAMPLES_PER_CLASS * BATCH_OFFSET) (matching_images name rows)).
Proof.
  intros HN Hname Hmany. rewrite kept_accumulated.
  pose proof (class_run_keys class_id_sets SKIP_IMAGES needed name rows
                (needed_pos _ _ HN)) as Hkeys.
  rewrite <-accumulated_class_run in Hkeys by done.
  assert (length (accumulated name rows) = needed) as Hlen.
  { rewrite <-(length_fmap fst). fold (keys (accumulated name rows)).
    rewrite Hkeys, length_take. lia. }
  unfold class_bbs_batch, py_last_n, keys. rewrite decide_False by lia.
  rewrite fmap_drop. fold (keys (accumulated name rows)).
  rewrite Hkeys, Hlen, take_drop_commute. unfold n_images_needed.
  f_equal; [nia|]. f_equal. nia.
Qed.

End with_quota.

(** X6.  For a quota of at least one: when the stream has at least
    [N * (offset + 1)] distinct images that count for a class, the images kept for it are those numbered
    [N * offset + 1] to [N * (offset + 1)] among them; two different
    offsets served that way keep disjoint images for the class. *)
Theorem offsets_give_disjoint_windows N k k' rows name :
  1 ≤ N → name ∈ keys class_id_sets → k < k' →
  N * (k' + 1) ≤ length (matching_images name rows) →
  keys (kept class_id_sets N k SKIP_IMAGES name rows)
  = take N (drop (N * k) (matching_images name rows))
  ∧ keys (kept class_id_sets N k' SKIP_IMAGES name rows)
    = take N (drop (N * k') (matching_images name rows))
  ∧ (∀ img, img ∈ keys (kept class_id_sets N k SKIP_IMAGES name rows) →
            img ∉ keys (kept class_id_sets N k' SKIP_IMAGES name rows)).
Proof.
  intros HN Hname Hlt Hmany.
  assert (N * (k + 1) ≤ N * (k' + 1)) as Hle by nia.
  assert (keys (kept class_id_sets N k SKIP_IMAGES name rows)
          = take N (drop (N * k) (matching_images name rows))) as Hk.
  { apply keys_kept_window; [done|done|]. unfold n_images_needed. lia. }
  assert (keys (kept class_id_sets N k' SKIP_IMAGES name rows)
          = take N (drop (N * k') (matching_images name rows))) as Hk'.
  { apply keys_kept_window; [done|done|]. by unfold n_images_needed. }
  split_and!; [done|done|]. rewrite Hk, Hk'.
  intros img (i & Hi & Hin)%elem_of_take (j & Hj & Hjn)%elem_of_take.
  rewrite lookup_drop in Hi, Hj.
  assert (NoDup (matching_images name rows)) as Hnd by apply NoDup_first_seen.
  pose proof (NoDup_lookup _ _ _ _ Hnd Hi Hj). nia.
Qed.

(** *** A quota of zero *)

Lemma class_run_zero name rows :
  class_run 0 name rows
  = match filter (counts_for name) rows with
    | [] => ([], true)
    | r :: _ => ([(img_id r, [box_of name r])], false)
    end.
Proof.
  unfold CollectorView.class_run.
  induction rows as [|row rows IH]; [done|]. cbn [foldl].
  destruct (decide (counts_for name row)) as [[Hskip Hcls]|Hno].
  - rewrite filter_cons_True by done.
    assert (class_step 0 name ([], true) row
            = ([(img_id row, [box_of name row])], false)) as ->.
    { unfold CollectorView.class_step. csimpl.
      rewrite decide_False by done. by rewrite decide_True by done. }
    apply class_run_from_closed.
  - rewrite filter_cons_False by done.
    assert (class_step 0 name ([], true) row = ([], true)) as ->; [|done].
    unfold CollectorView.class_step. csimpl.
    case_decide; [done|]. case_decide; [|done]. by destruct Hno.
Qed.

(** X7.  A quota of zero does not select nothing.  [N * (offset + 1)] is
    then zero, a class leaves [unfilled_class_names] only after an append,
    and [l[-0:]] is all of [l]: every class with a row that counts for it
    collects the image of its first such row, with that one box, and keeps
    it. *)
Theorem zero_quota_selects_first_match k rows name :
  name ∈ keys class_id_sets →
  accumulated class_id_sets 0 k SKIP_IMAGES name rows
  = match filter (counts_for name) rows with
    | [] => []
    | r :: _ => [(img_id r, [box_of name r])]
    end
  ∧ kept class_id_sets 0 k SKIP_IMAGES name rows
    = accumulated class_id_sets 0 k SKIP_IMAGES name rows.
Proof.
  intros Hname. split.
  - rewrite accumulated_class_run by done.
    change (n_images_needed 0 k) with 0. rewrite class_run_zero.
    by destruct (filter _ rows).
  - by rewrite kept_accumulated.
Qed.

End more.

Section samples.
Import Samples.

Local Ltac by_compute := apply (bool_decide_unpack _); vm_compute; exact I.

Lemma merged_boxes_from_rows_witness :
  boot_box "0.1" ∈ dict_at [] "img1" (bbs (run sets 1 0 ∅ rows))
  ∧ ∃ name row,
      name ∈ keys sets ∧ row ∈ rows ∧ counts_for sets ∅ name row
      ∧ img_id row = "img1" ∧ boot_box "0.1" = box_of name row.
Proof.
  assert (boot_box "0.1" ∈ dict_at [] "img1" (bbs (run sets 1 0 ∅ rows)))
    as H by by_compute.
  split; [exact H|].
  exact (merged_boxes_from_rows sets ∅ 1 0 rows "img1" (boot_box "0.1") H).
Defined.

Lemma skipped_images_never_selected_witness :
  "img1" ∈ ({[ "img1" ]} : gset string)
  ∧ (∀ name, "img1" ∉ keys (accumulated sets 1 0 {[ "img1" ]} name rows))
  ∧ "img1" ∉ keys (bbs (run sets 1 0 {[ "img1" ]} rows)).
Proof.
  assert ("img1" ∈ ({[ "img1" ]} : gset string)) as H by by_compute.
  split; [exact H|].
  exact (skipped_images_never_selected sets {[ "img1" ]} 1 0 rows "img1" H).
Defined.

Lemma same_elements (order : list string) (X : gset string) :
  list_to_set order = X → ∀ name, name ∈ order ↔ name ∈ X.
Proof. intros <- name. by rewrite elem_of_list_to_set. Qed.

Lemma collect_order_irrelevant_witness :
  collect_any shoes 2 0 ∅ (init_state shoes) boots shoes_run
  ∧ shoes_run = collect shoes 2 0 ∅ boots.
Proof.
  assert (collect_any shoes 2 0 ∅ (init_state shoes) boots shoes_run) as H.
  { unfold boots, shoes_run.
    eapply collect_any_cons.
    { apply (step_visit shoes 2 0 ∅ _ _ ["Footwear"; "Boot"]);
        [by_compute | by_compute | apply same_elements; by_compute]. }
    eapply collect_any_cons.
    { apply (step_visit shoes 2 0 ∅ _ _ ["Boot"; "Footwear"]);
        [by_compute | by_compute | apply same_elements; by_compute]. }
    eapply collect_any_cons.
    { apply (step_visit shoes 2 0 ∅ _ _ ["Footwear"; "Boot"]);
        [by_compute | by_compute | apply same_elements; by_compute]. }
    apply collect_any_nil. }
  split; [exact H|].
  exact (collect_order_irrelevant shoes ∅ 2 0 boots shoes_run H).
Defined.

Lemma selection_bounds_witness :
  1 ≤ 1
  ∧ (∀ name, length (accumulated sets 1 0 ∅ name rows) ≤ 1 * (0 + 1))
  ∧ (∀ name, length (kept sets 1 0 ∅ name rows) ≤ 1)
  ∧ n_images (run sets 1 0 ∅ rows) ≤ 1 * length (first_seen (keys sets))
  ∧ (∀ name, name ∈ keys sets →
       length (kept sets 1 0 ∅ name rows) ≤ n_images (run sets 1 0 ∅ rows)).
Proof.
  assert (1 ≤ 1) as H by by_compute.
  split; [exact H|].
  exact (selection_bounds sets ∅ 1 0 rows H).
Defined.

Lemma offsets_give_disjoint_windows_witness :
  1 ≤ 1
  ∧ "Boot" ∈ keys sets
  ∧ 0 < 1
  ∧ 1 * (1 + 1) ≤ length (matching_images sets ∅ "Boot" boots)
  ∧ keys (kept sets 1 0 ∅ "Boot" boots)
    = take 1 (drop (1 * 0) (matching_images sets ∅ "Boot" boots))
  ∧ keys (kept sets 1 1 ∅ "Boot" boots)
    = take 1 (drop (1 * 1) (matching_images sets ∅ "Boot" boots))
  ∧ (∀ img, img ∈ keys (kept sets 1 0 ∅ "Boot" boots) →
            img ∉ keys (kept sets 1 1 ∅ "Boot" boots)).
Proof.
  assert (1 ≤ 1) as H1 by by_compute.
  assert ("Boot" ∈ keys sets) as H2 by by_compute.
  assert (0 < 1) as H3 by by_compute.
  assert (1 * (1 + 1) ≤ length (matching_images sets ∅ "Boot" boots))
    as H4 by by_compute.
  split; [exact H1|]. split; [exact H2|]. split; [exact H3|].
  split; [exact H4|].
  exact (offsets_give_disjoint_windows sets ∅ 1 0 1 boots "Boot" H1 H2 H3 H4).
Defined.

Lemma zero_quota_selects_first_match_witness :
  "Boot" ∈ keys sets
  ∧ accumulated sets 0 3 ∅ "Boot" boots
    = match filter (counts_for sets ∅ "Boot") boots with
      | [] => []
      | r :: _ => [(img_id r, [box_of "Boot" r])]
      end
  ∧ kept sets 0 3 ∅ "Boot" boots = accumulated sets 0 3 ∅ "Boot" boots.
Proof.
  assert ("Boot" ∈ keys sets) as H by by_compute.
  split; [exact H|].
  exact (zero_quota_selects_first_match sets ∅ 3 boots "Boot" H).
Defined.

End samples.

End CollectorMore.

(** ** More on the resolver *)

Module ResolverMore.
Import Resolver ResolverView ResolverFacts.

Section more.
Context `{UnicodeLower}.




(** *** What is left in [classes_lower_notfound] *)

Lemma elem_of_keys_ddel {V} (k x : string) (d : list (string * V)) :
  NoDup (keys d) → x ∈ keys (ddel k d) ↔ x ∈ keys d ∧ x ≠ k.
Proof.
  unfold keys. induction d as [|[k' v'] d IH]; csimpl; intros Hnd.
  - rewrite elem_of_nil. tauto.
  - apply NoDup_cons in Hnd as [Hk' Hnd]. case_decide as Hk.
    + subst. rewrite elem_of_cons. split.
      * intros Hx. split; [by right|]. by intros ->.
      * intros [[?|?] ?]; done.
    + csimpl. rewrite !elem_of_cons, IH by done. naive_solver.
Qed.

Lemma elem_of_ddel {V} (k : string) (e : string * V) (d : list (string * V)) :
  e ∈ ddel k d → e ∈ d.
Proof.
  induction d as [|[k' v'] d IH]; csimpl; [done|].
  case_decide; [by apply list_elem_of_further|].
  intros [->|?]%elem_of_cons;
    [apply list_elem_of_here | by apply list_elem_of_further, IH].
Qed.

Lemma NoDup_keys_ddel {V} (k : string) (d : list (string * V)) :
  NoDup (keys d) → NoDup (keys (ddel k d)).
Proof.
  unfold keys. induction d as [|[k' v'] d IH]; csimpl; intros Hnd; [done|].
  apply NoDup_cons in Hnd as [Hk' Hnd]. case_decide; [done|]. csimpl.
  apply NoDup_cons. split; [|by apply IH].
  intros Hin. apply Hk'. by apply (elem_of_keys_ddel k k' d Hnd) in Hin as [? _].
Qed.

Lemma keys_init_classes_lower_notfound names :
  keys (init_classes_lower_notfound names) = first_seen (lower <$> names).
Proof.
  assert (∀ d : list (string * string),
            keys (foldl (λ d s, dset (lower s) s d) d names)
            = first_seen_from (keys d) (lower <$> names)) as Hgen.
  { induction names as [|n names IH]; intros d; [done|].
    rewrite fmap_cons, first_seen_from_cons. csimpl.
    by rewrite IH, keys_dset. }
  apply (Hgen []).
Qed.

(** The keys left after a scan are those no row of the table matches. *)
Lemma scan_notfound_keys rows : ∀ ids nf,
  NoDup (keys nf) →
  ∀ k, k ∈ keys (scan rows ids nf).2
       ↔ k ∈ keys nf ∧ ∀ row, row ∈ rows → lower (display_name row) ≠ k.
Proof.
  induction rows as [|row rows IH]; intros ids nf Hnd k; csimpl.
  - split; [|tauto]. intros Hk. split; [done|]. by intros ? ?%elem_of_nil.
  - destruct (dget _ nf) as [m|] eqn:Hget.
    + pose proof (elem_of_keys_ddel (lower (display_name row)) k nf Hnd)
        as Hdel.
      case_decide as Hlen.
      * apply nil_length_inv in Hlen. csimpl. rewrite Hlen in Hdel |- *.
        split; [by intros ?%elem_of_nil|]. intros [Hk Hall].
        destruct (decide (k = lower (display_name row))) as [->|Hne].
        -- by destruct (Hall row (list_elem_of_here _ _)).
        -- apply Hdel. done.
      * rewrite IH by (by apply NoDup_keys_ddel). rewrite Hdel. split.
        -- intros [[Hk Hne] Hall]. split; [done|].
           intros r [->|Hr]%elem_of_cons; [done | by apply Hall].
        -- intros [Hk Hall]. split_and!; [done| |].
           ++ intros ->. by destruct (Hall row (list_elem_of_here _ _)).
           ++ intros r Hr. by apply Hall, list_elem_of_further.
    + rewrite IH by done. apply dget_None in Hget. split.
      * intros [Hk Hall]. split; [done|].
        intros r [->|Hr]%elem_of_cons; [|by apply Hall].
        intros Heq. apply Hget. by rewrite Heq.
      * intros [Hk Hall]. split; [done|].
        intros r Hr. by apply Hall, list_elem_of_further.
Qed.

Lemma resolve_notfound_keys names table k :
  k ∈ keys (scan table (init_class_root_ids names)
              (init_classes_lower_notfound names)).2
  ↔ ∃ n, n ∈ names ∧ lower n = k ∧ ∀ row, row ∈ table → ¬ matches n row.
Proof.
  rewrite scan_notfound_keys.
  2:{ rewrite keys_init_classes_lower_notfound. apply NoDup_first_seen. }
  rewrite keys_init_classes_lower_notfound, elem_of_first_seen.
  rewrite list_elem_of_fmap. unfold matches. split.
  - intros [(n & -> & Hn) Hall]. exists n. split_and!; [done|done|].
    intros row Hrow. by apply Hall.
  - intros (n & Hn & <- & Hall). split; [eauto|].
    intros row Hrow. by apply Hall.
Qed.

(** X9.  For any requested names, case variants of one another included,
    and whatever [str.lower()] does to text that is not ASCII: the lookup
    succeeds exactly when every requested name has a row whose display
    name has the same [str.lower()] as the name, and raises its
    [ValueError] exactly when some requested name has none. *)
Theorem resolve_succeeds_iff_all_match (names : list string) table :
  ((∃ ids, resolve names table = inr ids)
   ↔ ∀ n, n ∈ names → has_match table n)
  ∧ ((∃ errs, resolve names table = inl (ValueError errs))
     ↔ ∃ n, n ∈ names ∧ ∀ row, row ∈ table → ¬ matches n row).
Proof.
  pose proof (resolve_notfound_keys names table) as Hleft.
  unfold resolve. destruct (scan table _ _) as [ids nf]. csimpl in Hleft.
  destruct (decide (length nf = 0)) as [Hlen|Hlen].
  - apply nil_length_inv in Hlen. subst nf. split.
    + split; [|eauto]. intros _ n Hn.
      destruct (first_match n table) eqn:Hfm.
      * apply first_match_Some in Hfm as (row & (pre & post & -> & Hm & _) & _).
        exists row. split; [|done]. apply elem_of_app. right.
        apply list_elem_of_here.
      * exfalso. rewrite first_match_None in Hfm.
        assert (lower n ∈ keys (@nil (string * string))) as Hin
          by (apply Hleft; eauto).
        by apply elem_of_nil in Hin.
    + split; [by intros [? ?]|]. intros (n & Hn & Hall).
      assert (lower n ∈ keys (@nil (string * string))) as Hin
        by (apply Hleft; eauto).
      by apply elem_of_nil in Hin.
  - assert (∃ n, n ∈ names ∧ ∀ row, row ∈ table → ¬ matches n row) as Hun.
    { destruct nf as [|[k v] nf]; [done|].
      destruct (proj1 (Hleft k)) as (n & ? & _ & ?);
        [apply list_elem_of_here | eauto]. }
    split.
    + split; [by intros [? ?]|]. intros Hall.
      destruct Hun as (n & Hn & Hno). destruct (Hall n Hn) as (row & ? & ?).
      by destruct (Hno row).
    + split; [done|]. eauto.
Qed.

(** *** Where the ids come from *)

Lemma scan_sound table rows : ∀ pre ids nf,
  table = pre ++ rows →
  NoDup (keys nf) →
  (∀ k v, (k, v) ∈ nf → k = lower v) →
  (∀ k, k ∈ keys nf → ∀ r, r ∈ pre → lower (display_name r) ≠ k) →
  (∀ n i, dget n ids = Some (Some i) →
          ∃ row, first_matching_row n table row ∧ label_id row = i) →
  ∀ n i, dget n (scan rows ids nf).1 = Some (Some i) →
         ∃ row, first_matching_row n table row ∧ label_id row = i.
Proof.
  induction rows as [|row rows IH]; intros pre ids nf Htab Hnd Hkv Hpre Hids;
    csimpl; [done|].
  assert (table = (pre ++ [row]) ++ rows) as Htab'
    by (by rewrite <-app_assoc).
  destruct (dget _ nf) as [m|] eqn:Hget.
  - pose proof (dget_Some_elem _ _ _ Hget) as Hin.
    pose proof (Hkv _ _ Hin) as Hlow.
    assert (∀ n i,
              dget n (dset m (Some (label_id row)) ids) = Some (Some i) →
              ∃ row, first_matching_row n table row ∧ label_id row = i)
      as Hids'.
    { intros n i. rewrite dget_dset. case_decide as Hn; [|apply Hids].
      intros [= <-]. subst n. exists row. split; [|done].
      exists pre, rows. split_and!; [done|done|].
      intros r Hr Hm.
      apply (Hpre (lower (display_name row))) with (r := r); [|done|].
      - by apply (list_elem_of_fmap_2 fst) in Hin.
      - unfold matches in Hm. congruence. }
    case_decide; [done|].
    apply (IH (pre ++ [row])); [done | by apply NoDup_keys_ddel | | | done].
    + intros k v Hkvin. apply Hkv. by eapply elem_of_ddel.
    + intros k Hk r Hr. apply (elem_of_keys_ddel _ _ _ Hnd) in Hk as [Hk Hne].
      apply elem_of_app in Hr as [Hr|Hr%list_elem_of_singleton].
      * by apply Hpre.
      * subst r. by intros <-.
  - apply (IH (pre ++ [row])); [done|done|done| |done].
    apply dget_None in Hget.
    intros k Hk r Hr. apply elem_of_app in Hr as [Hr|Hr%list_elem_of_singleton].
    + by apply Hpre.
    + subst r. by intros <-.
Qed.

Lemma init_classes_lower_notfound_keyed names :
  ∀ k v, (k, v) ∈ init_classes_lower_notfound names → k = lower v.
Proof.
  unfold init_classes_lower_notfound.
  assert (∀ d : list (string * string),
            (∀ k v, (k, v) ∈ d → k = lower v) →
            ∀ k v, (k, v) ∈ foldl (λ d s, dset (lower s) s d) d names →
                   k = lower v) as Hgen.
  { induction names as [|n names IH]; intros d Hd; [done|].
    csimpl. apply IH. clear IH. intros k v.
    induction d as [|[k' v'] d IHd]; csimpl.
    - by intros [= -> ->]%list_elem_of_singleton.
    - case_decide as Hk.
      + intros [[= -> ->]|Hin]%elem_of_cons; [done|].
        apply Hd. by apply list_elem_of_further.
      + intros [[= -> ->]|Hin]%elem_of_cons.
        * apply Hd, list_elem_of_here.
        * apply IHd; [|done]. intros k0 v0 ?.
          by apply Hd, list_elem_of_further. }
  apply Hgen. by intros k v ?%elem_of_nil.
Qed.

Lemma init_class_root_ids_None names n i :
  dget n (init_class_root_ids names) ≠ Some (Some i).
Proof.
  unfold init_class_root_ids.
  assert (∀ d : list (string * option string),
            (∀ n, dget n d ≠ Some (Some i)) →
            ∀ n, dget n (foldl (λ d s, dset s None d) d names)
                 ≠ Some (Some i)) as Hgen.
  { induction names as [|x names IH]; intros d Hd; [done|].
    csimpl. apply IH. intros n'. rewrite dget_dset. by case_decide. }
  by apply Hgen.
Qed.

(** X10.  For any requested names and table, and whatever [str.lower()]
    does to text that is not ASCII, a successful lookup returns one entry
    per distinct requested name, in the order of first request, and every
    id it holds is the [label_id] of the first row of the table, in table
    order, whose display name has the same [str.lower()] as that name.  No
    name receives the id of a row that does not match it. *)
Theorem resolve_sound (names : list string) table ids :
  resolve names table = inr ids →
  keys ids = first_seen names
  ∧ ∀ n i, dget n ids = Some (Some i) →
           ∃ row, first_matching_row n table row ∧ label_id row = i.
Proof.
  intros Hres. split; [by eapply resolve_keys|].
  revert Hres. unfold resolve.
  pose proof (scan_sound table table [] (init_class_root_ids names)
                (init_classes_lower_notfound names)) as Hs.
  destruct (scan table _ _) as [ids' nf]. csimpl in Hs.
  case_decide; [|done]. intros [= <-]. apply Hs; [done| | | |].
  - rewrite keys_init_classes_lower_notfound. apply NoDup_first_seen.
  - apply init_classes_lower_notfound_keyed.
  - by intros k _ r ?%elem_of_nil.
  - intros n i Hget. by apply init_class_root_ids_None in Hget.
Qed.


(** Names are compared by their [str.lower()], whatever the script: a
    name and a display name that Unicode lower-cases alike match. *)
Example resolve_beyond_ascii :
  lower "CAFÉ" = lower "Café" →
  resolve ["CAFÉ"] [{| label_id := "/m/x"; display_name := "Café" |}]
  = inr [("CAFÉ", Some "/m/x")].
Proof.
  intros Heq. unfold resolve, init_class_root_ids,
    init_classes_lower_notfound. cbn [foldl dset scan display_name dget].
  rewrite Heq. rewrite decide_True by done. cbn [ddel].
  rewrite !(decide_True (P := lower "Café" = lower "Café")) by done.
  by destruct (decide (length [] = 0)).
Qed.

End more.

Section samples.
Import Samples.


Lemma resolve_sound_witness :
  resolve ["Boot"; "Cat"] table
  = inr [("Boot", Some "/m/01x3z"); ("Cat", Some "/m/0jbk")]
  ∧ keys [("Boot", Some "/m/01x3z"); ("Cat", Some "/m/0jbk")]
    = first_seen ["Boot"; "Cat"]
  ∧ ∀ n i,
      dget n [("Boot", Some "/m/01x3z"); ("Cat", Some "/m/0jbk")]
      = Some (Some i) →
      ∃ row, first_matching_row n table row ∧ label_id row = i.
Proof.
  assert (resolve ["Boot"; "Cat"] table
          = inr [("Boot", Some "/m/01x3z"); ("Cat", Some "/m/0jbk")])
    as H by (vm_compute; reflexivity).
  split; [exact H|].
  exact (resolve_sound ["Boot"; "Cat"] table
           [("Boot", Some "/m/01x3z"); ("Cat", Some "/m/0jbk")] H).
Defined.

End samples.

End ResolverMore.

(** ** More on the label hierarchy *)

Module HierarchyMore.
Import Hierarchy HierarchyFacts.

(** X11.  Whatever the tree, also when a label occurs at several nodes as
    in the OpenImages hierarchy: the expansion of [class_id] is the set of
    the labels found at or below some node labelled [class_id]. *)
Theorem get_all_subclasses_all_occurrences class_id x t :
  x ∈ get_all_subclasses class_id t
  ↔ ∃ n, n ∈ nodes t ∧ label n = class_id ∧ x ∈ labels n.
Proof. apply get_all_subclasses_elem. Qed.

Lemma label_in_labels t : label t ∈ labels t.
Proof. apply elem_of_labels. exists t. split; [apply nodes_self | done]. Qed.

(** X12.  The expansion is empty exactly when no node carries the id; when
    some node does, the id itself is in the expansion; and the expansion
    only holds labels of the tree.  Callers can thus test for emptiness to
    detect an unknown id. *)
Theorem get_all_subclasses_empty_iff class_id t :
  (get_all_subclasses class_id t = ∅ ↔ class_id ∉ labels t)
  ∧ (class_id ∈ labels t → class_id ∈ get_all_subclasses class_id t)
  ∧ (∀ x, x ∈ get_all_subclasses class_id t → x ∈ labels t).
Proof.
  assert (class_id ∈ labels t → class_id ∈ get_all_subclasses class_id t)
    as Hself.
  { intros (n & Hn & Hl)%elem_of_labels. apply get_all_subclasses_elem.
    exists n. split_and!; [done|done|]. rewrite <-Hl. apply label_in_labels. }
  split_and!; [|done|].
  - split.
    + intros Hempty Hin. apply Hself in Hin. rewrite Hempty in Hin.
      by apply elem_of_empty in Hin.
    + intros Hout. apply set_eq. intros x.
      rewrite get_all_subclasses_elem, elem_of_empty. split; [|done].
      intros (n & Hn & Hl & _). apply Hout, elem_of_labels. eauto.
  - intros x (n & Hn & _ & Hx)%get_all_subclasses_elem.
    apply elem_of_labels in Hx as (m & Hm & <-).
    apply elem_of_labels. exists m. split; [|done].
    by apply (nodes_trans t n).
Qed.

(** X13.  In a tree whose labels are pairwise distinct, expansion is
    transitive: the expansion of any id found in an expansion is contained
    in it. *)
Theorem get_all_subclasses_transitive class_id x t :
  NoDup (labels t) →
  x ∈ get_all_subclasses class_id t →
  get_all_subclasses x t ⊆ get_all_subclasses class_id t.
Proof.
  intros Hnd (n & Hn & Hl & Hx)%get_all_subclasses_elem y.
  rewrite !get_all_subclasses_elem.
  intros (m & Hm & Hlm & Hy).
  apply elem_of_labels in Hx as (m' & Hm' & Hlm').
  assert (m' = m) as ->.
  { apply (NoDup_fmap_elem_inj label (nodes t)); [done| |done|congruence].
    by apply (nodes_trans t n). }
  exists n. split_and!; [done|done|].
  apply elem_of_labels in Hy as (p & Hp & <-).
  apply elem_of_labels. exists p. split; [|done]. by apply (nodes_trans n m).
Qed.


Section samples.
Import Samples.

Local Ltac by_compute := apply (bool_decide_unpack _); vm_compute; exact I.

Lemma get_all_subclasses_transitive_witness :
  NoDup (labels birds)
  ∧ "duck" ∈ get_all_subclasses "bird" birds
  ∧ get_all_subclasses "duck" birds ⊆ get_all_subclasses "bird" birds.
Proof.
  assert (NoDup (labels birds)) as H1 by by_compute.
  assert ("duck" ∈ get_all_subclasses "bird" birds) as H2 by by_compute.
  split; [exact H1|]. split; [exact H2|].
  exact (get_all_subclasses_transitive "bird" "duck" birds H1 H2).
Defined.

End samples.

End HierarchyMore.

(** ** Python strings *)

Module PyStrFacts.
Import PyStr.

Lemma str_app_cons a (s t : string) : String a s +:+ t = String a (s +:+ t).
Proof. done. Qed.

Lemma str_app_nil_l (s : string) : "" +:+ s = s.
Proof. done. Qed.

Lemma str_app_nil_r (s : string) : s +:+ "" = s.
Proof. induction s as [|a s IH]; [done|]. by rewrite str_app_cons, IH. Qed.

Lemma str_app_assoc (s t u : string) : (s +:+ t) +:+ u = s +:+ (t +:+ u).
Proof. induction s as [|a s IH]; [done|]. by rewrite !str_app_cons, IH. Qed.

Lemma str_length_app (s t : string) :
  String.length (s +:+ t) = String.length s + String.length t.
Proof. induction s as [|a s IH]; [done|]. rewrite str_app_cons. csimpl. by rewrite IH. Qed.

Lemma str_app_inv_tail (s t u : string) : s +:+ u = t +:+ u → s = t.
Proof.
  revert t. induction s as [|a s IH]; intros [|b t] Heq; [done| | |].
  - apply (f_equal String.length) in Heq.
    rewrite str_app_nil_l, str_app_cons in Heq. csimpl in Heq.
    rewrite str_length_app in Heq. lia.
  - apply (f_equal String.length) in Heq.
    rewrite str_app_nil_l, str_app_cons in Heq. csimpl in Heq.
    rewrite str_length_app in Heq. lia.
  - rewrite !str_app_cons in Heq. injection Heq as -> Heq. f_equal. by apply IH.
Qed.

Lemma str_app_inv_head (s t u : string) : u +:+ s = u +:+ t → s = t.
Proof.
  induction u as [|a u IH]; [done|]. rewrite !str_app_cons. intros Heq.
  injection Heq as Heq. by apply IH.
Qed.

Lemma has_char_app c (s t : string) :
  has_char c (s +:+ t) = has_char c s || has_char c t.
Proof.
  induction s as [|a s IH]; [done|]. rewrite str_app_cons. csimpl.
  by case_decide.
Qed.

Lemma drop_bytes_nil k : drop_bytes k "" = "".
Proof. by destruct k. Qed.

Lemma drop_bytes_app k (s t : string) :
  k ≤ String.length s → drop_bytes k (s +:+ t) = drop_bytes k s +:+ t.
Proof.
  revert s. induction k as [|k IH]; intros [|a s] Hk; csimpl in *;
    [done|done|lia|].
  apply IH. lia.
Qed.

Lemma drop_bytes_app_ge k (s t : string) :
  String.length s ≤ k →
  drop_bytes k (s +:+ t) = drop_bytes (k - String.length s) t.
Proof.
  revert k. induction s as [|a s IH]; intros k Hk; csimpl in *.
  - by rewrite Nat.sub_0_r.
  - destruct k as [|k]; [lia|]. csimpl. apply IH. lia.
Qed.

Lemma drop_bytes_add a b (s : string) :
  drop_bytes a (drop_bytes b s) = drop_bytes (b + a) s.
Proof.
  revert s. induction b as [|b IH]; intros s; [done|].
  destruct s as [|c s]; csimpl; [apply drop_bytes_nil | apply IH].
Qed.

Lemma has_char_drop_bytes c k (s : string) :
  has_char c s = false → has_char c (drop_bytes k s) = false.
Proof.
  revert s. induction k as [|k IH]; intros [|a s]; csimpl; try done.
  case_decide; [done|]. apply IH.
Qed.

(** Slicing drops whole characters: after as many characters as the
    prefix has, what is left is the rest. *)
Lemma string_drop_app n (s t : string) :
  is_chars n s = true → string_drop n (s +:+ t) = t.
Proof.
  revert s. induction n as [|n IH]; intros [|a s]; csimpl; try done.
  intros [Hw Hs]%andb_prop. apply Nat.leb_le in Hw.
  rewrite drop_bytes_app by done. by apply IH.
Qed.

(** Slicing [n] characters off drops at least [n] bytes, or everything. *)
Lemma string_drop_bytes n (s : string) :
  ∃ k, n ≤ k ∧ string_drop n s = drop_bytes k s.
Proof.
  revert s. induction n as [|n IH]; intros s.
  - by exists 0.
  - destruct s as [|a s]; csimpl.
    + by exists (S n).
    + destruct (IH (drop_bytes (utf8_width a - 1) s)) as (k & Hk & ->).
      exists (S (utf8_width a - 1 + k)). split; [lia|].
      by rewrite drop_bytes_add.
Qed.

(** [partition] splits at the first separator. *)
Lemma partition_app sep (h t : string) :
  has_char sep h = false →
  partition sep (h +:+ String sep t) = (h, String sep "", t).
Proof.
  induction h as [|a h IH]; csimpl.
  - intros _. by rewrite decide_True.
  - case_decide; [done|]. intros Hh. by rewrite IH.
Qed.

Lemma partition_not_found sep (s : string) :
  has_char sep s = false → partition sep s = (s, "", "").
Proof.
  induction s as [|a s IH]; csimpl; [done|].
  case_decide; [done|]. intros Hs. by rewrite IH.
Qed.

(** [rpartition] splits at the last separator. *)
Lemma rpartition_not_found sep (s : string) :
  has_char sep s = false → rpartition sep s = ("", "", s).
Proof.
  induction s as [|a s IH]; csimpl; [done|].
  case_decide; [done|]. intros Hs. by rewrite IH.
Qed.

Lemma rpartition_app sep (h t : string) :
  has_char sep t = false →
  rpartition sep (h +:+ String sep t) = (h, String sep "", t).
Proof.
  intros Ht. induction h as [|a h IH].
  - rewrite str_app_nil_l. csimpl. rewrite rpartition_not_found by done.
    by rewrite decide_True.
  - rewrite str_app_cons. csimpl. by rewrite IH.
Qed.

Lemma rpartition_spec sep (s : string) :
  ∃ h m t, rpartition sep s = (h, m, t)
    ∧ s = h +:+ m +:+ t
    ∧ has_char sep t = false
    ∧ (m = "" ∧ h = "" ∨ m = String sep "").
Proof.
  induction s as [|a s (h & m & t & Heq & Hs & Ht & Hm)]; csimpl.
  - exists "", "", "". split_and!; [done..|]. by left.
  - rewrite Heq. destruct m as [|b m].
    + destruct Hm as [[_ ->]|?]; [|done]. rewrite !str_app_nil_l in Hs. subst s.
      case_decide as Ha.
      * subst a. exists "", (String sep ""), t. split_and!; [done..|]. by right.
      * exists "", "", (String a t). split_and!; [done|done| |by left].
        csimpl. by rewrite decide_False.
    + destruct Hm as [[? _]|Hm]; [done|].
      exists (String a h), (String b m), t. split_and!; [done| |done|by right].
      by rewrite str_app_cons, <-Hs.
Qed.

Lemma rpartition_tail sep (s : string) :
  has_char sep (rpartition sep s).2 = false.
Proof. by destruct (rpartition_spec sep s) as (h & m & t & -> & _ & ? & _). Qed.

End PyStrFacts.

(** ** The manifests *)

Module ManifestFacts.
Import PyStr PyStrFacts Manifest ManifestView PyDictFacts.

Section facts.
Context {J : Type}.
Implicit Types (datum : list (string * value J)).
Implicit Types (source : list (list (string * value J))).

(** *** Dictionaries once more *)

Lemma dset_dset {V} (k : string) (v v' : V) (d : list (string * V)) :
  dset k v' (dset k v d) = dset k v' d.
Proof.
  induction d as [|[k0 v0] d IH]; csimpl.
  - by rewrite decide_True.
  - case_decide; csimpl.
    + by rewrite decide_True.
    + rewrite decide_False by done. by rewrite IH.
Qed.

Lemma dget_ddel_ne {V} (k k' : string) (d : list (string * V)) :
  k' ≠ k → dget k' (ddel k d) = dget k' d.
Proof.
  intros Hne. induction d as [|[k0 v0] d IH]; csimpl; [done|].
  destruct (decide (k = k0)) as [->|Hk]; csimpl.
  - by rewrite decide_False.
  - by rewrite IH.
Qed.

Lemma dget_ddel_eq {V} (k : string) (d : list (string * V)) :
  NoDup (keys d) → dget k (ddel k d) = None.
Proof.
  intros Hnd. apply dget_None.
  rewrite ResolverMore.elem_of_keys_ddel by done. naive_solver.
Qed.

(** *** Step 4 *)

Lemma write_input_manifest_from BUCKET_NAME prefix image_ids :
  ∀ acc : list copy * list (list (string * value J)),
  foldl (write_image BUCKET_NAME prefix) acc image_ids
  = (acc.1 ++ (image_copy prefix <$> image_ids),
     acc.2 ++ (image_line BUCKET_NAME prefix <$> image_ids)).
Proof.
  induction image_ids as [|i image_ids IH]; intros [cs ls]; csimpl.
  - by rewrite !app_nil_r.
  - rewrite IH. csimpl. by rewrite <-!(assoc_L (++)).
Qed.

Lemma write_input_manifest_spec BUCKET_NAME prefix image_ids :
  write_input_manifest (J := J) BUCKET_NAME prefix image_ids
  = (image_copy prefix <$> image_ids,
     image_line BUCKET_NAME prefix <$> image_ids).
Proof. apply write_input_manifest_from. Qed.

Lemma image_key_inj prefix a b :
  image_key prefix a = image_key prefix b → a = b.
Proof.
  unfold image_key. intros Heq.
  apply str_app_inv_head, str_app_inv_head in Heq. by apply str_app_inv_tail in Heq.
Qed.

Lemma s3_uri_inj BUCKET_NAME a b :
  s3_uri BUCKET_NAME a = s3_uri BUCKET_NAME b → a = b.
Proof.
  unfold s3_uri. intros Heq.
  by apply str_app_inv_head, str_app_inv_head, str_app_inv_head in Heq.
Qed.

Lemma NoDup_fmap_inj_on {A B} (f : A → B) (l : list A) :
  (∀ x y, f x = f y → x = y) → NoDup l → NoDup (f <$> l).
Proof.
  intros Hinj. induction 1 as [|x l Hx Hnd IH]; csimpl; [apply NoDup_nil_2|].
  apply NoDup_cons. split; [|done].
  intros (y & Heq & Hy)%list_elem_of_fmap. apply Hinj in Heq. by subst.
Qed.

Lemma NoDup_keys_bbs class_id_sets N_EXAMPLES_PER_CLASS BATCH_OFFSET
    SKIP_IMAGES rows :
  NoDup (keys (Collector.bbs
    (Collector.run class_id_sets N_EXAMPLES_PER_CLASS BATCH_OFFSET
       SKIP_IMAGES rows))).
Proof.
  rewrite CollectorFacts.bbs_run, CollectorFacts.merge_all_keys.
  apply NoDup_first_seen_from, NoDup_nil_2.
Qed.

Lemma n_images_run class_id_sets N_EXAMPLES_PER_CLASS BATCH_OFFSET
    SKIP_IMAGES rows :
  let out := Collector.run class_id_sets N_EXAMPLES_PER_CLASS BATCH_OFFSET
               SKIP_IMAGES rows in
  Collector.n_images out = length (keys (Collector.bbs out)).
Proof. intros out. unfold out. by rewrite CollectorFacts.run_spec. Qed.

(** X14. Step 4, run on the images the collector selected, makes one copy
    and writes one line per selected image; every copy reads
    [test/<image>.jpg] for a selected image; no two copies have the same
    destination key and no two lines are equal. *)
Theorem input_manifest_one_line_per_image BUCKET_NAME prefix class_id_sets
    N_EXAMPLES_PER_CLASS BATCH_OFFSET SKIP_IMAGES rows :
  let out := Collector.run class_id_sets N_EXAMPLES_PER_CLASS BATCH_OFFSET
               SKIP_IMAGES rows in
  let m := write_input_manifest (J := J) BUCKET_NAME prefix
             (keys (Collector.bbs out)) in
  length m.1 = Collector.n_images out
  ∧ length m.2 = Collector.n_images out
  ∧ NoDup (dest_key <$> m.1)
  ∧ NoDup m.2
  ∧ ∀ c, c ∈ m.1 →
      ∃ image_id, image_id ∈ keys (Collector.bbs out)
        ∧ source_key c = "test/" +:+ image_id +:+ ".jpg"
        ∧ dest_key c = prefix +:+ "/images/" +:+ image_id +:+ ".jpg".
Proof.
  cbv zeta. rewrite write_input_manifest_spec. csimpl.
  pose proof (NoDup_keys_bbs class_id_sets N_EXAMPLES_PER_CLASS BATCH_OFFSET
                SKIP_IMAGES rows) as Hnd.
  rewrite !length_fmap.
  pose proof (n_images_run class_id_sets N_EXAMPLES_PER_CLASS BATCH_OFFSET
                SKIP_IMAGES rows) as Hn. cbv zeta in Hn. rewrite Hn.
  split_and!; [done|done| | |].
  - rewrite <-list_fmap_compose. apply NoDup_fmap_inj_on; [|done].
    intros x y. apply image_key_inj.
  - apply NoDup_fmap_inj_on; [|done].
    intros x y Heq. unfold image_line in Heq.
    apply (image_key_inj prefix), (s3_uri_inj BUCKET_NAME). congruence.
  - intros c (i & -> & Hi)%list_elem_of_fmap. by exists i.
Qed.

(** *** Step 7 *)

Lemma has_ref_true datum :
  has_ref datum = true ↔ ∃ ref, dget "source-ref" datum = Some (Str ref).
Proof.
  unfold has_ref. destruct (dget "source-ref" datum) as [[ref|j]|];
    split; try done; try (intros [? [=]]); eauto.
Qed.

Lemma import_line_inr BUCKET_NAME target_prefix datum :
  has_ref datum = true ↔ ∃ res, import_line BUCKET_NAME target_prefix datum = inr res.
Proof.
  unfold has_ref, import_line.
  destruct (dget "source-ref" datum) as [[ref|j]|];
    split; try done; try (intros [? [=]]); eauto.
Qed.

Lemma import_line_inl BUCKET_NAME target_prefix datum :
  has_ref datum = false →
  import_line BUCKET_NAME target_prefix datum
  = inl (if decide ("source-ref" ∈ keys datum) then AttributeError
         else KeyError "source-ref").
Proof.
  unfold has_ref, import_line.
  destruct (dget "source-ref" datum) as [[ref|j]|] eqn:E; [done| |]; intros _.
  - rewrite decide_True; [done|]. apply dec_stable. rewrite <-dget_None.
    by rewrite E.
  - rewrite decide_False; [done|]. by apply dget_None.
Qed.

Lemma import_loop_acc BUCKET_NAME target_prefix source : ∀ dc dl,
  import_loop BUCKET_NAME target_prefix source dc dl
  = let r := import_manifest_file BUCKET_NAME target_prefix source in
    {| copies := dc ++ copies r; written := dl ++ written r;
       raised := raised r; uploaded := uploaded r |}.
Proof.
  unfold import_manifest_file.
  induction source as [|d source IH]; intros dc dl; csimpl.
  - by rewrite !app_nil_r.
  - destruct (import_line BUCKET_NAME target_prefix d) as [e|[c d']]; csimpl.
    + by rewrite !app_nil_r.
    + rewrite (IH (dc ++ [c]) (dl ++ [d'])), (IH [c] [d']). csimpl.
      by rewrite <-!(assoc_L (++)).
Qed.

Lemma import_cons BUCKET_NAME target_prefix datum source :
  import_manifest_file BUCKET_NAME target_prefix (datum :: source)
  = match import_line BUCKET_NAME target_prefix datum with
    | inl e => {| copies := []; written := []; raised := Some e;
                  uploaded := false |}
    | inr (c, datum') =>
        let r := import_manifest_file BUCKET_NAME target_prefix source in
        {| copies := c :: copies r; written := datum' :: written r;
           raised := raised r; uploaded := uploaded r |}
    end.
Proof.
  unfold import_manifest_file at 1. csimpl.
  destruct (import_line BUCKET_NAME target_prefix datum) as [e|[c d']];
    [done|].
  by rewrite import_loop_acc.
Qed.

(** X15. [import_manifest_file] runs to its end exactly when every line has
    a string under ["source-ref"], and uploads the updated manifest exactly
    when it runs to its end. *)
Theorem import_succeeds_iff BUCKET_NAME target_prefix source :
  let r := import_manifest_file BUCKET_NAME target_prefix source in
  (raised r = None ↔ Forall (λ datum, has_ref datum = true) source)
  ∧ (uploaded r = true ↔ raised r = None).
Proof.
  induction source as [|d source [IH1 IH2]]; csimpl.
  - split; [|done]. split; [by constructor | done].
  - rewrite import_cons. rewrite Forall_cons.
    destruct (import_line BUCKET_NAME target_prefix d) as [e|[c d']] eqn:E;
      csimpl.
    + split; [|done]. split; [done|]. intros [Hd _].
      apply (import_line_inr BUCKET_NAME target_prefix) in Hd as [? Hd].
      by rewrite E in Hd.
    + split; [|done]. rewrite IH1.
      assert (has_ref d = true) by (apply (import_line_inr BUCKET_NAME target_prefix); eauto).
      tauto.
Qed.

Lemma import_line_inv BUCKET_NAME target_prefix datum c datum' :
  import_line BUCKET_NAME target_prefix datum = inr (c, datum') →
  ∃ ref, dget "source-ref" datum = Some (Str ref)
    ∧ c = {| source_key := "test/" +:+ (rpartition "/" ref).2;
             dest_key := target_prefix +:+ "/images/"
                         +:+ (rpartition "/" ref).2 |}
    ∧ datum' = dset "source-ref"
                 (Str (s3_uri BUCKET_NAME
                         (target_prefix +:+ "/images/"
                          +:+ (rpartition "/" ref).2))) datum.
Proof.
  unfold import_line.
  destruct (dget "source-ref" datum) as [[ref|j]|]; [|done..].
  intros [= <- <-]. by exists ref.
Qed.

Lemma import_line_effect BUCKET_NAME target_prefix datum c datum' :
  import_line BUCKET_NAME target_prefix datum = inr (c, datum') →
  keys datum' = keys datum
  ∧ (∀ k, k ≠ "source-ref" → dget k datum' = dget k datum)
  ∧ ∃ pre f, has_char "/" f = false
      ∧ dget "source-ref" datum = Some (Str (pre +:+ f))
      ∧ dget "source-ref" datum'
        = Some (Str (s3_uri BUCKET_NAME (target_prefix +:+ "/images/" +:+ f)))
      ∧ c = {| source_key := "test/" +:+ f;
               dest_key := target_prefix +:+ "/images/" +:+ f |}.
Proof.
  intros (ref & Hget & -> & ->)%import_line_inv. split_and!.
  - apply keys_dset_present. apply dec_stable. rewrite <-dget_None.
    by rewrite Hget.
  - intros k Hk. by rewrite dget_dset, decide_False.
  - destruct (rpartition_spec "/" ref) as (h & m & t & Hrp & Href & Ht & _).
    rewrite Hrp. csimpl. exists (h +:+ m), t. split_and!; [done| | |done].
    + by rewrite Hget, Href, str_app_assoc.
    + by rewrite dget_dset, decide_True.
Qed.

(** X16. When [import_manifest_file] runs to its end it writes one line per
    line read and makes one copy per line, in order.  A written line has
    the keys of the line read, in the same order, and the same value under
    each key but ["source-ref"]; the old reference ends with a file name
    without ["/"], the new one is that file under
    [s3://BUCKET_NAME/target_prefix/images/], and the copy made for the
    line reads [test/<file>] and goes to [target_prefix/images/<file>]. *)
Theorem import_replaces_references BUCKET_NAME target_prefix source :
  let r := import_manifest_file BUCKET_NAME target_prefix source in
  raised r = None →
  length (written r) = length source
  ∧ length (copies r) = length source
  ∧ ∀ i datum, source !! i = Some datum →
      ∃ datum' f pre,
        written r !! i = Some datum'
        ∧ keys datum' = keys datum
        ∧ (∀ k, k ≠ "source-ref" → dget k datum' = dget k datum)
        ∧ has_char "/" f = false
        ∧ dget "source-ref" datum = Some (Str (pre +:+ f))
        ∧ dget "source-ref" datum'
          = Some (Str (s3_uri BUCKET_NAME
                         (target_prefix +:+ "/images/" +:+ f)))
        ∧ copies r !! i
          = Some {| source_key := "test/" +:+ f;
                    dest_key := target_prefix +:+ "/images/" +:+ f |}.
Proof.
  cbv zeta. induction source as [|d source IH]; [done|].
  rewrite import_cons.
  destruct (import_line BUCKET_NAME target_prefix d) as [e|[c d']] eqn:E;
    [done|].
  cbn [raised written copies]. intros Hr.
  destruct (IH Hr) as (Hw & Hc & Hi). cbn [length]. rewrite Hw, Hc.
  split_and!; [done..|]. intros [|i] datum Hd.
  - injection Hd as ->.
    apply import_line_effect in E as (Hk & Ho & pre & f & Hf & Hg & Hg' & ->).
    by exists d', f, pre.
  - by apply Hi.
Qed.

(** X17. [import_manifest_file] stops at the first line without a string
    under ["source-ref"]: the lines before it have been copied and written
    as if the file ended there, the lines after it are never read, the
    exception is [KeyError] when the key is missing and [AttributeError]
    when its value is not a string, and the manifest is not uploaded. *)
Theorem import_stops_at_first_bad_line BUCKET_NAME target_prefix
    good bad rest :
  Forall (λ datum, has_ref datum = true) good →
  has_ref bad = false →
  let r := import_manifest_file BUCKET_NAME target_prefix
             (good ++ bad :: rest) in
  let r0 := import_manifest_file BUCKET_NAME target_prefix good in
  copies r = copies r0
  ∧ written r = written r0
  ∧ length (written r) = length good
  ∧ uploaded r = false
  ∧ raised r = Some (if decide ("source-ref" ∈ keys bad) then AttributeError
                     else KeyError "source-ref").
Proof.
  cbv zeta. intros Hgood Hbad.
  induction Hgood as [|d good Hd Hgood IH]; csimpl.
  - rewrite import_cons, import_line_inl by done. done.
  - rewrite !import_cons.
    apply (import_line_inr BUCKET_NAME target_prefix) in Hd as [[c d'] ->].
    cbn [raised written copies uploaded length].
    destruct IH as (-> & -> & -> & -> & ->). done.
Qed.

Lemma uri_shape BUCKET_NAME prefix f :
  s3_uri BUCKET_NAME (prefix +:+ "/images/" +:+ f)
  = ("s3://" +:+ BUCKET_NAME +:+ "/" +:+ prefix +:+ "/images")
    +:+ String "/" f.
Proof. unfold s3_uri. by rewrite !str_app_assoc. Qed.

Lemma import_line_again BUCKET_NAME target_prefix BUCKET_NAME' target_prefix'
    datum c datum' :
  import_line BUCKET_NAME target_prefix datum = inr (c, datum') →
  import_line BUCKET_NAME' target_prefix' datum'
  = import_line BUCKET_NAME' target_prefix' datum.
Proof.
  intros (ref & Hget & -> & ->)%import_line_inv.
  unfold import_line at 1 2. rewrite dget_dset, decide_True, Hget by done.
  rewrite uri_shape, rpartition_app by apply rpartition_tail.
  cbn [snd]. by rewrite dset_dset.
Qed.

(** X18. Only the file names of the references matter to an import: a
    manifest that has been imported once, into whatever bucket and prefix,
    is imported like the original one.  In particular importing the
    result again into the same place changes nothing. *)
Theorem import_twice BUCKET_NAME target_prefix BUCKET_NAME' target_prefix'
    source :
  let r := import_manifest_file BUCKET_NAME target_prefix source in
  raised r = None →
  import_manifest_file BUCKET_NAME' target_prefix' (written r)
  = import_manifest_file BUCKET_NAME' target_prefix' source
  ∧ import_manifest_file BUCKET_NAME target_prefix (written r) = r.
Proof.
  cbv zeta. induction source as [|d source IH]; [done|].
  rewrite (import_cons BUCKET_NAME target_prefix d).
  destruct (import_line BUCKET_NAME target_prefix d) as [e|[c d']] eqn:E;
    [done|].
  cbn [raised written]. intros Hr. destruct (IH Hr) as [IH1 IH2].
  rewrite !import_cons.
  rewrite !(import_line_again BUCKET_NAME target_prefix _ _ d c d' E).
  rewrite E, IH1, IH2. done.
Qed.

Lemma import_line_image_line BUCKET_NAME prefix BUCKET_NAME' target_prefix
    image_id :
  has_char "/" image_id = false →
  import_line (J := J) BUCKET_NAME' target_prefix
    (image_line BUCKET_NAME prefix image_id)
  = inr (image_copy target_prefix image_id,
         image_line BUCKET_NAME' target_prefix image_id).
Proof.
  intros Hi.
  assert (rpartition "/" (s3_uri BUCKET_NAME (image_key prefix image_id))
          = ("s3://" +:+ BUCKET_NAME +:+ "/" +:+ prefix +:+ "/images",
             "/", image_id +:+ ".jpg")) as Hrp.
  { unfold image_key. rewrite uri_shape. apply rpartition_app.
    by rewrite has_char_app, Hi. }
  unfold import_line, image_line. cbn [dget].
  rewrite decide_True by done. rewrite Hrp. cbn [snd dset].
  by rewrite decide_True.
Qed.

(** X19. Importing the input manifest that Step 4 wrote for some images,
    in whatever bucket and under whatever prefix, does what Step 4 does in
    the importing bucket: the same copies from [test/<image>.jpg] and the
    same lines, provided no image id contains ["/"]. *)
Theorem import_of_input_manifest BUCKET_NAME prefix BUCKET_NAME'
    target_prefix image_ids :
  Forall (λ image_id, has_char "/" image_id = false) image_ids →
  import_manifest_file (J := J) BUCKET_NAME' target_prefix
    (write_input_manifest BUCKET_NAME prefix image_ids).2
  = {| copies := (write_input_manifest (J := J) BUCKET_NAME' target_prefix
                    image_ids).1;
       written := (write_input_manifest BUCKET_NAME' target_prefix
                     image_ids).2;
       raised := None;
       uploaded := true |}.
Proof.
  rewrite !write_input_manifest_spec. cbn [fst snd].
  induction 1 as [|i image_ids Hi _ IH]; [done|].
  by rewrite !fmap_cons, import_cons, IH, import_line_image_line.
Qed.

(** *** Step 8 *)

Lemma manifest_location_parts scheme b folder file :
  is_chars 5 scheme = true →
  has_char "/" b = false →
  has_char "/" file = false →
  manifest_location (scheme +:+ b +:+ "/" +:+ folder +:+ "/" +:+ file)
  = (b, folder +:+ "/" +:+ file, folder, file).
Proof.
  intros Hlen Hb Hfile. unfold manifest_location.
  rewrite string_drop_app by done.
  change ("/" +:+ folder +:+ "/" +:+ file)
    with (String "/" (folder +:+ "/" +:+ file)).
  rewrite partition_app by done.
  change ("/" +:+ file) with (String "/" file).
  by rewrite rpartition_app.
Qed.

(** X20. Step 8 takes a manifest's location apart without looking at the
    first five characters: whatever they are, ASCII or not, the bucket is
    what follows up to the first ["/"], the path is all the rest, the file
    what follows the last ["/"] of the path and the folder what precedes
    it. *)
Theorem manifest_location_spec scheme b folder file :
  is_chars 5 scheme = true →
  has_char "/" b = false →
  has_char "/" file = false →
  manifest_location (scheme +:+ b +:+ "/" +:+ folder +:+ "/" +:+ file)
  = (b, folder +:+ "/" +:+ file, folder, file).
Proof. apply manifest_location_parts. Qed.

(** Of a bucket and a file with no folder between them, whatever is cut
    off in front, no folder is found. *)
Lemma folder_of_suffix b file : ∀ k,
  has_char "/" b = false →
  has_char "/" file = false →
  ∃ bucket path manifest_file,
    (let '(manifest_bucket, _, manifest_path) :=
       partition "/" (drop_bytes k (b +:+ String "/" file)) in
     let '(manifest_folder, _, manifest_file) :=
       rpartition "/" manifest_path in
     (manifest_bucket, manifest_path, manifest_folder, manifest_file))
    = (bucket, path, "", manifest_file).
Proof.
  induction b as [|a b IH]; intros k Hb Hfile.
  - destruct k as [|k]; csimpl.
    + rewrite rpartition_not_found by done. eauto.
    + rewrite partition_not_found by (by apply has_char_drop_bytes). eauto.
  - csimpl in Hb. case_decide as Ha; [done|]. destruct k as [|k].
    + change (drop_bytes 0 (String a b +:+ String "/" file))
        with (String a b +:+ String "/" file).
      rewrite partition_app by (csimpl; by rewrite decide_False).
      rewrite rpartition_not_found by done. eauto.
    + apply IH; done.
Qed.

Lemma manifest_location_flat scheme b file :
  String.length scheme = 5 →
  has_char "/" b = false →
  has_char "/" file = false →
  ∃ bucket path manifest_file,
    manifest_location (scheme +:+ b +:+ "/" +:+ file)
    = (bucket, path, "", manifest_file).
Proof.
  intros Hlen Hb Hfile. unfold manifest_location.
  destruct (string_drop_bytes 5 (scheme +:+ b +:+ "/" +:+ file))
    as (k & Hk & ->).
  rewrite drop_bytes_app_ge by lia.
  change ("/" +:+ file) with (String "/" file).
  by apply folder_of_suffix.
Qed.

Section store.
Variable s3_objects :
  string → string → option (list (list (string * value J))).

(** X21. A manifest that lies directly in its bucket, in no folder, cannot
    be loaded: the folder is the empty path, which [os.makedirs] refuses,
    and nothing is downloaded, whatever the bucket holds. *)
Theorem load_job_without_folder scheme b file label :
  String.length scheme = 5 →
  has_char "/" b = false →
  has_char "/" file = false →
  load_job s3_objects
    {| label_name := label; manifest := scheme +:+ b +:+ "/" +:+ file |}
  = inl FileNotFoundError.
Proof.
  intros Hlen Hb Hfile. unfold load_job. cbn [manifest].
  destruct (manifest_location_flat scheme b file Hlen Hb Hfile)
    as (bucket & path & manifest_file & ->).
  by rewrite decide_True.
Qed.

End store.

Lemma annotation_jobs_eq BATCH_NAME BUCKET_NAME my_groundtruth_output
    my_groundtruth_job_name my_groundtruth_labels :
  annotation_jobs BATCH_NAME BUCKET_NAME my_groundtruth_output
    my_groundtruth_job_name my_groundtruth_labels
  = dset "augmentation" (augmentation_job BUCKET_NAME)
      [(BATCH_NAME, batch_job my_groundtruth_output my_groundtruth_job_name
                      my_groundtruth_labels)].
Proof. done. Qed.

(** X22. Whatever the batch is called, the job looked up under
    ["augmentation"] is the one of the repository; a batch of that very
    name is replaced by it, so that one job is left instead of two.  Its
    manifest is looked for in [BUCKET_NAME] under
    [data/augmentation/manifests/output/output.updated.manifest], which is
    the key under which Step 7 uploaded it exactly when [DATA_PREFIX] is
    ["data"]. *)
Theorem augmentation_job_location BATCH_NAME BUCKET_NAME
    my_groundtruth_output my_groundtruth_job_name my_groundtruth_labels
    DATA_PREFIX :
  has_char "/" BUCKET_NAME = false →
  let jobs := annotation_jobs BATCH_NAME BUCKET_NAME my_groundtruth_output
                my_groundtruth_job_name my_groundtruth_labels in
  dget "augmentation" jobs = Some (augmentation_job BUCKET_NAME)
  ∧ keys jobs = first_seen [BATCH_NAME; "augmentation"]
  ∧ (manifest_location (manifest (augmentation_job BUCKET_NAME))).1.1
    = (BUCKET_NAME,
       "data/augmentation/manifests/output/output.updated.manifest")
  ∧ ((manifest_location (manifest (augmentation_job BUCKET_NAME))).1.1.2
     = augment_manifest_loc DATA_PREFIX ↔ DATA_PREFIX = "data").
Proof.
  intros Hb jobs. unfold jobs. rewrite annotation_jobs_eq.
  assert (manifest_location (manifest (augmentation_job BUCKET_NAME))
          = (BUCKET_NAME,
             "data/augmentation/manifests/output/output.updated.manifest",
             "data/augmentation/manifests/output",
             "output.updated.manifest")) as ->.
  { apply (manifest_location_parts "s3://" BUCKET_NAME
             "data/augmentation/manifests/output" "output.updated.manifest");
      done. }
  split_and!.
  - by rewrite dget_dset, decide_True.
  - rewrite keys_dset. done.
  - done.
  - cbn [fst snd]. unfold augment_manifest_loc, data_augment_prefix.
    rewrite str_app_assoc.
    change "data/augmentation/manifests/output/output.updated.manifest"
      with ("data" +:+ "/augmentation"
            +:+ "/manifests/output/output.updated.manifest").
    split; [|by intros ->].
    intros Heq. symmetry. by apply str_app_inv_tail in Heq.
Qed.

(** X23. Standardizing a line moves the value of the job's label attribute
    under ["labels"]: it raises [KeyError] exactly when the line lacks the
    attribute; otherwise the attribute is gone (unless it is ["labels"]
    itself), ["labels"] holds its value, replacing what was there, every
    other attribute keeps its value and no key is repeated. *)
Theorem standardize_renames label datum :
  NoDup (keys datum) →
  match standardize label datum with
  | inl e => e = KeyError label ∧ label ∉ keys datum
  | inr datum' =>
      NoDup (keys datum')
      ∧ dget "labels" datum' = dget label datum
      ∧ is_Some (dget label datum)
      ∧ ∀ k, k ≠ "labels" →
          dget k datum' = if decide (k = label) then None else dget k datum
  end.
Proof.
  intros Hnd. unfold standardize.
  destruct (dget label datum) as [v|] eqn:E.
  - split_and!.
    + rewrite keys_dset. apply NoDup_add_new.
      by apply ResolverMore.NoDup_keys_ddel.
    + by rewrite dget_dset, decide_True.
    + eauto.
    + intros k Hk. rewrite dget_dset, decide_False by done.
      case_decide as Hkl.
      * subst k. by apply dget_ddel_eq.
      * by apply dget_ddel_ne.
  - split; [done|]. by apply dget_None.
Qed.

Lemma standardize_inr label datum :
  label ∈ keys datum ↔ ∃ datum', standardize label datum = inr datum'.
Proof.
  unfold standardize. destruct (dget label datum) as [v|] eqn:E.
  - split; [eauto|]. intros _. apply dec_stable. rewrite <-dget_None.
    by rewrite E.
  - apply dget_None in E. split; [done|]. by intros [? ?].
Qed.

Lemma standardize_all_inr label data data' :
  standardize_all label data = inr data'
  ↔ Forall2 (λ datum datum', standardize label datum = inr datum') data data'.
Proof.
  revert data'. induction data as [|d data IH]; intros data'; csimpl.
  - split; [intros [= <-]; constructor | by intros ->%Forall2_nil_inv_l].
  - destruct (standardize label d) as [e|d'] eqn:E.
    + split; [done|]. intros (? & ? & ? & _ & _)%Forall2_cons_inv_l.
      congruence.
    + destruct (standardize_all label data) as [e|rest'] eqn:Er.
      * split; [done|].
        intros (? & ? & _ & Hr & _)%Forall2_cons_inv_l.
        by apply IH in Hr.
      * split.
        -- intros [= <-]. constructor; [done|]. by apply IH.
        -- intros (d2 & r2 & Hd & Hr & ->)%Forall2_cons_inv_l.
           apply IH in Hr. congruence.
Qed.

Lemma standardize_all_succeeds label data :
  Forall (λ datum, label ∈ keys datum) data
  ↔ ∃ data', standardize_all label data = inr data'.
Proof.
  induction data as [|d data IH]; csimpl.
  - split; [eauto | constructor].
  - rewrite Forall_cons, IH, standardize_inr.
    destruct (standardize label d) as [e|d']; [naive_solver|].
    destruct (standardize_all label data) as [e|rest']; naive_solver.
Qed.

Section store.
Variable s3_objects :
  string → string → option (list (list (string * value J))).

Lemma load_job_loadable j :
  (∃ data, load_job s3_objects j = inr data) ↔ loadable s3_objects j.
Proof.
  unfold load_job, loadable.
  destruct (manifest_location (manifest j)) as [[[b p] folder] file].
  case_decide as Hf; [naive_solver|].
  destruct (s3_objects b p) as [data|].
  - rewrite <-standardize_all_succeeds. naive_solver.
  - naive_solver.
Qed.

Lemma load_job_data j data :
  load_job s3_objects j = inr data →
  Forall2 (λ datum datum', standardize (label_name j) datum = inr datum')
    (job_data s3_objects j) data.
Proof.
  unfold load_job, job_data.
  destruct (manifest_location (manifest j)) as [[[b p] folder] file].
  case_decide; [done|]. destruct (s3_objects b p) as [data0|]; [|done].
  csimpl. by intros ?%standardize_all_inr.
Qed.

Lemma load_jobs_inr jobs loaded :
  load_jobs s3_objects jobs = inr loaded
  ↔ Forall2 (λ nj nd, nd.1 = nj.1 ∧ load_job s3_objects nj.2 = inr nd.2)
      jobs loaded.
Proof.
  revert loaded. induction jobs as [|[id j] jobs IH]; intros loaded; csimpl.
  - split; [intros [= <-]; constructor | by intros ->%Forall2_nil_inv_l].
  - destruct (load_job s3_objects j) as [e|data] eqn:E.
    + split; [done|]. intros (? & ? & [_ ?] & _ & _)%Forall2_cons_inv_l.
      csimpl in *. congruence.
    + destruct (load_jobs s3_objects jobs) as [e|rest'] eqn:Er.
      * split; [done|].
        intros (? & ? & _ & Hr & _)%Forall2_cons_inv_l.
        by apply IH in Hr.
      * split.
        -- intros [= <-]. constructor; [done|]. by apply IH.
        -- intros ([id2 d2] & r2 & [Hid Hd] & Hr & ->)%Forall2_cons_inv_l.
           csimpl in *. apply IH in Hr. congruence.
Qed.

(** X24. The consolidation yields a combined manifest exactly when every
    job can be loaded: its manifest lies in a folder, is in S3, and each
    of its lines has the job's label attribute.  One line of one job
    without it and there is no combined manifest at all. *)
Theorem consolidate_all_or_nothing jobs :
  (∃ combined, consolidate s3_objects jobs = inr combined)
  ↔ Forall (λ nj, loadable s3_objects nj.2) jobs.
Proof.
  unfold consolidate. induction jobs as [|[id j] jobs IH]; csimpl.
  - split; [constructor | eauto].
  - rewrite Forall_cons, <-IH, <-load_job_loadable. csimpl.
    destruct (load_job s3_objects j) as [e|data]; [naive_solver|].
    destruct (load_jobs s3_objects jobs) as [e|rest']; naive_solver.
Qed.

(** X25. The combined manifest has the lines of the jobs' manifests, job
    after job in the order of [annotation_jobs] and line after line: as
    many, each with a ["labels"] attribute, and with the value it had
    under every key that is neither ["labels"] nor a job's label name. *)
Theorem combined_lines jobs combined :
  consolidate s3_objects jobs = inr combined →
  Forall2
    (λ datum datum',
       is_Some (dget "labels" datum')
       ∧ ∀ k, k ≠ "labels" → k ∉ label_name <$> jobs.*2 →
           dget k datum' = dget k datum)
    (concat (job_data s3_objects <$> jobs.*2)) combined.
Proof.
  unfold consolidate.
  destruct (load_jobs s3_objects jobs) as [e|loaded] eqn:E; [done|].
  intros [= <-]. apply load_jobs_inr in E.
  assert (∀ names : list string, label_name <$> jobs.*2 ⊆ names →
    Forall2
      (λ datum datum',
         is_Some (dget "labels" datum')
         ∧ ∀ k, k ≠ "labels" → k ∉ names → dget k datum' = dget k datum)
      (concat (job_data s3_objects <$> jobs.*2)) (concat loaded.*2)) as H;
    [|by apply H].
  intros names. induction E as [|[id j] [id' data] jobs loaded [_ Hj] _ IH];
    csimpl; intros Hsub; [constructor|].
  apply Forall2_app.
  - apply load_job_data in Hj.
    eapply Forall2_impl; [exact Hj|]. intros d d' Hd. csimpl in Hd.
    unfold standardize in Hd.
    destruct (dget (label_name j) d) as [v|]; [|done].
    injection Hd as <-. split.
    + rewrite dget_dset, decide_True by done. eauto.
    + intros k Hk Hnames. rewrite dget_dset, decide_False by done.
      apply dget_ddel_ne. intros ->. apply Hnames, Hsub.
      apply list_elem_of_here.
  - apply IH. intros x Hx. apply Hsub. by apply list_elem_of_further.
Qed.

End store.

End facts.

Section samples.
Import ManifestSamples.

Local Ltac by_compute := apply (bool_decide_unpack _); vm_compute; exact I.

Lemma import_replaces_references_witness :
  raised imported = None
  ∧ length (written imported) = length foreign
  ∧ length (copies imported) = length foreign
  ∧ ∀ i datum, foreign !! i = Some datum →
      ∃ datum' f pre,
        written imported !! i = Some datum'
        ∧ keys datum' = keys datum
        ∧ (∀ k, k ≠ "source-ref" → dget k datum' = dget k datum)
        ∧ has_char "/" f = false
        ∧ dget "source-ref" datum = Some (Str (pre +:+ f))
        ∧ dget "source-ref" datum'
          = Some (Str (s3_uri "bkt" ("data/augmentation" +:+ "/images/" +:+ f)))
        ∧ copies imported !! i
          = Some {| source_key := "test/" +:+ f;
                    dest_key := "data/augmentation" +:+ "/images/" +:+ f |}.
Proof.
  assert (raised imported = None) as H by (vm_compute; reflexivity).
  split; [exact H|].
  exact (import_replaces_references "bkt" "data/augmentation" foreign H).
Defined.

Lemma import_stops_at_first_bad_line_witness :
  Forall (λ datum : list (string * value nat), has_ref datum = true)
    [line "s3://other/data/images/a.jpg" "labels" 1]
  ∧ has_ref [("labels", Other 2)] = false
  ∧ copies (import_manifest_file "bkt" "data/augmentation" broken)
    = copies (import_manifest_file "bkt" "data/augmentation"
                [line "s3://other/data/images/a.jpg" "labels" 1])
  ∧ written (import_manifest_file "bkt" "data/augmentation" broken)
    = written (import_manifest_file "bkt" "data/augmentation"
                 [line "s3://other/data/images/a.jpg" "labels" 1])
  ∧ length (written (import_manifest_file "bkt" "data/augmentation" broken))
    = length [line "s3://other/data/images/a.jpg" "labels" 1]
  ∧ uploaded (import_manifest_file "bkt" "data/augmentation" broken) = false
  ∧ raised (import_manifest_file "bkt" "data/augmentation" broken)
    = Some (if decide ("source-ref" ∈ keys [("labels", Other 2)])
            then AttributeError else KeyError "source-ref").
Proof.
  assert (Forall (λ datum : list (string * value nat), has_ref datum = true)
            [line "s3://other/data/images/a.jpg" "labels" 1]) as H1
    by (repeat constructor).
  assert (has_ref [("labels", Other 2)] = false) as H2
    by (vm_compute; reflexivity).
  split; [exact H1|]. split; [exact H2|].
  exact (import_stops_at_first_bad_line "bkt" "data/augmentation"
           [line "s3://other/data/images/a.jpg" "labels" 1]
           [("labels", Other 2)]
           [line "s3://other/data/images/c.jpg" "labels" 3] H1 H2).
Defined.

Lemma import_twice_witness :
  raised imported = None
  ∧ import_manifest_file "bkt2" "imported" (written imported)
    = import_manifest_file "bkt2" "imported" foreign
  ∧ import_manifest_file "bkt" "data/augmentation" (written imported)
    = imported.
Proof.
  assert (raised imported = None) as H by (vm_compute; reflexivity).
  split; [exact H|].
  exact (import_twice "bkt" "data/augmentation" "bkt2" "imported" foreign H).
Defined.

Lemma import_of_input_manifest_witness :
  Forall (λ image_id, has_char "/" image_id = false) ["a"; "b"]
  ∧ import_manifest_file (J := nat) "bkt" "data/augmentation"
      (write_input_manifest "other" "data/my-annotations" ["a"; "b"]).2
    = {| copies :=
           (write_input_manifest (J := nat) "bkt" "data/augmentation"
              ["a"; "b"]).1;
         written :=
           (write_input_manifest "bkt" "data/augmentation" ["a"; "b"]).2;
         raised := None;
         uploaded := true |}.
Proof.
  assert (Forall (λ image_id, has_char "/" image_id = false) ["a"; "b"])
    as H by (repeat constructor).
  split; [exact H|].
  exact (import_of_input_manifest "other" "data/my-annotations" "bkt"
           "data/augmentation" ["a"; "b"] H).
Defined.

Lemma manifest_location_spec_witness :
  is_chars 5 "s3://" = true
  ∧ has_char "/" "bkt" = false
  ∧ has_char "/" "output.manifest" = false
  ∧ manifest_location
      ("s3://" +:+ "bkt" +:+ "/"
       +:+ "data/my-annotations/job/manifests/output"
       +:+ "/" +:+ "output.manifest")
    = ("bkt",
       "data/my-annotations/job/manifests/output" +:+ "/"
       +:+ "output.manifest",
       "data/my-annotations/job/manifests/output", "output.manifest").
Proof.
  assert (is_chars 5 "s3://" = true) as H1 by reflexivity.
  assert (has_char "/" "bkt" = false) as H2 by reflexivity.
  assert (has_char "/" "output.manifest" = false) as H3 by reflexivity.
  split; [exact H1|]. split; [exact H2|]. split; [exact H3|].
  exact (manifest_location_spec "s3://" "bkt"
           "data/my-annotations/job/manifests/output" "output.manifest"
           H1 H2 H3).
Defined.

(** The five characters cut off in front are characters, not bytes: of
    a location that starts with four, the first of them written on two
    bytes, the first character of the bucket goes as well. *)
Example location_counts_characters :
  manifest_location "é://bkt/folder/file"
  = ("kt", "folder/file", "folder", "file")
  ∧ manifest_location "s3://bkt/folder/file"
    = ("bkt", "folder/file", "folder", "file").
Proof. split; reflexivity. Qed.

Lemma load_job_without_folder_witness :
  String.length "s3://" = 5
  ∧ has_char "/" "bkt" = false
  ∧ has_char "/" "output.manifest" = false
  ∧ load_job store
      {| label_name := "labels";
         manifest := "s3://" +:+ "bkt" +:+ "/" +:+ "output.manifest" |}
    = inl FileNotFoundError.
Proof.
  assert (String.length "s3://" = 5) as H1 by reflexivity.
  assert (has_char "/" "bkt" = false) as H2 by reflexivity.
  assert (has_char "/" "output.manifest" = false) as H3 by reflexivity.
  split; [exact H1|]. split; [exact H2|]. split; [exact H3|].
  exact (load_job_without_folder store "s3://" "bkt" "output.manifest"
           "labels" H1 H2 H3).
Defined.

Lemma augmentation_job_location_witness :
  has_char "/" "bkt" = false
  ∧ dget "augmentation" jobs = Some (augmentation_job "bkt")
  ∧ keys jobs = first_seen ["my-annotations"; "augmentation"]
  ∧ (manifest_location (manifest (augmentation_job "bkt"))).1.1
    = ("bkt", "data/augmentation/manifests/output/output.updated.manifest")
  ∧ ((manifest_location (manifest (augmentation_job "bkt"))).1.1.2
     = augment_manifest_loc "data" ↔ "data" = "data").
Proof.
  assert (has_char "/" "bkt" = false) as H by reflexivity.
  split; [exact H|].
  exact (augmentation_job_location "my-annotations" "bkt"
           "s3://bkt/data/my-annotations" "job" "job" "data" H).
Defined.

Lemma standardize_renames_witness :
  NoDup (keys labelled)
  ∧ match standardize "job" labelled with
    | inl e => e = KeyError "job" ∧ "job" ∉ keys labelled
    | inr datum' =>
        NoDup (keys datum')
        ∧ dget "labels" datum' = dget "job" labelled
        ∧ is_Some (dget "job" labelled)
        ∧ ∀ k, k ≠ "labels" →
            dget k datum' = if decide (k = "job") then None
                            else dget k labelled
    end.
Proof.
  assert (NoDup (keys labelled)) as H by by_compute.
  split; [exact H|].
  exact (standardize_renames "job" labelled H).
Defined.

Lemma combined_lines_witness :
  consolidate store jobs = inr combined
  ∧ Forall2
      (λ datum datum',
         is_Some (dget "labels" datum')
         ∧ ∀ k, k ≠ "labels" → k ∉ label_name <$> jobs.*2 →
             dget k datum' = dget k datum)
      (concat (job_data store <$> jobs.*2)) combined.
Proof.
  assert (consolidate store jobs = inr combined) as H
    by (vm_compute; reflexivity).
  split; [exact H|].
  exact (combined_lines store jobs combined H).
Defined.

End samples.

End ManifestFacts.
